(** * Hub chunk engine, tensor view and LRU cache tier: a shallow embedding

    The Python sources embedded here are
    - [hub/constants.py],
    - [hub/core/chunk_engine/write.py]  (write_array, _write_sample, _write_bytes, _get_last_chunk),
    - [hub/core/chunk_engine/read.py]   (read_array, single/multi threaded readers, _get_sample),
    - [hub/api/tensor.py]               (Tensor).

    Storage providers are finite maps from string keys to byte blobs,
    Python exceptions are values of [exn], and every function that touches
    the provider is a computation in the state-and-exception monad [M]:
    an exception leaves the mutations done so far in place, as in Python. *)

From Stdlib Require Import Strings.Byte Strings.Ascii.
From stdpp Require Import gmap strings list fin_maps pretty.

Open Scope nat_scope.

(** ** Bytes, exceptions and the monad *)

Abbreviation bytes := (list byte).

Inductive exn : Type :=
  | KeyError (key : string)
  | IndexError (what : string)
  | ValueError (what : string)
  | TypeError (what : string)
  | UnboundLocalError (var : string)
  | NotImplementedError (msg : string)
  | UnpicklingError.

(** The provider is a mutable mapping shared by all calls; [clock] counts
    the calls made to [uuid1] so far (time-based identifiers). *)
Record world : Type := World { store : gmap string bytes; clock : nat }.

Definition M (A : Type) : Type := world → (exn + A) * world.

Global Instance M_ret : MRet M := λ A a w, (inr a, w).
Global Instance M_throw : MThrow exn M := λ A e w, (inl e, w).
Global Instance M_bind : MBind M := λ A B k m w,
  match m w with
  | (inr a, w') => k a w'
  | (inl e, w') => (inl e, w')
  end.

(** [raise e] *)
Definition raise {A} (e : exn) : M A := mthrow e.

Definition lift {A} (r : exn + A) : M A :=
  match r with inl e => raise e | inr a => mret a end.

(** [storage[key]] *)
Definition storage_getitem (key : string) : M bytes :=
  λ w, match store w !! key with
       | Some b => (inr b, w)
       | None => (inl (KeyError key), w)
       end.

(** [storage[key] = value]: full overwrite. *)
Definition storage_setitem (key : string) (value : bytes) : M unit :=
  λ w, (inr tt, World (<[key := value]> (store w)) (clock w)).

(** [key in storage] *)
Definition storage_contains (key : string) : M bool :=
  λ w, (inr (bool_decide (is_Some (store w !! key))), w).

(** ** hub/constants.py *)

Definition B : nat := 1.
Definition KB : nat := 1000 * B.
Definition MB : nat := 1000 * KB.
Definition GB : nat := 1000 * MB.

Definition DEFAULT_CHUNK_SIZE : nat := 16 * MB.
Definition MIN_FIRST_CACHE_SIZE : nat := 32 * MB.
Definition MIN_SECOND_CACHE_SIZE : nat := 160 * MB.

Definition CHUNKS_FOLDER : string := "chunks".
Definition META_FILENAME : string := "meta.json".
Definition INDEX_MAP_FILENAME : string := "index_map.json".

Definition DEFAULT_THREADS : nat := 4.

(** ** Paths *)

Definition starts_with_slash (s : string) : bool :=
  match s with
  | String "/"%char _ => true
  | _ => false
  end.

Fixpoint ends_with_slash (s : string) : bool :=
  match s with
  | "" => false
  | String c "" => bool_decide (c = "/"%char)
  | String _ s' => ends_with_slash s'
  end.

(** [os.path.join(path, b)] of posixpath: an absolute component replaces
    what came before, a separator is added unless the path is empty or
    already ends with one. *)
Definition os_path_join (path b : string) : string :=
  if starts_with_slash b then b
  else if bool_decide (path = "") || ends_with_slash path then path +:+ b
  else path +:+ "/" +:+ b.

(** Modelled from the spec: hub/util/keys.py is not among the sources.
    Section 6 lays a tensor at key K out as K/meta.json, K/index_map.json
    and K/chunks/<chunk_id>; the names come from constants.py and the
    components are joined the way read.py joins the chunk key. *)
Definition get_meta_key (key : string) : string :=
  os_path_join key META_FILENAME.

Definition get_index_map_key (key : string) : string :=
  os_path_join key INDEX_MAP_FILENAME.

Definition get_chunk_key (key chunk_name : string) : string :=
  os_path_join (os_path_join key CHUNKS_FOLDER) chunk_name.

(** ** numpy arrays

    An array is its element type, its shape and its C-contiguous buffer.
    An element type is a scalar type and a byte order; element-wise
    equality of two arrays of one element type is equality of the
    buffers. *)

Inductive np_scalar : Type :=
  | np_bool | np_int8 | np_uint8 | np_int16 | np_uint16
  | np_int32 | np_uint32 | np_int64 | np_uint64
  | np_float16 | np_float32 | np_float64
  | np_complex64 | np_complex128.

Global Instance np_scalar_eq_dec : EqDecision np_scalar.
Proof. solve_decision. Defined.

(** [dtype.byteorder]: ['='] (the order of the machine, however it was
    asked for) and ['|'] (one-byte types, which have none) are
    [native_order]; the order opposite to the machine's, which only a
    type of more than one byte can have, is [swapped_order]. *)
Inductive np_byteorder : Type := native_order | swapped_order.

Global Instance np_byteorder_eq_dec : EqDecision np_byteorder.
Proof. solve_decision. Defined.

Record np_dtype : Type := DType {
  scalar_type : np_scalar;
  byteorder : np_byteorder;
}.

Global Instance np_dtype_eq_dec : EqDecision np_dtype.
Proof. solve_decision. Defined.

(** [np.uint8], [np.int32], ... as element types: native byte order. *)
Definition native_dtype (t : np_scalar) : np_dtype := DType t native_order.
Coercion native_dtype : np_scalar >-> np_dtype.

Definition all_dtypes : list np_dtype :=
  [native_dtype np_bool; native_dtype np_int8; native_dtype np_uint8;
   native_dtype np_int16; native_dtype np_uint16; native_dtype np_int32;
   native_dtype np_uint32; native_dtype np_int64; native_dtype np_uint64;
   native_dtype np_float16; native_dtype np_float32;
   native_dtype np_float64; native_dtype np_complex64;
   native_dtype np_complex128].

(** [dtype.name]: the byte order is not part of the name. *)
Definition dtype_name (d : np_dtype) : string :=
  match scalar_type d with
  | np_bool => "bool" | np_int8 => "int8" | np_uint8 => "uint8"
  | np_int16 => "int16" | np_uint16 => "uint16"
  | np_int32 => "int32" | np_uint32 => "uint32"
  | np_int64 => "int64" | np_uint64 => "uint64"
  | np_float16 => "float16" | np_float32 => "float32"
  | np_float64 => "float64"
  | np_complex64 => "complex64" | np_complex128 => "complex128"
  end.

(** [dtype.itemsize] *)
Definition itemsize (d : np_dtype) : nat :=
  match scalar_type d with
  | np_bool | np_int8 | np_uint8 => 1
  | np_int16 | np_uint16 | np_float16 => 2
  | np_int32 | np_uint32 | np_float32 => 4
  | np_int64 | np_uint64 | np_float64 | np_complex64 => 8
  | np_complex128 => 16
  end.

(** [np.dtype(name)]: a name stands for the type in native byte order. *)
Definition dtype_of_name (name : string) : option np_dtype :=
  head (filter (λ d, dtype_name d = name) all_dtypes).

Record ndarray : Type := NDArray {
  dtype : np_dtype;
  shape : list nat;
  data : bytes;
}.

Definition prod_shape (shp : list nat) : nat := foldr Nat.mul 1 shp.

(** The buffer holds exactly the elements the shape announces. *)
Definition ndarray_wf (a : ndarray) : Prop :=
  length (data a) = itemsize (dtype a) * prod_shape (shape a).

(** [b[lo:hi]] for non-negative bounds. *)
Definition bytes_slice (b : bytes) (lo hi : nat) : bytes :=
  take (hi - lo) (drop lo b).

(** [array[i]] for a non-negative index on the leading axis. *)
Definition ndarray_getitem (a : ndarray) (i : nat) : exn + ndarray :=
  match shape a with
  | [] => inl (IndexError "too many indices for array")
  | n :: rest =>
      if decide (i < n) then
        let stride := itemsize (dtype a) * prod_shape rest in
        inr (NDArray (dtype a) rest
               (bytes_slice (data a) (i * stride) (i * stride + stride)))
      else inl (IndexError "index out of bounds")
  end.

(** [np.frombuffer(buffer, dtype=name)]: the bytes of the buffer are taken
    as they are, as elements of the type the name stands for. *)
Definition np_frombuffer (buffer : bytes) (name : string) : exn + ndarray :=
  match dtype_of_name name with
  | None => inl (TypeError "data type not understood")
  | Some d =>
      if decide (length buffer `mod` itemsize d = 0)
      then inr (NDArray d [length buffer `div` itemsize d] buffer)
      else inl (ValueError "buffer size must be a multiple of element size")
  end.

(** [a.reshape(shp)] *)
Definition ndarray_reshape (a : ndarray) (shp : list nat) : exn + ndarray :=
  if decide (prod_shape shp = prod_shape (shape a))
  then inr (NDArray (dtype a) shp (data a))
  else inl (ValueError "cannot reshape array").

(** [np.array(samples)] for a list of arrays: the empty list gives the
    empty float64 vector, arrays of one shape and element type are stacked
    along a new leading axis.  Ragged input is outside the model, and so
    are samples that are not in native byte order: [read_array] builds
    every sample with [np.frombuffer] from a type name. *)
Definition np_array (samples : list ndarray) : exn + ndarray :=
  match samples with
  | [] => inr (NDArray np_float64 [0] [])
  | s :: _ =>
      if forallb (λ x, bool_decide (dtype x = dtype s ∧ shape x = shape s))
           samples
      then inr (NDArray (dtype s) (length samples :: shape s)
                  (concat (data <$> samples)))
      else inl (ValueError "inhomogeneous shape")
  end.

(** Modelled from the spec: hub/util/array.py is not among the sources.
    Section 4.3 step 1: if [batched] is false a singleton leading axis is
    prepended, otherwise rank >= 1 is required. *)
Definition normalize_and_batchify_shape (array : ndarray) (batched : bool)
  : exn + ndarray :=
  if batched then
    match shape array with
    | [] => inl (ValueError "batched array needs a batch axis")
    | _ => inr array
    end
  else inr (NDArray (dtype array) (1 :: shape array) (data array)).

(** Modelled from the spec: hub/core/chunk_engine/flatten.py is not among
    the sources.  Section 4.3: the default flattener maps one sample to its
    canonical row-major byte representation. *)
Definition row_wise_to_bytes (sample : ndarray) : bytes := data sample.

(** ** Tensor meta and index map *)

Record tensor_meta : Type := Meta {
  meta_chunk_size : nat;
  meta_dtype : string;
  meta_length : nat;
  meta_min_shape : list nat;
  meta_max_shape : list nat;
}.

(** An index map entry is a dict; "shape" is added by [_write_sample]
    after [_write_bytes] has built the other three keys. *)
Record index_entry : Type := Entry {
  chunk_names : list string;
  start_byte : nat;
  end_byte : nat;
  entry_shape : option (list nat);
}.

Inductive pyobj : Type :=
  | PMeta (meta : tensor_meta)
  | PIndexMap (index_map : list index_entry).

(** ** The chunk splitter *)

Fixpoint split_chunks (fuel chunk_size : nat) (payload : bytes) : list bytes :=
  match fuel with
  | 0 => []
  | S fuel' =>
      match payload with
      | [] => []
      | _ => take chunk_size payload
               :: split_chunks fuel' chunk_size (drop chunk_size payload)
      end
  end.

(** Modelled from the spec: hub/core/chunk_engine/chunker.py is not among
    the sources.  Section 4.2: with BLLC > 0 the first slice has at most
    BLLC bytes and is meant for the partial last chunk, the following
    slices have [chunk_size] bytes, the last one possibly fewer; no slice is
    empty and the payload is consumed.  The generator reads nothing but its
    arguments, so the lazy sequence is the list of its slices.  The domain
    is [chunk_size >= 1]. *)
Definition generate_chunks (content_bytes : bytes) (chunk_size : nat)
    (bytes_left_in_last_chunk : nat) : list bytes :=
  match content_bytes with
  | [] => []
  | _ =>
      if decide (0 < bytes_left_in_last_chunk) then
        take bytes_left_in_last_chunk content_bytes
          :: split_chunks (length content_bytes) chunk_size
               (drop bytes_left_in_last_chunk content_bytes)
      else split_chunks (length content_bytes) chunk_size content_bytes
  end.

(** Modelled from the spec: [join_chunks] of chunker.py.  Section 4.4: from
    the first chunk take [start_byte..], all intermediate chunks in full,
    from the last chunk [..end_byte]; a single chunk gives
    [start_byte..end_byte]. *)
Fixpoint join_tail (chunks : list bytes) (end_byte : nat) : bytes :=
  match chunks with
  | [] => []
  | [c] => take end_byte c
  | c :: rest => c ++ join_tail rest end_byte
  end.

Definition join_chunks (chunks : list bytes) (start_byte end_byte : nat)
  : bytes :=
  match chunks with
  | [] => []
  | [c] => bytes_slice c start_byte end_byte
  | c :: rest => drop start_byte c ++ join_tail rest end_byte
  end.

(** ** Python slices *)

Record pyslice : Type := Slice {
  slice_start : option Z;
  slice_stop : option Z;
  slice_step : option Z;
}.

Global Instance pyslice_eq_dec : EqDecision pyslice.
Proof. solve_decision. Defined.

(** [slice(None)] *)
Definition slice_None : pyslice := Slice None None None.

(** [slice.indices(len)], as CPython adjusts them. *)
Definition slice_indices (s : pyslice) (len : Z) : exn + (Z * Z * Z) :=
  let step := default 1%Z (slice_step s) in
  if decide (step = 0)%Z then inl (ValueError "slice step cannot be zero")
  else
    let lower := if decide (step < 0)%Z then (-1)%Z else 0%Z in
    let upper := if decide (step < 0)%Z then (len - 1)%Z else len in
    let adjust (v : Z) :=
      if decide (v < 0)%Z then Z.max (v + len) lower else Z.min v upper in
    let start :=
      match slice_start s with
      | None => if decide (step < 0)%Z then upper else lower
      | Some v => adjust v
      end in
    let stop :=
      match slice_stop s with
      | None => if decide (step < 0)%Z then lower else upper
      | Some v => adjust v
      end in
    inr (start, stop, step).

(** [len(range(start, stop, step))] *)
Definition range_length (start stop step : Z) : Z :=
  if decide (0 < step)%Z then
    if decide (start < stop)%Z then ((stop - start - 1) `div` step + 1)%Z
    else 0%Z
  else
    if decide (stop < start)%Z then ((start - stop - 1) `div` (- step) + 1)%Z
    else 0%Z.

(** [l[s]] for a list and a slice. *)
Definition list_getslice {A} (l : list A) (s : pyslice) : exn + list A :=
  match slice_indices s (Z.of_nat (length l)) with
  | inl e => inl e
  | inr (start, stop, step) =>
      inr (omap (λ k : nat, l !! Z.to_nat (start + Z.of_nat k * step))
             (seq 0 (Z.to_nat (range_length start stop step))))
  end.

(** [l.insert(index, x)] for a non-negative index: past the end it appends. *)
Definition list_insert_at {A} (index : nat) (x : A) (l : list A) : list A :=
  take index l ++ x :: drop index l.

(** [for x in xs: acc = body(acc, x)] in the monad. *)
Fixpoint for_each {A S} (xs : list A) (body : S → A → M S) (acc : S) : M S :=
  match xs with
  | [] => mret acc
  | x :: rest => acc' ← body acc x; for_each rest body acc'
  end.

Definition enumerate {A} (l : list A) : list (nat * A) := imap pair l.

(** ** The chunk engine: write.py and read.py *)

Section ChunkEngine.
(** [uuid1 n] is the identifier the n-th call of [uuid.uuid1] returns;
    [pickle_dumps] and [pickle_loads] are the serializer of the meta and
    index map records. *)
Context (uuid1 : nat → string).
Context (pickle_dumps : pyobj → bytes) (pickle_loads : bytes → option pyobj).

(** [pickle.loads(b)] *)
Definition loads (b : bytes) : M pyobj :=
  match pickle_loads b with
  | Some o => mret o
  | None => raise UnpicklingError
  end.

(** [meta[field]] and [index_map[...]] on an unpickled object. *)
Definition as_meta (o : pyobj) : exn + tensor_meta :=
  match o with
  | PMeta m => inr m
  | PIndexMap _ => inl (TypeError "list indices must be integers or slices")
  end.

Definition as_index_map (o : pyobj) : exn + list index_entry :=
  match o with
  | PIndexMap im => inr im
  | PMeta _ => inl (TypeError "unhashable type: slice")
  end.

Definition write_tensor_meta (key : string) (meta : tensor_meta) : M unit :=
  storage_setitem (get_meta_key key) (pickle_dumps (PMeta meta)).

(** [write_dataset_meta(storage, meta)] *)
Definition write_dataset_meta (meta : pyobj) : M unit :=
  storage_setitem META_FILENAME (pickle_dumps meta).

Definition _random_chunk_name : M string :=
  λ w, (inr (uuid1 (clock w)), World (store w) (S (clock w))).

Definition _get_last_chunk (key : string) (index_map : list index_entry)
  : M (string * bytes) :=
  match last index_map with
  | None => mret ("", [])
  | Some last_index_map_entry =>
      last_chunk_name ←
        lift (match last (chunk_names last_index_map_entry) with
              | Some n => inr n
              | None => inl (IndexError "list index out of range")
              end);
      last_chunk ← storage_getitem (get_chunk_key key last_chunk_name);
      mret (last_chunk_name, last_chunk)
  end.

(** The [for chunk in chunk_generator] loop of [_write_bytes]; the
    loop-carried locals are the arguments after the generator. *)
Fixpoint write_chunks (key : string) (chunk_size : nat)
    (index_map : list index_entry) (chunk_generator : list bytes)
    (extend_last_chunk : bool) (last_chunk : bytes) (last_chunk_name : string)
    (names : list string) (start : nat) (stop : option nat)
    {struct chunk_generator} : M (list string * nat * option nat) :=
  match chunk_generator with
  | [] => mret (names, start, stop)
  | chunk :: rest =>
      '(chunk_name, chunk, start, extend_last_chunk) ←
        (if extend_last_chunk then
           let chunk := last_chunk ++ chunk in
           prev ← lift (match last index_map with
                        | Some e => inr e
                        | None => inl (IndexError "list index out of range")
                        end);
           mret (last_chunk_name, chunk, end_byte prev,
                 if decide (chunk_size ≤ length chunk) then false else true)
         else
           chunk_name ← _random_chunk_name;
           mret (chunk_name, chunk, start, false));
      storage_setitem (get_chunk_key key chunk_name) chunk;;
      write_chunks key chunk_size index_map rest extend_last_chunk
        chunk chunk_name (names ++ [chunk_name]) start (Some (length chunk))
  end.

Definition _write_bytes (b : bytes) (key : string) (chunk_size : nat)
    (index_map : list index_entry) : M index_entry :=
  '(last_chunk_name, last_chunk) ← _get_last_chunk key index_map;
  let '(bllc, extend_last_chunk) :=
    if decide (0 < length index_map ∧ length last_chunk < chunk_size)
    then (chunk_size - length last_chunk, true)
    else (0, false) in
  let chunk_generator := generate_chunks b chunk_size bllc in
  '(names, start, stop) ←
    write_chunks key chunk_size index_map chunk_generator
      extend_last_chunk last_chunk last_chunk_name [] 0 None;
  match stop with
  | None => raise (UnboundLocalError "end_byte")
  | Some stop => mret (Entry names start stop None)
  end.

Definition _write_sample (sample : ndarray) (key : string) (chunk_size : nat)
    (index_map : list index_entry) (to_bytes : ndarray → bytes)
  : M (list index_entry) :=
  let b := to_bytes sample in
  index_map_entry ← _write_bytes b key chunk_size index_map;
  mret (index_map ++
          [Entry (chunk_names index_map_entry) (start_byte index_map_entry)
             (end_byte index_map_entry) (Some (shape sample))]).

Definition write_array (array : ndarray) (key : string) (chunk_size : nat)
    (batched : bool) (to_bytes : ndarray → bytes) : M unit :=
  array ← lift (normalize_and_batchify_shape array batched);
  let meta_key := get_meta_key key in
  let index_map_key := get_index_map_key key in
  in_meta ← storage_contains meta_key;
  in_index_map ← storage_contains index_map_key;
  if in_meta || in_index_map
  then raise (NotImplementedError "Appending is not supported yet.")
  else
    batch ← lift (match shape array with
                  | n :: _ => inr n
                  | [] => inl (IndexError "tuple index out of range")
                  end);
    let meta := Meta chunk_size (dtype_name (dtype array)) batch
                  (tail (shape array)) (tail (shape array)) in
    index_map ←
      for_each (seq 0 batch)
        (λ index_map i,
           sample ← lift (ndarray_getitem array i);
           _write_sample sample key chunk_size index_map to_bytes)
        [];
    write_tensor_meta key meta;;
    storage_setitem index_map_key (pickle_dumps (PIndexMap index_map)).

Definition read_tensor_meta (key : string) : M pyobj :=
  b ← storage_getitem (get_meta_key key); loads b.

(** [read_dataset_meta(storage)] *)
Definition read_dataset_meta : M pyobj :=
  b ← storage_getitem META_FILENAME; loads b.

Definition _get_sample (index : nat) (key : string)
    (index_entry : index_entry) (meta : pyobj) (samples : list ndarray)
  : M (list ndarray) :=
  chunks ←
    for_each (chunk_names index_entry)
      (λ chunks chunk_name,
         let chunk_key :=
           os_path_join (os_path_join key "chunks") chunk_name in
         chunk ← storage_getitem chunk_key;
         mret (chunks ++ [chunk]))
      [];
  let combined_bytes :=
    join_chunks chunks (start_byte index_entry) (end_byte index_entry) in
  meta ← lift (as_meta meta);
  out_array ← lift (np_frombuffer combined_bytes (meta_dtype meta));
  shp ← lift (match entry_shape index_entry with
              | Some shp => inr shp
              | None => inl (KeyError "shape")
              end);
  reshaped ← lift (ndarray_reshape out_array shp);
  mret (list_insert_at index reshaped samples).

Definition single_threaded_get_samples (index_map : pyobj)
    (array_slice : pyslice) (key : string) (meta : pyobj)
    (samples : list ndarray) : M (list ndarray) :=
  index_map ← lift (as_index_map index_map);
  entries ← lift (list_getslice index_map array_slice);
  for_each (enumerate entries)
    (λ samples '(index, index_entry),
       _get_sample index key index_entry meta samples)
    samples.

(** A submitted task runs [_get_sample] in a worker; an exception it
    raises is kept in its future, which nobody inspects. *)
Definition run_task (key : string) (meta : pyobj)
    (task : nat * index_entry) (samples : list ndarray) : M (list ndarray) :=
  λ w, match _get_sample task.1 key task.2 meta samples w with
       | (inr samples', w') => (inr samples', w')
       | (inl _, w') => (inr samples, w')
       end.

(** The thread pool.  Every task mutates the shared list [samples] once,
    in its final [samples.insert], so a run of the pool is determined by
    the order in which the tasks reach that statement: [completion] lists
    the task positions in that order.  Leaving the [with] block joins the
    workers. *)
Definition multi_threaded_get_samples (index_map : pyobj)
    (array_slice : pyslice) (key : string) (meta : pyobj)
    (samples : list ndarray) (threads : option Z) (completion : list nat)
  : M (list ndarray) :=
  (match threads with
   | Some n => if decide (n ≤ 0)%Z
               then raise (ValueError "max_workers must be greater than 0")
               else mret tt
   | None => mret tt
   end);;
  index_map ← lift (as_index_map index_map);
  entries ← lift (list_getslice index_map array_slice);
  let futures := enumerate entries in
  for_each completion
    (λ samples position,
       match futures !! position with
       | Some task => run_task key meta task samples
       | None => mret samples
       end)
    samples.

Definition read_array (key : string) (array_slice : pyslice)
    (multi_threaded : bool) (threads : option Z) (completion : list nat)
  : M ndarray :=
  meta ← read_tensor_meta key;
  index_map ← (b ← storage_getitem (get_index_map_key key); loads b);
  samples ←
    (if multi_threaded
     then multi_threaded_get_samples index_map array_slice key meta []
            threads completion
     else single_threaded_get_samples index_map array_slice key meta []);
  lift (np_array samples).

End ChunkEngine.

(** ** The tensor view: api/tensor.py *)

(** [Union[int, slice]] *)
Inductive subscript : Type :=
  | SubInt (item : Z)
  | SubSlice (item : pyslice).

(** A view holds its key, its slice and what [load_meta] read; the
    provider it refers to is the shared store of the world. *)
Record Tensor : Type := MkTensor {
  tensor_key : string;
  tensor_slice : pyslice;
  num_samples : nat;
  tensor_shape : list nat;
}.

Definition unsupported_assignment : exn :=
  NotImplementedError "Assignment to Tensor slices not currently supported!".

Definition unsupported_slice : exn :=
  NotImplementedError "Slice composition not supported".

Section TensorView.
Context (uuid1 : nat → string).
Context (pickle_dumps : pyobj → bytes) (pickle_loads : bytes → option pyobj).
(** Modelled from the spec: hub/util/slice.py is not among the sources.
    Section 6: a subscript yields a derived view whose slice composes with
    the parent's; section 7: the tensor view layer fails with Unsupported
    only.  [merge_slices existing new] is the composed slice, or [None]
    where the helper declines the pair. *)
Context (merge_slices : pyslice → pyslice → option pyslice).

Definition load_meta (self : Tensor) : M Tensor :=
  meta ← read_tensor_meta pickle_loads (tensor_key self);
  meta ← lift (as_meta meta);
  mret (MkTensor (tensor_key self) (tensor_slice self)
          (meta_length meta) (meta_max_shape meta)).

(** [Tensor(key, provider, tensor_slice)] *)
Definition Tensor_init (key : string) (tensor_slice : pyslice) : M Tensor :=
  load_meta (MkTensor key tensor_slice 0 []).

(** [len(self)] *)
Definition Tensor_len (self : Tensor) : nat := num_samples self.

(** [self[item]] *)
Definition Tensor_getitem (self : Tensor) (item : subscript) : M Tensor :=
  let item :=
    match item with
    | SubInt item => Slice (Some item) (Some (item + 1)%Z) None
    | SubSlice item => item
    end in
  new_slice ← (match merge_slices (tensor_slice self) item with
               | Some s => mret s
               | None => raise unsupported_slice
               end);
  Tensor_init (tensor_key self) new_slice.

(** [self[item] = value]; the result is [self] after [load_meta]. *)
Definition Tensor_setitem (self : Tensor) (item : subscript)
    (value : ndarray) : M Tensor :=
  sliced_self ← Tensor_getitem self item;
  if decide (tensor_slice sliced_self ≠ slice_None)
  then raise unsupported_assignment
  else
    write_array uuid1 pickle_dumps value (tensor_key self)
      DEFAULT_CHUNK_SIZE true row_wise_to_bytes;;
    load_meta self.

(** [list(self)]: [__iter__] yields [self[i]] for [i] in
    [range(len(self))]; the views are built one after the other, and an
    exception of [self[i]] ends the iteration. *)
Definition Tensor_iter (self : Tensor) : M (list Tensor) :=
  for_each (seq 0 (Tensor_len self))
    (λ views i,
       view ← Tensor_getitem self (SubInt (Z.of_nat i));
       mret (views ++ [view]))
    [].

(** [self.numpy()] *)
Definition Tensor_numpy (self : Tensor) (completion : list nat) : M ndarray :=
  read_array pickle_loads (tensor_key self) (tensor_slice self)
    true None completion.

End TensorView.

(** ** The LRU cache tier *)

(** Modelled from the spec: the storage providers (hub/core/storage) are
    not among the sources.  Section 4.1 gives the interface every provider
    satisfies; only the operations the cache tier calls are listed.  A read
    returns the provider as well, since reading through a cache tier
    reorders and refills it. *)
Class StorageProvider (P : Type) : Type := {
  sp_get : string → P → option bytes * P;
  sp_put : string → bytes → P → P;
  sp_delete : string → P → P;
  sp_contains : string → P → bool;
  sp_keys : P → gset string;
  sp_flush : P → P;
}.

(** The in-memory provider is a finite map. *)
Global Instance memory_provider : StorageProvider (gmap string bytes) := {|
  sp_get k m := (m !! k, m);
  sp_put k v m := <[k := v]> m;
  sp_delete k m := delete k m;
  sp_contains k m := bool_decide (is_Some (m !! k));
  sp_keys m := dom m;
  sp_flush m := m;
|}.

Module LRUCache.
Section Tier.
Context {C N : Type} `{!StorageProvider C, !StorageProvider N}.

(** Modelled from the spec: hub/core/storage/lru_cache.py is not among
    the sources.  Section 4.5: [lru_sizes] maps the cached keys to their
    byte lengths, most recently used first; [cache_used] is the byte
    count of the cache; [dirty_keys] are the cached keys not yet written
    to [next_storage]; [cache_size] is the byte budget. *)
Record t : Type := Make {
  cache_storage : C;
  next_storage : N;
  cache_size : nat;
  lru_sizes : list (string * nat);
  cache_used : nat;
  dirty_keys : gset string;
}.

Definition init (cache : C) (next : N) (budget : nat) : t :=
  Make cache next budget [] 0 ∅.

Definition size_of (k : string) (sizes : list (string * nat)) : option nat :=
  (λ r : nat * (string * nat), r.2.2) <$> list_find (λ e, e.1 = k) sizes.

Definition remove_key (k : string) (sizes : list (string * nat))
  : list (string * nat) :=
  filter (λ e, e.1 ≠ k) sizes.

(** Modelled from the spec: eviction of the least recently used key,
    section 4.5: if it is dirty its bytes are written to [next] and it
    leaves [dirty_keys]; it is deleted from [cache] and [lru_sizes]. *)
Definition pop_from_cache (s : t) : t :=
  match last (lru_sizes s) with
  | None => s
  | Some (k, n) =>
      let '(cache, next) :=
        if decide (k ∈ dirty_keys s) then
          match sp_get k (cache_storage s) with
          | (Some v, cache) => (cache, sp_put k v (next_storage s))
          | (None, cache) => (cache, next_storage s)
          end
        else (cache_storage s, next_storage s) in
      Make (sp_delete k cache) next (cache_size s)
        (removelast (lru_sizes s)) (cache_used s - n)
        (dirty_keys s ∖ {[k]})
  end.

(** Modelled from the spec: the eviction loop that makes room for
    [extra] bytes.  Section 4.5: least recently used keys are evicted
    until the budget holds; a payload larger than the budget first evicts
    everything and is stored all the same.  Every round removes one key,
    so the number of cached keys is enough fuel. *)
Fixpoint free_up_space_loop (fuel extra : nat) (s : t) : t :=
  match fuel with
  | 0 => s
  | S fuel' =>
      if decide (cache_size s < cache_used s + extra ∧ lru_sizes s ≠ [])
      then free_up_space_loop fuel' extra (pop_from_cache s)
      else s
  end.

Definition free_up_space (extra : nat) (s : t) : t :=
  free_up_space_loop (length (lru_sizes s)) extra s.

(** Drop [k] from the bookkeeping of the cache (not from the cache). *)
Definition forget (k : string) (s : t) : t :=
  match size_of k (lru_sizes s) with
  | Some n =>
      Make (cache_storage s) (next_storage s) (cache_size s)
        (remove_key k (lru_sizes s)) (cache_used s - n) (dirty_keys s)
  | None => s
  end.

Definition insert_in_cache (k : string) (v : bytes) (s : t) : t :=
  let s := free_up_space (length v) s in
  Make (sp_put k v (cache_storage s)) (next_storage s) (cache_size s)
    ((k, length v) :: lru_sizes s) (cache_used s + length v)
    (dirty_keys s).

(** Modelled from the spec: [get(k)], section 4.5. *)
Definition get (k : string) (s : t) : (exn + bytes) * t :=
  match size_of k (lru_sizes s) with
  | Some n =>
      let '(r, cache) := sp_get k (cache_storage s) in
      match r with
      | Some v =>
          (inr v, Make cache (next_storage s) (cache_size s)
                    ((k, n) :: remove_key k (lru_sizes s)) (cache_used s)
                    (dirty_keys s))
      | None =>
          (inl (KeyError k),
           Make cache (next_storage s) (cache_size s) (lru_sizes s)
             (cache_used s) (dirty_keys s))
      end
  | None =>
      let '(r, next) := sp_get k (next_storage s) in
      let s := Make (cache_storage s) next (cache_size s) (lru_sizes s)
                 (cache_used s) (dirty_keys s) in
      match r with
      | Some v => (inr v, insert_in_cache k v s)
      | None => (inl (KeyError k), s)
      end
  end.

(** Modelled from the spec: [put(k, v)], section 4.5. *)
Definition put (k : string) (v : bytes) (s : t) : t :=
  let s := insert_in_cache k v (forget k s) in
  Make (cache_storage s) (next_storage s) (cache_size s)
    (lru_sizes s) (cache_used s) (dirty_keys s ∪ {[k]}).

(** Modelled from the spec: [delete(k)], section 4.5. *)
Definition delete (k : string) (s : t) : (exn + unit) * t :=
  let in_cache := bool_decide (is_Some (size_of k (lru_sizes s))) in
  let in_next := sp_contains k (next_storage s) in
  if in_cache || in_next then
    let s := forget k s in
    (inr tt,
     Make (if in_cache then sp_delete k (cache_storage s)
           else cache_storage s)
       (if in_next then sp_delete k (next_storage s) else next_storage s)
       (cache_size s) (lru_sizes s) (cache_used s) (dirty_keys s ∖ {[k]}))
  else (inl (KeyError k), s).

(** Modelled from the spec: [flush()], section 4.5. *)
Definition flush (s : t) : t :=
  let '(cache, next) :=
    foldr (λ k '(cache, next),
             match sp_get k cache with
             | (Some v, cache) => (cache, sp_put k v next)
             | (None, cache) => (cache, next)
             end)
      (cache_storage s, next_storage s) (elements (dirty_keys s)) in
  Make cache (sp_flush next) (cache_size s)
    (lru_sizes s) (cache_used s) ∅.

Definition contains (k : string) (s : t) : bool :=
  sp_contains k (cache_storage s) || sp_contains k (next_storage s).

Definition iter_keys (s : t) : gset string :=
  sp_keys (cache_storage s) ∪ sp_keys (next_storage s).

Definition len (s : t) : nat := size (iter_keys s).

(** The operations section 8 quantifies over. *)
Inductive op : Type :=
  | Get (k : string)
  | Put (k : string) (v : bytes)
  | Delete (k : string)
  | Flush.

Definition step (o : op) (s : t) : t :=
  match o with
  | Get k => (get k s).2
  | Put k v => put k v s
  | Delete k => (delete k s).2
  | Flush => flush s
  end.

(** Section 4.5: [cache_used] is the sum over [lru_sizes], within the
    budget unless a single oversized entry is all the cache holds. *)
Definition sum_sizes (sizes : list (string * nat)) : nat :=
  foldr (λ e acc, e.2 + acc) 0 sizes.

Definition within_budget (s : t) : Prop :=
  cache_used s ≤ cache_size s
  ∨ ∃ k n, lru_sizes s = [(k, n)] ∧ cache_size s < n.

Definition budget_invariant (s : t) : Prop :=
  cache_used s = sum_sizes (lru_sizes s) ∧ within_budget s.

End Tier.
Global Arguments t : clear implicits.
Global Arguments t _ _ : assert.

(** A tier is itself a provider, so tiers stack into a chain. *)
Global Instance provider {C N} `{!StorageProvider C, !StorageProvider N}
  : StorageProvider (t C N) := {|
  sp_get k s :=
    match get k s with
    | (inr v, s') => (Some v, s')
    | (inl _, s') => (None, s')
    end;
  sp_put k v s := put k v s;
  sp_delete k s := (delete k s).2;
  sp_contains k s := contains k s;
  sp_keys s := iter_keys s;
  sp_flush s := flush s;
|}.
End LRUCache.

(** ** Auxiliary definitions for the proofs *)

(** The directory part a key contributes to a joined path. *)
Definition as_dir (path : string) : string :=
  if bool_decide (path = "") || ends_with_slash path then path
  else path +:+ "/".

Definition chunk_prefix (key : string) : string :=
  (as_dir key +:+ CHUNKS_FOLDER) +:+ "/".

(** A computation that never raises an exception of kind [P]. *)
Definition never_raises {A} (P : exn → Prop) (m : M A) : Prop :=
  ∀ w e w', m w = (inl e, w') → ¬ P e.

Definition is_not_implemented (e : exn) : Prop :=
  ∃ msg, e = NotImplementedError msg.

(** The error of the existence check of [write_array]. *)
Definition already_exists : exn :=
  NotImplementedError "Appending is not supported yet.".

(** What the splitter produces: chunks of exactly [chunk_size] bytes, the
    last one non-empty and possibly shorter. *)
Inductive chunked (chunk_size : nat) : list bytes → Prop :=
  | chunked_nil : chunked chunk_size []
  | chunked_last c :
      1 ≤ length c ≤ chunk_size → chunked chunk_size [c]
  | chunked_cons c rest :
      length c = chunk_size → rest ≠ [] → chunked chunk_size rest →
      chunked chunk_size (c :: rest).

(** The byte range an index entry with offsets [s] and [e] selects from
    the contents [xs] of its chunks, when every chunk but the last is full
    and the offsets lie inside the first and the last chunk. *)
Inductive covers (chunk_size : nat)
  : list bytes → nat → nat → bytes → Prop :=
  | covers_single x s e :
      s ≤ e → e ≤ length x → length x ≤ chunk_size →
      covers chunk_size [x] s e (bytes_slice x s e)
  | covers_multi x0 mid xl s e :
      length x0 = chunk_size → s ≤ chunk_size →
      Forall (λ x, length x = chunk_size) mid →
      e ≤ length xl → length xl ≤ chunk_size →
      covers chunk_size (x0 :: mid ++ [xl]) s e
        (drop s x0 ++ concat mid ++ take e xl).

(** A chunk may grow at its end as long as it is not full. *)
Definition grows (chunk_size : nat) (x x' : bytes) : Prop :=
  ∃ y, x' = x ++ y ∧ (length x = chunk_size → y = [])
       ∧ length x' ≤ chunk_size.

(** Section 3, invariant 2, for an index map. *)
Definition adjacent (index_map : list index_entry) : Prop :=
  ∀ i e1 e2,
    index_map !! i = Some e1 → index_map !! S i = Some e2 →
    (∃ c, head (chunk_names e2) = Some c ∧ last (chunk_names e1) = Some c
          ∧ start_byte e2 = end_byte e1)
    ∨ (start_byte e2 = 0
       ∧ ∃ c, head (chunk_names e2) = Some c
              ∧ ∀ i' e', i' ≤ i → index_map !! i' = Some e' →
                         c ∉ chunk_names e').

(** The number of bytes an index entry covers, section 3, invariant 1,
    computed from the lengths of the stored chunks. *)
Definition covered_bytes (st : gmap string bytes) (key : string)
    (e : index_entry) : option Z :=
  xs ← mapM (λ name, st !! get_chunk_key key name) (chunk_names e);
  match xs with
  | [] => None
  | [x] => Some (Z.of_nat (end_byte e) - Z.of_nat (start_byte e))%Z
  | x0 :: rest =>
      Some (Z.of_nat (length x0) - Z.of_nat (start_byte e)
            + Z.of_nat (length (concat (removelast rest)))
            + Z.of_nat (end_byte e))%Z
  end.

(** A storage key that lies under [<key>/chunks/]. *)
Definition under_chunks (key k : string) : Prop :=
  ∃ name, k = chunk_prefix key +:+ name.

(** What the proofs need from [uuid.uuid1]: the names it hands out are
    pairwise distinct and none starts with a path separator. *)
Record uuid_supply (uuid1 : nat → string) : Prop := {
  uuid1_inj : ∀ i j, uuid1 i = uuid1 j → i = j;
  uuid1_relative : ∀ n, starts_with_slash (uuid1 n) = false;
}.

Section Layout.
Context (uuid1 : nat → string) (key : string) (chunk_size : nat).

(** The storage key of the [j]-th chunk name handed out. *)
Definition chunk_key_of (j : nat) : string := get_chunk_key key (uuid1 j).

(** The store after the chunks [qs] have been written under the names
    handed out from clock value [n] on. *)
Fixpoint put_chunks (n : nat) (qs : list bytes) (st : gmap string bytes)
  : gmap string bytes :=
  match qs with
  | [] => st
  | q :: rest => put_chunks (S n) rest (<[chunk_key_of n := q]> st)
  end.

(** The names of an entry are names handed out since clock value [n0],
    their chunks are in the store and the entry covers the payload [p]. *)
Definition entry_ok (n0 : nat) (w : world) (e : index_entry) (p : bytes)
  : Prop :=
  ∃ js xs,
    chunk_names e = uuid1 <$> js
    ∧ Forall (λ j, n0 ≤ j < clock w) js
    ∧ Forall2 (λ j x, store w !! chunk_key_of j = Some x) js xs
    ∧ covers chunk_size xs (start_byte e) (end_byte e) p.

(** The invariant of the sample loop of [write_array], started in a
    world with store [st0] and clock [n0]: [index_map] describes the
    payloads [ps] written so far. *)
Record layout (st0 : gmap string bytes) (n0 : nat) (w : world)
    (index_map : list index_entry) (ps : list bytes) : Prop := {
  lay_clock : n0 ≤ clock w;
  lay_frame : ∀ k, (∀ j, n0 ≤ j < clock w → k ≠ chunk_key_of j) →
                   store w !! k = st0 !! k;
  lay_chunks : ∀ j, n0 ≤ j < clock w →
                    ∃ x, store w !! chunk_key_of j = Some x
                         ∧ 1 ≤ length x ≤ chunk_size
                         ∧ (S j < clock w → length x = chunk_size);
  lay_tail : match last index_map with
             | None => clock w = n0
             | Some e =>
                 ∃ j x, S j = clock w ∧ n0 ≤ j
                        ∧ last (chunk_names e) = Some (uuid1 j)
                        ∧ store w !! chunk_key_of j = Some x
                        ∧ end_byte e = length x
             end;
  lay_entries : Forall2 (entry_ok n0 w) index_map ps;
  lay_adjacent : adjacent index_map;
}.
(** The body of the sample loop of [write_array]. *)
Definition write_body (array : ndarray) (to_bytes : ndarray → bytes)
    (index_map : list index_entry) (i : nat) : M (list index_entry) :=
  sample ← lift (ndarray_getitem array i);
  _write_sample uuid1 sample key chunk_size index_map to_bytes.

End Layout.

(** The buffer of [a] taken as elements in native byte order, the way
    [np.frombuffer] with the name of the element type takes it: [a] itself
    when its element type is in native byte order, otherwise an array of
    byte-swapped values. *)
Definition native_view (a : ndarray) : ndarray :=
  NDArray (native_dtype (scalar_type (dtype a))) (shape a) (data a).

(** What [_get_sample] needs to find to decode the buffer of [s] from the
    entry [e]. *)
Definition sample_stored (key : string) (d : np_dtype) (w : world)
    (e : index_entry) (s : ndarray) : Prop :=
  (∃ xs, Forall2 (λ name x, store w !! get_chunk_key key name = Some x)
           (chunk_names e) xs
         ∧ join_chunks xs (start_byte e) (end_byte e) = data s)
  ∧ entry_shape e = Some (shape s)
  ∧ dtype s = d
  ∧ length (data s) = itemsize d * prod_shape (shape s).

(** ** A concrete name supply and serializer

    Instances of the parameters of the chunk engine on which the
    statements can be evaluated: names "c0", "c1", ... and a serializer that
    writes the code of a record bit by bit. *)

Definition counter_uuid1 (n : nat) : string := "c" +:+ pretty n.

Global Instance tensor_meta_eq_dec : EqDecision tensor_meta.
Proof. solve_decision. Defined.
Global Instance index_entry_eq_dec : EqDecision index_entry.
Proof. solve_decision. Defined.
Global Instance pyobj_eq_dec : EqDecision pyobj.
Proof. solve_decision. Defined.

Global Instance tensor_meta_countable : Countable tensor_meta.
Proof.
  apply (inj_countable'
           (λ m, (meta_chunk_size m, meta_dtype m, meta_length m,
                  meta_min_shape m, meta_max_shape m))
           (λ t, match t with (a, b, c, d, e) => Meta a b c d e end)).
  by intros [].
Defined.

Global Instance index_entry_countable : Countable index_entry.
Proof.
  apply (inj_countable'
           (λ e, (chunk_names e, start_byte e, end_byte e, entry_shape e))
           (λ t, match t with (a, b, c, d) => Entry a b c d end)).
  by intros [].
Defined.

Global Instance pyobj_countable : Countable pyobj.
Proof.
  apply (inj_countable'
           (λ o, match o with PMeta m => inl m | PIndexMap im => inr im end)
           (λ s, match s with inl m => PMeta m | inr im => PIndexMap im end)).
  by intros [].
Defined.

Fixpoint pos_to_bytes (p : positive) : bytes :=
  match p with
  | xH => []
  | xO p => x00 :: pos_to_bytes p
  | xI p => x01 :: pos_to_bytes p
  end.

Fixpoint bytes_to_pos (b : bytes) : positive :=
  match b with
  | [] => xH
  | x01 :: rest => xI (bytes_to_pos rest)
  | _ :: rest => xO (bytes_to_pos rest)
  end.

Definition bitwise_dumps (o : pyobj) : bytes := pos_to_bytes (encode o).
Definition bitwise_loads (b : bytes) : option pyobj :=
  decode (bytes_to_pos b).

(** ** Inputs on which the claims are evaluated *)

(** A 1x0 array: one sample without elements. *)
Definition empty_sample_array : ndarray := NDArray np_uint8 [1; 0] [].

(** The bytes "abc" as three one-byte samples, and the same bytes as the
    parallel reader returns them when the workers finish in the order
    2, 1, 0. *)
Definition abc_array : ndarray := NDArray np_uint8 [3] [x61; x62; x63].
Definition acb_array : ndarray := NDArray np_uint8 [3] [x61; x63; x62].

(** Two samples of three bytes each. *)
Definition two_by_three (b1 b2 b3 b4 b5 b6 : byte) : ndarray :=
  NDArray np_uint8 [2; 3] [b1; b2; b3; b4; b5; b6].

Definition empty_world : world := World ∅ 0.

(** The world after [abc_array] has been written under the key "t". *)
Definition abc_world : world :=
  (write_array counter_uuid1 bitwise_dumps abc_array "t" 4 true
     row_wise_to_bytes empty_world).2.

(** ** Tensor views *)

(** The slice a subscript stands for, as [__getitem__] converts it. *)
Definition subscript_slice (item : subscript) : pyslice :=
  match item with
  | SubInt item => Slice (Some item) (Some (item + 1)%Z) None
  | SubSlice item => item
  end.

(** The tensor at [key] exists for [write_array]. *)
Definition tensor_exists (w : world) (key : string) : Prop :=
  is_Some (store w !! get_meta_key key)
  ∨ is_Some (store w !! get_index_map_key key).

(** [self] is the view its constructor builds on the store of [w]. *)
Definition is_view (pickle_loads : bytes → option pyobj) (self : Tensor)
    (w : world) : Prop :=
  Tensor_init pickle_loads (tensor_key self) (tensor_slice self) w
  = (inr self, w).

(** Section 6: the slice [merge_slices] returns composes with the
    parent's, on every list. *)
Definition slice_composition
    (merge_slices : pyslice → pyslice → option pyslice) : Prop :=
  ∀ s1 s2 s, merge_slices s1 s2 = Some s →
    ∀ l : list nat,
      list_getslice l s
      = match list_getslice l s1 with
        | inl e => inl e
        | inr l' => list_getslice l' s2
        end.

(** A composition that accepts a pair when one of the two slices is
    unrestricted. *)
Definition trivial_merge_slices (existing new : pyslice) : option pyslice :=
  if decide (existing = slice_None) then Some new
  else if decide (new = slice_None) then Some existing
  else None.

(** A stored tensor of two samples and the unsliced view of it. *)
Definition stored_array : ndarray := two_by_three x61 x62 x63 x64 x65 x66.

Definition stored_world : world :=
  (write_array counter_uuid1 bitwise_dumps stored_array "t" 4 true
     row_wise_to_bytes empty_world).2.

Definition stored_view : Tensor := MkTensor "t" slice_None 2 [3].

(** What the bookkeeping of a cache tier satisfies in every reachable
    state: the byte count is the sum of the recorded sizes and no key is
    recorded twice. *)
Definition lru_consistent {C N : Type} (s : LRUCache.t C N) : Prop :=
  LRUCache.cache_used s = LRUCache.sum_sizes (LRUCache.lru_sizes s)
  ∧ NoDup (LRUCache.lru_sizes s).*1.

(** ** Effects of a computation *)

(** A computation that leaves the world as it found it, whatever it
    returns or raises. *)
Definition read_only {A} (m : M A) : Prop := ∀ w, (m w).2 = w.

(** The index map and the meta of the stored tensor, and the store with
    the first chunk lost. *)
Definition stored_index_map : list index_entry :=
  [Entry ["c0"] 0 3 (Some [3]); Entry ["c0"; "c1"] 3 2 (Some [3])].

Definition stored_meta : tensor_meta := Meta 4 "uint8" 2 [3] [3].

Definition damaged_world : world :=
  World (delete (get_chunk_key "t" "c0") (store stored_world))
    (clock stored_world).

(** The chunk names of an index map are relative path components. *)
Definition names_relative (index_map : list index_entry) : Prop :=
  Forall (λ e, Forall (λ name, starts_with_slash name = false)
                 (chunk_names e))
    index_map.

(** A computation that writes under [<key>/chunks/] only, whatever its
    outcome, and whose results satisfy [Q]. *)
Definition writes_chunks_only (key : string) {A} (Q : A → Prop) (m : M A)
  : Prop :=
  ∀ w r w', m w = (r, w') →
    (∀ k, ¬ under_chunks key k → store w' !! k = store w !! k)
    ∧ (∀ a, r = inr a → Q a).

(** An array without samples. *)
Definition no_samples_array : ndarray := NDArray np_uint8 [0; 3] [].

(** The chunks written since clock value [n0], in the order in which their
    names were drawn, are the payloads [ps] laid end to end and cut into
    pieces of [chunk_size] bytes. *)
Definition packed (uuid1 : nat → string) (key : string)
    (chunk_size n0 : nat) (w : world) (ps : list bytes) : Prop :=
  ∃ qs, chunked chunk_size qs
        ∧ concat qs = concat ps
        ∧ clock w = n0 + length qs
        ∧ ∀ i q, qs !! i = Some q →
                 store w !! chunk_key_of uuid1 key (n0 + i) = Some q.

(** The storage keys that belong to the tensor at [key]. *)
Definition tensor_keys (key k : string) : Prop :=
  k = get_meta_key key ∨ k = get_index_map_key key
  ∨ ∃ name, k = get_chunk_key key name.

(** A computation whose result depends on the store at the keys in [R]
    only. *)
Definition reads_only (R : string → Prop) {A} (m : M A) : Prop :=
  ∀ w1 w2, (∀ k, R k → store w1 !! k = store w2 !! k) →
           (m w1).1 = (m w2).1.

(** ** A cache tier between two in-memory providers *)

Abbreviation memory_tier :=
  (LRUCache.t (gmap string bytes) (gmap string bytes)).

(** What a reader of the tier sees: the cache, and behind it the next
    provider. *)
Definition lru_view (s : memory_tier) : gmap string bytes :=
  LRUCache.cache_storage s ∪ LRUCache.next_storage s.

(** The operations on a plain dictionary. *)
Definition dict_step (o : LRUCache.op) (m : gmap string bytes)
  : gmap string bytes :=
  match o with
  | LRUCache.Get _ | LRUCache.Flush => m
  | LRUCache.Put k v => <[k := v]> m
  | LRUCache.Delete k => delete k m
  end.

(** The bookkeeping of a tier matches its cache: the recorded keys are
    the cached keys (but for [hole], a key whose record has just been
    dropped), no key is recorded twice, and a cached key that is not dirty
    has the same bytes in the next provider. *)
Definition lru_coherent (hole : option string) (s : memory_tier) : Prop :=
  NoDup (LRUCache.lru_sizes s).*1
  ∧ (∀ k, k ∈ (LRUCache.lru_sizes s).*1 →
          is_Some (LRUCache.cache_storage s !! k))
  ∧ (∀ k, Some k ≠ hole → is_Some (LRUCache.cache_storage s !! k) →
          k ∈ (LRUCache.lru_sizes s).*1)
  ∧ (∀ k v, k ∈ (LRUCache.lru_sizes s).*1 →
            LRUCache.cache_storage s !! k = Some v →
            k ∉ LRUCache.dirty_keys s →
            LRUCache.next_storage s !! k = Some v).
(** * Properties *)

(** ** Keys *)

Section Keys.

Lemma append_cons c (s t : string) :
  String c s +:+ t = String c (s +:+ t).
Proof. reflexivity. Qed.

Lemma append_assoc (s t u : string) : (s +:+ t) +:+ u = s +:+ (t +:+ u).
Proof.
  induction s as [|c s IH]; [reflexivity|].
  rewrite !append_cons. by f_equal.
Qed.

Lemma append_eq_empty (s t : string) : s +:+ t = "" → t = "".
Proof. destruct s; [done | by rewrite append_cons]. Qed.

Lemma ends_with_slash_app (s t : string) :
  t ≠ "" → ends_with_slash (s +:+ t) = ends_with_slash t.
Proof.
  intros Ht. induction s as [|c s IH]; [reflexivity|].
  rewrite append_cons. simpl.
  destruct (s +:+ t) eqn:E; [|done].
  by apply append_eq_empty in E.
Qed.

Lemma os_path_join_relative (path b : string) :
  starts_with_slash b = false → os_path_join path b = as_dir path +:+ b.
Proof.
  intros Hb. unfold os_path_join, as_dir. rewrite Hb.
  destruct (bool_decide (path = "") || ends_with_slash path); [done|].
  by rewrite append_assoc.
Qed.

Lemma get_meta_key_eq key : get_meta_key key = as_dir key +:+ META_FILENAME.
Proof. by apply os_path_join_relative. Qed.

Lemma get_index_map_key_eq key :
  get_index_map_key key = as_dir key +:+ INDEX_MAP_FILENAME.
Proof. by apply os_path_join_relative. Qed.

Lemma get_chunk_key_eq key name :
  starts_with_slash name = false →
  get_chunk_key key name = chunk_prefix key +:+ name.
Proof.
  intros Hn. unfold get_chunk_key, chunk_prefix.
  rewrite (os_path_join_relative _ name Hn).
  rewrite (os_path_join_relative key CHUNKS_FOLDER) by done.
  f_equal. unfold as_dir at 1.
  rewrite ends_with_slash_app by done.
  rewrite (bool_decide_eq_false_2 (_ = "")); [done|].
  intros E. by apply append_eq_empty in E.
Qed.

Lemma get_chunk_key_inj key n1 n2 :
  starts_with_slash n1 = false → starts_with_slash n2 = false →
  get_chunk_key key n1 = get_chunk_key key n2 → n1 = n2.
Proof.
  intros H1 H2. rewrite !get_chunk_key_eq by done.
  apply String.app_inj.
Qed.

Lemma chunk_key_not_meta key name :
  starts_with_slash name = false →
  get_chunk_key key name ≠ get_meta_key key.
Proof.
  intros Hn. rewrite get_chunk_key_eq, get_meta_key_eq by done.
  unfold chunk_prefix. rewrite !append_assoc.
  intros E%String.app_inj. discriminate E.
Qed.

Lemma chunk_key_not_index_map key name :
  starts_with_slash name = false →
  get_chunk_key key name ≠ get_index_map_key key.
Proof.
  intros Hn. rewrite get_chunk_key_eq, get_index_map_key_eq by done.
  unfold chunk_prefix. rewrite !append_assoc.
  intros E%String.app_inj. discriminate E.
Qed.

Lemma meta_key_not_index_map key : get_meta_key key ≠ get_index_map_key key.
Proof.
  rewrite get_meta_key_eq, get_index_map_key_eq.
  intros E%String.app_inj. discriminate E.
Qed.

End Keys.

(** ** The LRU cache tier *)

Section LRUBudget.
Context {C N : Type} `{!StorageProvider C, !StorageProvider N}.
Implicit Types (s : LRUCache.t C N) (sizes : list (string * nat)).

Lemma sum_sizes_app sizes1 sizes2 :
  LRUCache.sum_sizes (sizes1 ++ sizes2)
  = LRUCache.sum_sizes sizes1 + LRUCache.sum_sizes sizes2.
Proof.
  induction sizes1 as [|e l IH]; simpl; [done|]. rewrite IH. lia.
Qed.

Lemma size_of_None k sizes :
  LRUCache.size_of k sizes = None → k ∉ sizes.*1.
Proof.
  unfold LRUCache.size_of. intros Hn.
  destruct (list_find _ sizes) as [r|] eqn:E; [done|].
  rewrite list_find_None in E. intros Hin.
  apply list_elem_of_fmap in Hin as [e [-> He]].
  by eapply Forall_forall in E.
Qed.

Lemma remove_key_absent k sizes :
  k ∉ sizes.*1 → LRUCache.remove_key k sizes = sizes.
Proof.
  induction sizes as [|e l IH]; [done|]. intros Hn.
  rewrite fmap_cons, not_elem_of_cons in Hn. destruct Hn as [Hne Hn].
  unfold LRUCache.remove_key in *. rewrite filter_cons_True by done.
  by rewrite IH.
Qed.

Lemma remove_key_not_in k sizes : k ∉ (LRUCache.remove_key k sizes).*1.
Proof.
  intros Hin. apply list_elem_of_fmap in Hin as [e [-> He]].
  unfold LRUCache.remove_key in He.
  apply list_elem_of_filter in He as [Hne _]. done.
Qed.

Lemma remove_key_NoDup k sizes :
  NoDup sizes.*1 → NoDup (LRUCache.remove_key k sizes).*1.
Proof.
  induction sizes as [|e l IH]; [done|].
  rewrite fmap_cons, NoDup_cons. intros [Hn Hd].
  unfold LRUCache.remove_key in *.
  destruct (decide (e.1 ≠ k)).
  - rewrite filter_cons_True by done. rewrite fmap_cons, NoDup_cons.
    split; [|by apply IH].
    intros Hin. apply Hn.
    apply list_elem_of_fmap in Hin as [e' [-> He']].
    apply list_elem_of_filter in He' as [_ He'].
    apply list_elem_of_fmap. eauto.
  - rewrite filter_cons_False by done. by apply IH.
Qed.

Lemma size_of_Some k n sizes :
  LRUCache.size_of k sizes = Some n → NoDup sizes.*1 →
  LRUCache.sum_sizes (LRUCache.remove_key k sizes) + n
  = LRUCache.sum_sizes sizes.
Proof.
  induction sizes as [|[k' n'] l IH]; [done|].
  rewrite fmap_cons, NoDup_cons. simpl. intros Hs [Hn Hd].
  unfold LRUCache.size_of, LRUCache.remove_key in *. simpl in Hs.
  destruct (decide (k' = k)) as [->|Hne].
  - simpl in Hs. injection Hs as ->.
    rewrite filter_cons_False by (simpl; tauto).
    fold (LRUCache.remove_key k l). rewrite remove_key_absent by done.
    lia.
  - rewrite filter_cons_True by done. simpl.
    destruct (list_find _ l) as [r|] eqn:E; [|done].
    simpl in Hs. specialize (IH Hs Hd). lia.
Qed.

Lemma pop_from_cache_fields s k n :
  last (LRUCache.lru_sizes s) = Some (k, n) →
  LRUCache.lru_sizes (LRUCache.pop_from_cache s)
    = removelast (LRUCache.lru_sizes s)
  ∧ LRUCache.cache_used (LRUCache.pop_from_cache s)
    = LRUCache.cache_used s - n
  ∧ LRUCache.cache_size (LRUCache.pop_from_cache s) = LRUCache.cache_size s.
Proof.
  intros Hl. unfold LRUCache.pop_from_cache. rewrite Hl.
  by repeat case_match.
Qed.

Lemma pop_from_cache_consistent s :
  LRUCache.lru_sizes s ≠ [] → lru_consistent s →
  lru_consistent (LRUCache.pop_from_cache s)
  ∧ LRUCache.cache_size (LRUCache.pop_from_cache s) = LRUCache.cache_size s
  ∧ S (length (LRUCache.lru_sizes (LRUCache.pop_from_cache s)))
    = length (LRUCache.lru_sizes s)
  ∧ (LRUCache.lru_sizes (LRUCache.pop_from_cache s)).*1
      ⊆ (LRUCache.lru_sizes s).*1.
Proof.
  intros Hne [Hsum Hnd].
  destruct (last (LRUCache.lru_sizes s)) as [[k n]|] eqn:Hl;
    [|by apply last_None in Hl].
  destruct (pop_from_cache_fields s k n Hl) as (Hf1 & Hf2 & Hf3).
  apply last_Some in Hl as [l' Hl'].
  unfold lru_consistent. rewrite Hf1, Hf2, Hf3, Hl', removelast_last.
  rewrite Hl' in Hsum, Hnd.
  rewrite sum_sizes_app in Hsum. simpl in Hsum.
  rewrite fmap_app, NoDup_app in Hnd. destruct Hnd as (Hnd & _ & _).
  repeat split; [lia | done | | ].
  - rewrite length_app. simpl. lia.
  - rewrite fmap_app. set_solver.
Qed.

Lemma free_up_space_loop_spec fuel extra s :
  lru_consistent s → length (LRUCache.lru_sizes s) ≤ fuel →
  let s' := LRUCache.free_up_space_loop fuel extra s in
  lru_consistent s'
  ∧ LRUCache.cache_size s' = LRUCache.cache_size s
  ∧ (LRUCache.lru_sizes s').*1 ⊆ (LRUCache.lru_sizes s).*1
  ∧ (LRUCache.cache_used s' + extra ≤ LRUCache.cache_size s'
     ∨ LRUCache.lru_sizes s' = []).
Proof.
  revert s. induction fuel as [|fuel IH]; intros s Hc Hlen; simpl.
  - repeat split; try apply Hc; [done|]. right.
    destruct (LRUCache.lru_sizes s); [done | simpl in Hlen; lia].
  - case_decide as Hd.
    + destruct Hd as [Hover Hne].
      destruct (pop_from_cache_consistent s Hne Hc) as (Hc' & Hsz & Hl & Hsub).
      destruct (IH (LRUCache.pop_from_cache s) Hc' ltac:(lia))
        as (Hc'' & Hsz' & Hsub' & Hfit).
      repeat split; try apply Hc''; [congruence | set_solver | done].
    + repeat split; try apply Hc; [done|].
      destruct (decide (LRUCache.lru_sizes s = [])); [by right|].
      left. apply not_and_l in Hd as [Hd|Hd]; [lia | done].
Qed.

Lemma insert_in_cache_spec k v s :
  lru_consistent s → k ∉ (LRUCache.lru_sizes s).*1 →
  let s' := LRUCache.insert_in_cache k v s in
  lru_consistent s' ∧ LRUCache.within_budget s'
  ∧ LRUCache.cache_size s' = LRUCache.cache_size s.
Proof.
  intros Hc Hk. unfold LRUCache.insert_in_cache, LRUCache.free_up_space.
  destruct (free_up_space_loop_spec (length (LRUCache.lru_sizes s))
              (length v) s Hc ltac:(done)) as ([Hsum Hnd] & Hsz & Hsub & Hfit).
  set (s1 := LRUCache.free_up_space_loop _ _ s) in *.
  unfold lru_consistent, LRUCache.within_budget. simpl.
  repeat split.
  - rewrite Hsum. lia.
  - rewrite NoDup_cons. split; [set_solver | done].
  - destruct Hfit as [Hfit|Hnil]; [by left|].
    rewrite Hnil in *. simpl in Hsum. rewrite Hsum. simpl.
    destruct (decide (length v ≤ LRUCache.cache_size s1)); [by left|].
    right. exists k, (length v). split; [done | lia].
  - done.
Qed.

Lemma forget_spec k s :
  lru_consistent s →
  let s' := LRUCache.forget k s in
  lru_consistent s' ∧ (k ∉ (LRUCache.lru_sizes s').*1)
  ∧ LRUCache.cache_size s' = LRUCache.cache_size s
  ∧ (LRUCache.within_budget s → LRUCache.within_budget s').
Proof.
  intros [Hsum Hnd]. unfold LRUCache.forget.
  destruct (LRUCache.size_of k (LRUCache.lru_sizes s)) as [n|] eqn:E.
  - pose proof (size_of_Some k n _ E Hnd) as Hrm.
    unfold lru_consistent, LRUCache.within_budget. simpl.
    split; [split|split; [|split]].
    + lia.
    + by apply remove_key_NoDup.
    + apply remove_key_not_in.
    + done.
    + intros [Hle|(k' & n' & Heq & Hlt)]; [left; lia|].
      left. rewrite Heq in Hsum, E. unfold LRUCache.size_of in E.
      simpl in E, Hsum. case_decide; simplify_eq/=. lia.
  - split; [done|]. split; [by apply size_of_None | done].
Qed.

Lemma step_preserves o s :
  lru_consistent s ∧ LRUCache.within_budget s →
  (lru_consistent (LRUCache.step o s)
   ∧ LRUCache.within_budget (LRUCache.step o s))
  ∧ LRUCache.cache_size (LRUCache.step o s) = LRUCache.cache_size s.
Proof.
  intros [Hc Hb]. destruct o as [k|k v|k|]; simpl.
  - (* get *)
    unfold LRUCache.get.
    destruct (LRUCache.size_of k (LRUCache.lru_sizes s)) as [n|] eqn:E.
    + destruct (sp_get k (LRUCache.cache_storage s)) as [[v|] cache];
        simpl; [|done].
      destruct Hc as [Hsum Hnd].
      pose proof (size_of_Some k n _ E Hnd) as Hrm.
      unfold lru_consistent, LRUCache.within_budget. simpl.
      repeat split.
      * lia.
      * rewrite NoDup_cons. split;
          [apply remove_key_not_in | by apply remove_key_NoDup].
      * destruct Hb as [Hle|(k' & n' & Heq & Hlt)]; [by left|].
        right. exists k, n. rewrite Heq in *.
        unfold LRUCache.size_of in E. simpl in E.
        case_decide as Hk; simpl in *; [|done].
        injection E as <-. subst k'.
        unfold LRUCache.remove_key.
        rewrite filter_cons_False by (simpl; tauto). done.
    + destruct (sp_get k (LRUCache.next_storage s)) as [[v|] next];
        simpl; [|done].
      apply size_of_None in E.
      set (s1 := LRUCache.Make _ next _ _ _ _).
      destruct (insert_in_cache_spec k v s1) as (? & ? & ?); done.
  - (* put *)
    unfold LRUCache.put.
    destruct (forget_spec k s Hc) as (Hc1 & Hk1 & Hsz1 & _).
    destruct (insert_in_cache_spec k v _ Hc1 Hk1) as (Hc2 & Hb2 & Hsz2).
    split; [split; [exact Hc2 | exact Hb2] | exact (eq_trans Hsz2 Hsz1)].
  - (* delete *)
    unfold LRUCache.delete.
    destruct (forget_spec k s Hc) as (Hc1 & Hk1 & Hsz1 & Hb1).
    destruct (_ || _); simpl; [|done].
    split; [split; [exact Hc1 | exact (Hb1 Hb)] | exact Hsz1].
  - (* flush *)
    unfold LRUCache.flush.
    destruct (foldr _ _ _) as [cache next]. done.
Qed.

Lemma run_preserves (ops : list LRUCache.op) s :
  lru_consistent s ∧ LRUCache.within_budget s →
  let s' := foldl (λ s o, LRUCache.step o s) s ops in
  (lru_consistent s' ∧ LRUCache.within_budget s')
  ∧ LRUCache.cache_size s' = LRUCache.cache_size s.
Proof.
  revert s. induction ops as [|o ops IH]; intros s Hs; simpl; [done|].
  destruct (step_preserves o s Hs) as [Hs' Hsz].
  destruct (IH _ Hs') as [Hs'' Hsz']. split; [done | congruence].
Qed.

(** C8. Section 8, "LRU budget": starting from an empty tier with byte
    budget [budget], after every sequence of get, put, delete and flush
    operations (that is, at the end of each of them) [cache_used] is the
    sum of the values of [lru_sizes], and it is at most the budget unless
    the cache holds exactly one entry and that entry is larger than the
    budget. *)
Theorem lru_budget_invariant (cache : C) (next : N) (budget : nat)
    (ops : list LRUCache.op) :
  let s := foldl (λ s o, LRUCache.step o s)
             (LRUCache.init cache next budget) ops in
  LRUCache.cache_size s = budget
  ∧ LRUCache.cache_used s = LRUCache.sum_sizes (LRUCache.lru_sizes s)
  ∧ (LRUCache.cache_used s ≤ budget
     ∨ ∃ k n, LRUCache.lru_sizes s = [(k, n)] ∧ budget < n
              ∧ LRUCache.cache_used s = n).
Proof.
  intros s.
  destruct (run_preserves ops (LRUCache.init cache next budget))
    as [[[Hsum Hnd] Hb] Hsz].
  { split; [split; [done | constructor] | left; simpl; lia]. }
  fold s in Hsum, Hnd, Hb, Hsz. simpl in Hsz.
  split; [done|]. split; [done|].
  rewrite <- Hsz. destruct Hb as [Hle|(k & n & Heq & Hlt)]; [by left|].
  right. exists k, n. rewrite Hsum, Heq. simpl. split; [done|]. lia.
Qed.

End LRUBudget.

(** ** Running computations *)

Ltac munfold :=
  unfold mbind, M_bind, mret, M_ret, lift, raise, mthrow, M_throw,
    storage_getitem, storage_setitem, storage_contains in *.

Ltac mrun :=
  first
    [ reflexivity
    | unfold mbind, M_bind, mret, M_ret, lift, raise, mthrow, M_throw,
        storage_getitem, storage_setitem, storage_contains;
      simpl; reflexivity ].

Section Monad.
Context {A B : Type}.

Lemma bind_ok (m : M A) (k : A → M B) w a w' :
  m w = (inr a, w') → (m ≫= k) w = k a w'.
Proof. intros H. munfold. by rewrite H. Qed.

Lemma bind_err (m : M A) (k : A → M B) w e w' :
  m w = (inl e, w') → (m ≫= k) w = (inl e, w').
Proof. intros H. munfold. by rewrite H. Qed.

Lemma bind_inv_ok (m : M A) (k : A → M B) w b w' :
  (m ≫= k) w = (inr b, w') →
  ∃ a w1, m w = (inr a, w1) ∧ k a w1 = (inr b, w').
Proof.
  munfold. destruct (m w) as [[e|a] w1]; [done|]. eauto.
Qed.

Lemma bind_inv_err (m : M A) (k : A → M B) w e w' :
  (m ≫= k) w = (inl e, w') →
  m w = (inl e, w') ∨ ∃ a w1, m w = (inr a, w1) ∧ k a w1 = (inl e, w').
Proof.
  munfold. destruct (m w) as [[e1|a] w1]; [left; congruence|]. eauto.
Qed.

Lemma for_each_app (xs ys : list A) (body : B → A → M B) acc w :
  for_each (xs ++ ys) body acc w
  = (for_each xs body acc ≫= for_each ys body) w.
Proof.
  revert acc w. induction xs as [|x xs IH]; intros acc w; simpl.
  - done.
  - munfold. destruct (body acc x w) as [[e|acc'] w1]; [done|].
    apply IH.
Qed.
End Monad.

Section NeverRaises.
Context (P : exn → Prop).

Lemma never_raises_ret {A} (a : A) : never_raises P (mret a).
Proof. intros w e w' H. discriminate H. Qed.

Lemma never_raises_bind {A B} (m : M A) (k : A → M B) :
  never_raises P m → (∀ a, never_raises P (k a)) →
  never_raises P (m ≫= k).
Proof.
  intros Hm Hk w e w' H.
  apply bind_inv_err in H as [H|(a & w1 & _ & H)]; [by eapply Hm|].
  by eapply Hk.
Qed.

Lemma never_raises_lift {A} (r : exn + A) :
  (∀ e, r = inl e → ¬ P e) → never_raises P (lift r).
Proof.
  intros Hr w e w' H. destruct r as [e1|a]; [|discriminate H].
  injection H as <- _. by apply Hr.
Qed.

Lemma never_raises_for_each {A S} (xs : list A) (body : S → A → M S) acc :
  (∀ acc x, never_raises P (body acc x)) →
  never_raises P (for_each xs body acc).
Proof.
  intros Hb. revert acc. induction xs as [|x xs IH]; intros acc; simpl.
  - apply never_raises_ret.
  - apply never_raises_bind; [apply Hb | apply IH].
Qed.

Lemma never_raises_getitem key :
  (∀ k, ¬ P (KeyError k)) → never_raises P (storage_getitem key).
Proof.
  intros HP w e w' H. unfold storage_getitem in H.
  destruct (store w !! key); [discriminate H|].
  injection H as <- _. apply HP.
Qed.

Lemma never_raises_setitem key value :
  never_raises P (storage_setitem key value).
Proof. intros w e w' H. discriminate H. Qed.
End NeverRaises.

(** ** The writer refuses existing tensors *)

Section Reject.
Context (uuid1 : nat → string) (pickle_dumps : pyobj → bytes).

Local Ltac not_nie :=
  let H := fresh in intros [? H]; discriminate H.

Lemma _get_last_chunk_never_nie key index_map :
  never_raises is_not_implemented (_get_last_chunk key index_map).
Proof.
  unfold _get_last_chunk. destruct (last index_map) as [e|].
  - apply never_raises_bind.
    + apply never_raises_lift. intros e0 He0.
      destruct (last (chunk_names e)); [discriminate He0|].
      injection He0 as <-. not_nie.
    + intros name. apply never_raises_bind.
      * apply never_raises_getitem. intros k. not_nie.
      * intros b. apply never_raises_ret.
  - apply never_raises_ret.
Qed.

Lemma write_chunks_never_nie key chunk_size index_map chunk_generator
    extend_last_chunk last_chunk last_chunk_name names start stop :
  never_raises is_not_implemented
    (write_chunks uuid1 key chunk_size index_map chunk_generator
       extend_last_chunk last_chunk last_chunk_name names start stop).
Proof.
  revert extend_last_chunk last_chunk last_chunk_name names start stop.
  induction chunk_generator as [|chunk rest IH]; intros ext lc ln names start stop.
  - apply never_raises_ret.
  - simpl. apply never_raises_bind.
    + destruct ext.
      * apply never_raises_bind.
        -- apply never_raises_lift. intros e He.
           destruct (last index_map); [discriminate He|].
           injection He as <-. not_nie.
        -- intros prev. apply never_raises_ret.
      * apply never_raises_bind.
        -- intros w e w' H. discriminate H.
        -- intros name. apply never_raises_ret.
    + intros [[[name chunk'] start'] ext'].
      apply never_raises_bind; [apply never_raises_setitem|].
      intros _. apply IH.
Qed.

Lemma _write_bytes_never_nie b key chunk_size index_map :
  never_raises is_not_implemented
    (_write_bytes uuid1 b key chunk_size index_map).
Proof.
  unfold _write_bytes. apply never_raises_bind.
  - apply _get_last_chunk_never_nie.
  - intros [ln lc]. destruct (decide _) as [?|?].
    + apply never_raises_bind; [apply write_chunks_never_nie|].
      intros [[names start] [stop|]]; [apply never_raises_ret|].
      intros w e w' H. injection H as <- _. not_nie.
    + apply never_raises_bind; [apply write_chunks_never_nie|].
      intros [[names start] [stop|]]; [apply never_raises_ret|].
      intros w e w' H. injection H as <- _. not_nie.
Qed.

Lemma _write_sample_never_nie sample key chunk_size index_map to_bytes :
  never_raises is_not_implemented
    (_write_sample uuid1 sample key chunk_size index_map to_bytes).
Proof.
  unfold _write_sample. apply never_raises_bind.
  - apply _write_bytes_never_nie.
  - intros e. apply never_raises_ret.
Qed.

Lemma normalize_accepts array batched :
  (batched = true → shape array ≠ []) →
  ∃ a', normalize_and_batchify_shape array batched = inr a'.
Proof.
  intros Hrank. unfold normalize_and_batchify_shape.
  destruct batched; [|eauto].
  destruct (shape array) eqn:E; [by destruct Hrank | eauto].
Qed.

(** With the meta key or the index map key in storage the call raises
    before anything is written. *)
Lemma write_array_exists array key chunk_size batched to_bytes w :
  (batched = true → shape array ≠ []) →
  is_Some (store w !! get_meta_key key)
  ∨ is_Some (store w !! get_index_map_key key) →
  write_array uuid1 pickle_dumps array key chunk_size batched to_bytes w
  = (inl already_exists, w).
Proof.
  intros Hrank Hex.
  destruct (normalize_accepts array batched Hrank) as [a' Hnorm].
  unfold write_array.
  erewrite bind_ok; [|by rewrite Hnorm].
  erewrite bind_ok; [|reflexivity].
  erewrite bind_ok; [|reflexivity].
  destruct Hex as [Hex|Hex].
  - by rewrite (bool_decide_eq_true_2 _ Hex).
  - rewrite (bool_decide_eq_true_2 _ Hex).
    by destruct (bool_decide (is_Some (store w !! get_meta_key key))).
Qed.

(** With neither key in storage the call never raises that error. *)
Lemma write_array_fresh_not_rejected array key chunk_size batched to_bytes
    w :
  ¬ is_Some (store w !! get_meta_key key) →
  ¬ is_Some (store w !! get_index_map_key key) →
  (write_array uuid1 pickle_dumps array key chunk_size batched to_bytes
     w).1 ≠ inl already_exists.
Proof.
  intros Em Ei. unfold write_array.
  destruct (normalize_and_batchify_shape array batched) as [e|a'] eqn:Hnorm.
  { erewrite bind_err; [|reflexivity]. simpl.
    unfold normalize_and_batchify_shape in Hnorm.
    destruct batched; [|discriminate Hnorm].
    destruct (shape array); [|discriminate Hnorm].
    by injection Hnorm as <-. }
  erewrite bind_ok; [|reflexivity].
  erewrite bind_ok; [|reflexivity].
  erewrite bind_ok; [|reflexivity].
  rewrite !bool_decide_eq_false_2 by done. simpl.
  match goal with |- context [(?body w).1] => set (m := body) end.
  assert (never_raises is_not_implemented m) as Hnever.
  { subst m. apply never_raises_bind.
    - apply never_raises_lift. intros e He.
      destruct (shape a'); [|discriminate He].
      injection He as <-. not_nie.
    - intros batch. apply never_raises_bind.
      + apply never_raises_for_each. intros im i.
        apply never_raises_bind.
        * apply never_raises_lift. intros e He.
          unfold ndarray_getitem in He.
          destruct (shape a'); [injection He as <-; not_nie|].
          case_decide; [discriminate He|].
          injection He as <-. not_nie.
        * intros sample. apply _write_sample_never_nie.
      + intros im. apply never_raises_bind.
        * apply never_raises_setitem.
        * intros _. apply never_raises_setitem. }
  destruct (m w) as [[e|u] w'] eqn:E; [|done]. simpl.
  intros [= ->]. eapply Hnever; [exact E|]. by eexists.
Qed.

(** C6. Given an array the normalisation accepts (rank >= 1 when
    [batched]), [write_array] raises the "Appending is not supported yet."
    error exactly when the meta key or the index map key of the target is
    in storage, and whenever it raises that error the world is what it was
    before the call: no chunk, meta or index map write has happened. *)
Theorem write_array_already_exists (array : ndarray) (key : string)
    (chunk_size : nat) (batched : bool) (to_bytes : ndarray → bytes)
    (w : world) :
  (batched = true → shape array ≠ []) →
  let r := write_array uuid1 pickle_dumps array key chunk_size batched
             to_bytes w in
  (r.1 = inl already_exists
   ↔ is_Some (store w !! get_meta_key key)
     ∨ is_Some (store w !! get_index_map_key key))
  ∧ (r.1 = inl already_exists → r.2 = w).
Proof.
  intros Hrank r.
  destruct (decide (is_Some (store w !! get_meta_key key)
                    ∨ is_Some (store w !! get_index_map_key key)))
    as [Hex|Hfresh].
  - subst r. rewrite (write_array_exists _ _ _ _ _ _ Hrank Hex).
    by split.
  - assert (r.1 ≠ inl already_exists) as Hne.
    { apply write_array_fresh_not_rejected; tauto. }
    split; [split|]; [done | tauto | done].
Qed.

End Reject.

(** ** The chunk splitter *)

Section Splitter.
Context (chunk_size : nat) (Hcs : 1 ≤ chunk_size).

Lemma split_chunks_nil fuel : split_chunks fuel chunk_size [] = [].
Proof. by destruct fuel. Qed.

(** With the length of the payload as fuel the splitter consumes the
    payload. *)
Lemma split_chunks_spec fuel (payload : bytes) :
  length payload ≤ fuel →
  chunked chunk_size (split_chunks fuel chunk_size payload)
  ∧ concat (split_chunks fuel chunk_size payload) = payload.
Proof.
  revert payload. induction fuel as [|fuel IH]; intros payload Hlen.
  - destruct payload; [|simpl in Hlen; lia]. split; [constructor | done].
  - destruct payload as [|b payload]; [split; [constructor | done]|].
    set (p := b :: payload) in *.
    change (split_chunks (S fuel) chunk_size p)
      with (take chunk_size p
              :: split_chunks fuel chunk_size (drop chunk_size p)).
    assert (length (drop chunk_size p) ≤ fuel) as Hrest.
    { rewrite length_drop. subst p. simpl in *. lia. }
    destruct (IH _ Hrest) as [Hch Hcat].
    split.
    + destruct (drop chunk_size p) as [|b' rest'] eqn:Ed.
      * rewrite split_chunks_nil. apply chunked_last.
        rewrite length_take. subst p. simpl. lia.
      * apply chunked_cons; [| |done].
        -- rewrite length_take.
           assert (length (drop chunk_size p) ≠ 0) as Hd
               by (rewrite Ed; done).
           rewrite length_drop in Hd. lia.
        -- intros Hnil. rewrite Hnil in Hcat. done.
    + simpl. rewrite Hcat. apply take_drop.
Qed.

Lemma chunked_lookup qs i c :
  chunked chunk_size qs → qs !! i = Some c →
  1 ≤ length c ≤ chunk_size ∧ (S i < length qs → length c = chunk_size).
Proof.
  intros Hch. revert i. induction Hch as [|c0 Hc0|c0 rest Hc0 Hne Hch IH];
    intros i Hi.
  - done.
  - destruct i; simplify_eq/=. split; [done | lia].
  - destruct i as [|i]; simplify_eq/=.
    + split; [lia | done].
    + destruct (IH i Hi) as [? ?]. split; [done|]. intros. apply H0. lia.
Qed.

Lemma chunked_last_length qs c :
  chunked chunk_size qs → last qs = Some c → 1 ≤ length c ≤ chunk_size.
Proof.
  intros Hch Hl. rewrite last_lookup in Hl.
  by destruct (chunked_lookup _ _ _ Hch Hl).
Qed.

Lemma generate_chunks_plain (b : bytes) :
  generate_chunks b chunk_size 0 = split_chunks (length b) chunk_size b.
Proof.
  unfold generate_chunks. destruct b; [done|].
  case_decide; [lia | done].
Qed.

Lemma generate_chunks_extend (b : bytes) bllc :
  b ≠ [] → 0 < bllc →
  generate_chunks b chunk_size bllc
  = take bllc b :: split_chunks (length b) chunk_size (drop bllc b).
Proof.
  intros Hb Hl. unfold generate_chunks. destruct b; [done|].
  case_decide; [done | lia].
Qed.

Lemma generate_chunks_empty bllc : generate_chunks [] chunk_size bllc = [].
Proof. done. Qed.

Lemma split_chunks_nonempty (b : bytes) :
  b ≠ [] → split_chunks (length b) chunk_size b ≠ [].
Proof.
  intros Hb Hnil.
  destruct (split_chunks_spec (length b) b ltac:(done)) as [_ Hcat].
  rewrite Hnil in Hcat. simpl in Hcat. done.
Qed.

End Splitter.

(** ** Reading a range back *)

Section Covers.
Context (chunk_size : nat).

Lemma join_tail_app (mid : list bytes) xl e :
  join_tail (mid ++ [xl]) e = concat mid ++ take e xl.
Proof.
  induction mid as [|m mid IH]; simpl; [done|].
  destruct (mid ++ [xl]) eqn:E.
  - by destruct mid.
  - rewrite IH. by rewrite app_assoc.
Qed.

Lemma covers_join xs s e p :
  covers chunk_size xs s e p → join_chunks xs s e = p.
Proof.
  intros [x s' e' _ _ _|x0 mid xl s' e' _ _ _ _ _]; [done|].
  unfold join_chunks. destruct (mid ++ [xl]) eqn:E.
  - by destruct mid.
  - rewrite <- E. by rewrite join_tail_app.
Qed.

Lemma covers_eq xs s e p p' :
  covers chunk_size xs s e p → p = p' → covers chunk_size xs s e p'.
Proof. by intros ? <-. Qed.

Lemma covers_nonempty xs s e p : covers chunk_size xs s e p → xs ≠ [].
Proof. by intros []. Qed.

Lemma bytes_slice_length (x : bytes) s e :
  s ≤ e → e ≤ length x → length (bytes_slice x s e) = e - s.
Proof.
  intros. unfold bytes_slice. rewrite length_take, length_drop. lia.
Qed.

Lemma bytes_slice_grow (x y : bytes) s e :
  s ≤ e → e ≤ length x → bytes_slice (x ++ y) s e = bytes_slice x s e.
Proof.
  intros Hs He. unfold bytes_slice.
  rewrite drop_app_le by lia.
  rewrite take_app_le; [done|]. rewrite length_drop. lia.
Qed.

(** Growing the chunks that are not full leaves every covered range as
    it is. *)
Lemma covers_grows xs xs' s e p :
  covers chunk_size xs s e p → Forall2 (grows chunk_size) xs xs' →
  covers chunk_size xs' s e p.
Proof.
  intros Hc Hg. destruct Hc as [x s e Hs He Hx|x0 mid xl s e H0 Hs Hm He Hl].
  - apply Forall2_cons_inv_l in Hg as (x' & r & (y & -> & Hy & Hlen) & Hr & ->).
    apply Forall2_nil_inv_l in Hr as ->.
    rewrite <- (bytes_slice_grow x y s e) by done.
    apply covers_single; [done | rewrite length_app; lia | done].
  - apply Forall2_cons_inv_l in Hg as (x0' & r & (y0 & -> & Hy0 & Hlen0) & Hr & ->).
    rewrite (Hy0 H0), app_nil_r in *.
    apply Forall2_app_inv_l in Hr as (mid' & l' & Hmid & Hl' & ->).
    apply Forall2_cons_inv_l in Hl' as (xl' & r' & (y & -> & Hy & Hlen) & Hr' & ->).
    apply Forall2_nil_inv_l in Hr' as ->.
    assert (mid' = mid) as ->.
    { clear -Hmid Hm. induction Hmid as [|m m' mid mid' Hg Hmid IH];
        [done|].
      apply Forall_cons in Hm as [Hm1 Hm2].
      destruct Hg as (y & -> & Hy & _). rewrite (Hy Hm1), app_nil_r.
      f_equal. by apply IH. }
    rewrite <- (take_app_le xl y e) by done.
    apply covers_multi; [done | done | done | rewrite length_app; lia | done].
Qed.

Lemma covers_length xs s e p :
  covers chunk_size xs s e p →
  match xs with
  | [] => False
  | [x] => (Z.of_nat (length p) = Z.of_nat e - Z.of_nat s)%Z
  | x0 :: rest =>
      (Z.of_nat (length p)
       = Z.of_nat (length x0) - Z.of_nat s
         + Z.of_nat (length (concat (removelast rest)))
         + Z.of_nat e)%Z
  end.
Proof.
  intros [x s' e' Hs He _|x0 mid xl s' e' H0 Hs Hm He Hl].
  - rewrite bytes_slice_length by done. lia.
  - destruct (mid ++ [xl]) eqn:E; [by destruct mid|]. rewrite <- E.
    rewrite removelast_last, !length_app, length_drop, length_take. lia.
Qed.

End Covers.

(** ** The writer *)

Section Writer.
Context (uuid1 : nat → string) (Huuid : uuid_supply uuid1).
Context (key : string) (chunk_size : nat) (Hcs : 1 ≤ chunk_size).

Local Abbreviation ck := (chunk_key_of uuid1 key).
Local Abbreviation put_chunks := (put_chunks uuid1 key).

Lemma chunk_key_of_inj i j : ck i = ck j → i = j.
Proof.
  unfold chunk_key_of. intros H.
  apply get_chunk_key_inj in H; [|apply (uuid1_relative _ Huuid)..].
  by apply (uuid1_inj _ Huuid).
Qed.

Lemma chunk_key_of_under j : under_chunks key (ck j).
Proof.
  exists (uuid1 j). unfold chunk_key_of.
  apply get_chunk_key_eq, (uuid1_relative _ Huuid).
Qed.

Lemma chunk_key_of_not_meta j : ck j ≠ get_meta_key key.
Proof. apply chunk_key_not_meta, (uuid1_relative _ Huuid). Qed.

Lemma chunk_key_of_not_index_map j : ck j ≠ get_index_map_key key.
Proof. apply chunk_key_not_index_map, (uuid1_relative _ Huuid). Qed.

Lemma put_chunks_lookup_other n qs st k :
  (∀ i, i < length qs → k ≠ ck (n + i)) →
  put_chunks n qs st !! k = st !! k.
Proof.
  revert n st. induction qs as [|q qs IH]; intros n st Hk; simpl; [done|].
  rewrite IH.
  - apply lookup_insert_ne. specialize (Hk 0). rewrite Nat.add_0_r in Hk.
    intros E. eapply Hk; [simpl; lia | done].
  - intros i Hi. replace (S n + i) with (n + S i) by lia.
    apply Hk. simpl. lia.
Qed.

Lemma put_chunks_lookup n qs st i :
  i < length qs → put_chunks n qs st !! ck (n + i) = qs !! i.
Proof.
  revert n st i. induction qs as [|q qs IH]; intros n st i Hi; simpl in *;
    [lia|].
  destruct i as [|i].
  - rewrite put_chunks_lookup_other.
    + rewrite Nat.add_0_r. apply lookup_insert_eq.
    + intros i _ E. apply chunk_key_of_inj in E. lia.
  - replace (n + S i) with (S n + i) by lia. apply IH. lia.
Qed.

Lemma put_chunks_lookup_old n qs st j :
  j < n → put_chunks n qs st !! ck j = st !! ck j.
Proof.
  intros Hj. apply put_chunks_lookup_other.
  intros i _ E. apply chunk_key_of_inj in E. lia.
Qed.

Lemma last_cons_cases {A} (x : A) (l : list A) :
  last (x :: l) = match last l with Some y => Some y | None => Some x end.
Proof.
  destruct l as [|y l]; [done|]. simpl.
  destruct (last (y :: l)) eqn:E; [done|]. by apply last_None in E.
Qed.

(** The loop of [_write_bytes] once the last chunk is no longer
    extended: every slice goes to a new chunk. *)
Lemma write_chunks_fresh index_map qs lc ln names start stop w :
  write_chunks uuid1 key chunk_size index_map qs false lc ln names start stop
    w
  = (inr (names ++ (uuid1 <$> seq (clock w) (length qs)), start,
          match last qs with
          | Some q => Some (length q)
          | None => stop
          end),
     World (put_chunks (clock w) qs (store w)) (clock w + length qs)).
Proof.
  revert lc ln names start stop w.
  induction qs as [|q qs IH]; intros lc ln names start stop w.
  - simpl. unfold mret, M_ret. rewrite app_nil_r, Nat.add_0_r.
    by destruct w.
  - cbn [write_chunks].
    erewrite bind_ok; [|reflexivity]. cbv beta iota zeta.
    erewrite bind_ok; [|reflexivity].
    rewrite IH. cbn [clock store length].
    rewrite last_cons_cases. f_equal.
    + f_equal. f_equal; [|by destruct (last qs)].
      f_equal. cbn [seq fmap list_fmap]. by rewrite <- app_assoc.
    + f_equal. lia.
Qed.

Lemma _get_last_chunk_nil w : _get_last_chunk key [] w = (inr ("", []), w).
Proof. done. Qed.

Lemma _get_last_chunk_some index_map e ln t w :
  last index_map = Some e → last (chunk_names e) = Some ln →
  store w !! get_chunk_key key ln = Some t →
  _get_last_chunk key index_map w = (inr (ln, t), w).
Proof.
  intros Hl Hn Ht. unfold _get_last_chunk. rewrite Hl, Hn.
  erewrite bind_ok; [|reflexivity].
  erewrite bind_ok; [done|]. unfold storage_getitem. by rewrite Ht.
Qed.

(** A sample without bytes makes [_write_bytes] fail: the loop body never
    runs and [end_byte] is unbound when the entry is built. *)
Lemma _write_bytes_empty index_map w :
  ∃ e w', _write_bytes uuid1 [] key chunk_size index_map w = (inl e, w').
Proof.
  unfold _write_bytes.
  destruct (_get_last_chunk key index_map w) as [[e|[ln lc]] w1] eqn:E.
  - erewrite bind_err; [|done]. eauto.
  - erewrite bind_ok; [|done]. cbv beta iota zeta.
    destruct (decide _); rewrite generate_chunks_empty; simpl;
      (erewrite bind_ok; [|reflexivity]); eauto.
Qed.

Lemma _write_bytes_fresh index_map w b ln lc :
  _get_last_chunk key index_map w = (inr (ln, lc), w) →
  ¬ (0 < length index_map ∧ length lc < chunk_size) → b ≠ [] →
  let qs := split_chunks (length b) chunk_size b in
  ∃ q, last qs = Some q
       ∧ _write_bytes uuid1 b key chunk_size index_map w
         = (inr (Entry (uuid1 <$> seq (clock w) (length qs)) 0 (length q)
                   None),
            World (put_chunks (clock w) qs (store w))
              (clock w + length qs)).
Proof.
  intros Hg Hn Hb qs.
  destruct (last qs) as [q|] eqn:Hq.
  2:{ apply last_None in Hq.
      by destruct (split_chunks_nonempty chunk_size Hcs b Hb). }
  exists q. split; [done|].
  unfold _write_bytes. erewrite bind_ok; [|done]. cbv beta iota zeta.
  destruct (decide _) as [?|_]; [done|].
  rewrite generate_chunks_plain by done. fold qs.
  erewrite bind_ok; [|apply write_chunks_fresh].
  rewrite Hq. done.
Qed.

(** The loop of [_write_bytes] when the first slice extends the last
    chunk [t]: the slice has at most the free bytes of [t], and further
    slices exist only if it fills [t]. *)
Lemma write_chunks_extend index_map w (b : bytes) e ln t :
  last index_map = Some e → length t < chunk_size →
  let first := take (chunk_size - length t) b in
  let qs := split_chunks (length b) chunk_size
              (drop (chunk_size - length t) b) in
  write_chunks uuid1 key chunk_size index_map (first :: qs) true t ln
    [] 0 None w
  = (inr (ln :: (uuid1 <$> seq (clock w) (length qs)), end_byte e,
          Some (match last qs with
                | Some q => length q
                | None => length (t ++ first)
                end)),
     World (put_chunks (clock w) qs
              (<[get_chunk_key key ln := t ++ first]> (store w)))
       (clock w + length qs)).
Proof.
  intros Hl Ht first qs.
  cbn [write_chunks]. rewrite Hl.
  erewrite bind_ok; [|mrun]. cbv beta iota zeta.
  erewrite bind_ok; [|mrun].
  destruct (decide (chunk_size ≤ length (t ++ first))) as [Hfull|Hpart].
  - rewrite write_chunks_fresh.
    cbn [clock store]. by destruct (last qs).
  - assert (qs = []) as Hqs.
    { subst qs. rewrite drop_ge; [apply split_chunks_nil|].
      rewrite length_app in Hpart. subst first.
      rewrite length_take in Hpart. lia. }
    rewrite Hqs. simpl. rewrite Nat.add_0_r. done.
Qed.

Lemma _write_bytes_extend index_map w b e ln t :
  last index_map = Some e →
  _get_last_chunk key index_map w = (inr (ln, t), w) →
  length t < chunk_size → b ≠ [] →
  let first := take (chunk_size - length t) b in
  let qs := split_chunks (length b) chunk_size
              (drop (chunk_size - length t) b) in
  _write_bytes uuid1 b key chunk_size index_map w
  = (inr (Entry (ln :: (uuid1 <$> seq (clock w) (length qs)))
            (end_byte e)
            (match last qs with
             | Some q => length q
             | None => length (t ++ first)
             end) None),
     World (put_chunks (clock w) qs
              (<[get_chunk_key key ln := t ++ first]> (store w)))
       (clock w + length qs)).
Proof.
  intros Hl Hg Ht Hb first qs.
  unfold _write_bytes. erewrite bind_ok; [|done]. cbv beta iota zeta.
  destruct (decide _) as [_|Hn].
  2:{ destruct Hn. split; [|done]. destruct index_map; [done|simpl; lia]. }
  rewrite generate_chunks_extend by (done || lia).
  erewrite bind_ok; [|by apply write_chunks_extend]. done.
Qed.

(** *** The layout invariant *)

Local Abbreviation entry_ok := (entry_ok uuid1 key chunk_size).
Local Abbreviation layout := (layout uuid1 key chunk_size).

Lemma last_seq n m : 0 < m → last (seq n m) = Some (n + m - 1).
Proof.
  intros Hm. rewrite last_lookup, length_seq.
  rewrite lookup_seq_lt by lia. f_equal. lia.
Qed.

Lemma entry_ok_mono n0 w w' e p :
  entry_ok n0 w e p → clock w ≤ clock w' →
  (∀ j x, n0 ≤ j < clock w → store w !! ck j = Some x →
          ∃ x', store w' !! ck j = Some x' ∧ grows chunk_size x x') →
  entry_ok n0 w' e p.
Proof.
  intros (js & xs & Hn & Hjs & Hl & Hc) Hclock Hext.
  assert (∃ xs', Forall2 (λ j x, store w' !! ck j = Some x) js xs'
                 ∧ Forall2 (grows chunk_size) xs xs') as (xs' & Hl' & Hg).
  { clear Hn Hc. induction Hl as [|j x js xs Hj Hl IH].
    - exists []. by split.
    - apply Forall_cons in Hjs as [Hj1 Hjs].
      destruct (IH Hjs) as (xs' & ? & ?).
      destruct (Hext j x Hj1 Hj) as (x' & ? & ?).
      exists (x' :: xs'). split; by constructor. }
  exists js, xs'. split_and!; [done | | done | by eapply covers_grows].
  eapply Forall_impl; [done|]. simpl. lia.
Qed.

Lemma entry_ok_names n0 w e p j :
  entry_ok n0 w e p → uuid1 j ∈ chunk_names e → j < clock w.
Proof.
  intros (js & xs & Hn & Hjs & _) Hin. rewrite Hn in Hin.
  apply list_elem_of_fmap in Hin as (j' & Hj' & Hin).
  apply (uuid1_inj _ Huuid) in Hj' as ->.
  rewrite Forall_forall in Hjs. apply Hjs in Hin. lia.
Qed.

(** Appending an entry to a laid out index map. *)
Lemma layout_snoc st0 n0 w w' index_map ps e' b :
  layout st0 n0 w index_map ps →
  clock w ≤ clock w' →
  (∀ k, (∀ j, n0 ≤ j < clock w' → k ≠ ck j) →
        store w' !! k = store w !! k) →
  (∀ j, n0 ≤ j < clock w' →
        ∃ x, store w' !! ck j = Some x ∧ 1 ≤ length x ≤ chunk_size
             ∧ (S j < clock w' → length x = chunk_size)) →
  (∀ j x, n0 ≤ j < clock w → store w !! ck j = Some x →
          ∃ x', store w' !! ck j = Some x' ∧ grows chunk_size x x') →
  entry_ok n0 w' e' b →
  (∃ j x, S j = clock w' ∧ n0 ≤ j
          ∧ last (chunk_names e') = Some (uuid1 j)
          ∧ store w' !! ck j = Some x ∧ end_byte e' = length x) →
  (∀ e, last index_map = Some e →
        (∃ c, head (chunk_names e') = Some c
              ∧ last (chunk_names e) = Some c
              ∧ start_byte e' = end_byte e)
        ∨ (start_byte e' = 0
           ∧ ∃ j, head (chunk_names e') = Some (uuid1 j) ∧ clock w ≤ j)) →
  layout st0 n0 w' (index_map ++ [e']) (ps ++ [b]).
Proof.
  intros [Hclock Hframe Hchunks Htail Hentries Hadj]
    Hle Hframe' Hchunks' Hext Hnew Htail' Hlink.
  split.
  - lia.
  - intros k Hk. rewrite Hframe' by done. apply Hframe.
    intros j Hj. apply Hk. lia.
  - done.
  - by rewrite last_snoc.
  - apply Forall2_app; [|by constructor].
    eapply Forall2_impl; [done|]. intros e p He.
    by eapply entry_ok_mono.
  - intros i e1 e2 H1 H2.
    destruct (decide (S i < length index_map)) as [Hi|Hi].
    + rewrite lookup_app_l in H1, H2 by lia.
      destruct (Hadj i e1 e2 H1 H2) as [?|(Hs & c & Hc & Hfresh)];
        [by left|].
      right. split; [done|]. exists c. split; [done|].
      intros i' e0 Hi' He0. rewrite lookup_app_l in He0 by lia. eauto.
    + assert (S i = length index_map) as Hi'.
      { apply lookup_lt_Some in H2. rewrite length_app in H2.
        simpl in H2. lia. }
      rewrite lookup_app_l in H1 by lia.
      rewrite lookup_app_r, Hi', Nat.sub_diag in H2 by lia.
      injection H2 as <-.
      assert (last index_map = Some e1) as Hl.
      { rewrite last_lookup, <- Hi'. done. }
      destruct (Hlink e1 Hl) as [?|(Hs & j & Hj & Hfresh)]; [by left|].
      right. split; [done|]. exists (uuid1 j). split; [done|].
      intros i' e0 Hi0 He0 Hin. rewrite lookup_app_l in He0 by lia.
      eapply Forall2_lookup_l in Hentries as (p & _ & Hok); [|done].
      eapply entry_ok_names in Hok; [|done]. lia.
Qed.

Lemma chunked_snoc_inv qs :
  chunked chunk_size qs → qs ≠ [] →
  ∃ mid q, qs = mid ++ [q] ∧ Forall (λ x, length x = chunk_size) mid
           ∧ 1 ≤ length q ≤ chunk_size.
Proof.
  induction 1 as [|c Hc|c rest Hc Hne Hch IH]; intros Hqs; [done| |].
  - exists [], c. split; [done|]. split; [constructor | lia].
  - destruct (IH Hne) as (mid & q & -> & Hmid & Hq).
    exists (c :: mid), q. split; [done|].
    split; [by constructor | lia].
Qed.

Lemma chunked_covers qs q :
  chunked chunk_size qs → last qs = Some q →
  covers chunk_size qs 0 (length q) (concat qs).
Proof.
  intros Hch Hl.
  destruct (chunked_snoc_inv qs Hch) as (mid & q' & -> & Hmid & Hq).
  { intros ->. done. }
  rewrite last_snoc in Hl. injection Hl as ->.
  destruct mid as [|x0 mid].
  - simpl. rewrite app_nil_r.
    eapply covers_eq; [apply (covers_single _ q 0 (length q)); lia|].
    unfold bytes_slice. rewrite Nat.sub_0_r, drop_0. apply firstn_all.
  - apply Forall_cons in Hmid as [H0 Hmid].
    eapply covers_eq;
      [apply (covers_multi _ x0 mid q 0 (length q));
         [done | lia | done | lia | lia]|].
    rewrite drop_0, firstn_all. simpl. rewrite concat_app. simpl.
    by rewrite app_nil_r.
Qed.

Lemma Forall2_seq_lookup {A} (P : nat → A → Prop) n (l : list A) :
  (∀ i x, l !! i = Some x → P (n + i) x) →
  Forall2 P (seq n (length l)) l.
Proof.
  revert n. induction l as [|x l IH]; intros n HP; simpl; [constructor|].
  constructor.
  - specialize (HP 0 x). rewrite Nat.add_0_r in HP. by apply HP.
  - apply IH. intros i y Hy. replace (S n + i) with (n + S i) by lia.
    by apply HP.
Qed.

Lemma layout_fresh st0 n0 w index_map ps b shp q :
  layout st0 n0 w index_map ps → b ≠ [] →
  (∀ j x, S j = clock w → n0 ≤ j → store w !! ck j = Some x →
          length x = chunk_size) →
  let qs := split_chunks (length b) chunk_size b in
  last qs = Some q →
  layout st0 n0
    (World (put_chunks (clock w) qs (store w)) (clock w + length qs))
    (index_map
       ++ [Entry (uuid1 <$> seq (clock w) (length qs)) 0 (length q) shp])
    (ps ++ [b]).
Proof.
  intros Hlay Hb Hfull qs Hq.
  destruct (split_chunks_spec chunk_size Hcs (length b) b ltac:(done))
    as [Hch Hcat]. fold qs in Hch, Hcat.
  assert (0 < length qs) as Hm.
  { destruct qs; [done | simpl; lia]. }
  pose proof (lay_clock _ _ _ _ _ _ _ _ Hlay) as Hclock.
  apply (layout_snoc st0 n0 w); cbn [clock store chunk_names start_byte
                                       end_byte]; try done.
  - lia.
  - intros k Hk. apply put_chunks_lookup_other.
    intros i Hi. apply Hk. lia.
  - intros j Hj. destruct (decide (j < clock w)) as [Hlt|Hge].
    + rewrite put_chunks_lookup_old by done.
      destruct (lay_chunks _ _ _ _ _ _ _ _ Hlay j ltac:(lia))
        as (x & Hx & Hlen & Hfullx).
      exists x. split_and!; [done | lia | lia |].
      intros _. destruct (decide (S j < clock w)); [by apply Hfullx|].
      apply (Hfull j); [lia | lia | done].
    + replace j with (clock w + (j - clock w)) by lia.
      rewrite put_chunks_lookup by lia.
      destruct (lookup_lt_is_Some_2 qs (j - clock w) ltac:(lia)) as [c Hc].
      exists c.
      destruct (chunked_lookup chunk_size Hcs qs _ c Hch Hc) as [? Hf].
      split_and!; [done | lia | lia |]. intros ?. apply Hf. lia.
  - intros j x Hj Hx. rewrite put_chunks_lookup_old by lia.
    exists x. split; [done|]. exists []. rewrite app_nil_r.
    split_and!; [done | done |].
    destruct (lay_chunks _ _ _ _ _ _ _ _ Hlay j Hj) as (x' & Hx' & ? & _).
    simplify_eq. lia.
  - exists (seq (clock w) (length qs)), qs. cbn [chunk_names start_byte
                                                 end_byte clock store].
    split_and!.
    + done.
    + apply Forall_forall. intros j Hj. apply elem_of_seq in Hj. lia.
    + apply Forall2_seq_lookup. intros i x Hx.
      rewrite put_chunks_lookup; [done|]. by eapply lookup_lt_Some.
    + rewrite <- Hcat. by apply chunked_covers.
  - exists (clock w + length qs - 1), q.
    split_and!; [lia | lia | | | done].
    + by rewrite fmap_last, last_seq.
    + replace (clock w + length qs - 1)
        with (clock w + (length qs - 1)) by lia.
      rewrite put_chunks_lookup by lia.
      rewrite last_lookup in Hq.
      by replace (length qs - 1) with (pred (length qs)) by lia.
  - intros e He. right. split; [done|]. exists (clock w).
    split; [|done]. destruct (length qs); [lia | done].
Qed.

Lemma layout_extend st0 n0 w index_map ps b shp e j t :
  layout st0 n0 w index_map ps → b ≠ [] →
  last index_map = Some e → S j = clock w → n0 ≤ j →
  last (chunk_names e) = Some (uuid1 j) →
  store w !! ck j = Some t → end_byte e = length t →
  length t < chunk_size →
  let first := take (chunk_size - length t) b in
  let qs := split_chunks (length b) chunk_size
              (drop (chunk_size - length t) b) in
  layout st0 n0
    (World (put_chunks (clock w) qs (<[ck j := t ++ first]> (store w)))
       (clock w + length qs))
    (index_map
       ++ [Entry (uuid1 j :: (uuid1 <$> seq (clock w) (length qs)))
             (end_byte e)
             (match last qs with
              | Some q => length q
              | None => length (t ++ first)
              end) shp])
    (ps ++ [b]).
Proof.
  intros Hlay Hb Hlast Hj Hn0 Hname Ht Hend Hpart first qs.
  set (rest := drop (chunk_size - length t) b).
  destruct (split_chunks_spec chunk_size Hcs (length b) rest) as [Hch Hcat].
  { subst rest. rewrite length_drop. lia. }
  change (chunked chunk_size qs) in Hch.
  change (concat qs = rest) in Hcat.
  assert (first ++ rest = b) as Hsplit by apply take_drop.
  assert (1 ≤ length first ≤ chunk_size - length t) as Hfirst.
  { subst first. rewrite length_take.
    destruct b; [done | simpl; lia]. }
  assert (qs ≠ [] → length (t ++ first) = chunk_size) as Hfills.
  { intros Hqs. rewrite length_app.
    assert (rest ≠ []) as Hrest.
    { intros E. apply Hqs. unfold qs. fold rest. rewrite E.
      apply split_chunks_nil. }
    assert (length rest ≠ 0) as Hlr by (by destruct rest).
    subst rest first. rewrite length_drop in Hlr. rewrite length_take.
    lia. }
  assert (length (t ++ first) ≤ chunk_size) as Hle
      by (rewrite length_app; lia).
  pose proof (lay_clock _ _ _ _ _ _ _ _ Hlay) as Hclock.
  apply (layout_snoc st0 n0 w); cbn [clock store chunk_names start_byte
                                       end_byte]; try done.
  - lia.
  - intros k Hk. rewrite put_chunks_lookup_other.
    + apply lookup_insert_ne. intros E. apply (Hk j); [lia | done].
    + intros i Hi. apply Hk. lia.
  - intros j' Hj'. destruct (decide (j' < clock w)) as [Hlt|Hge].
    + rewrite put_chunks_lookup_old by done.
      destruct (decide (j' = j)) as [->|Hne].
      * rewrite lookup_insert_eq. exists (t ++ first).
        split_and!; [done | rewrite length_app; lia | done |].
        intros Hmore. apply Hfills. intros E. rewrite E in Hmore.
        simpl in Hmore. lia.
      * rewrite lookup_insert_ne
          by (intros E; by apply chunk_key_of_inj in E).
        destruct (lay_chunks _ _ _ _ _ _ _ _ Hlay j' ltac:(lia))
          as (x & Hx & Hlen & Hfullx).
        exists x. split_and!; [done | lia | lia |].
        intros _. apply Hfullx. lia.
    + replace j' with (clock w + (j' - clock w)) by lia.
      rewrite put_chunks_lookup by lia.
      destruct (lookup_lt_is_Some_2 qs (j' - clock w) ltac:(lia)) as [c Hc].
      exists c.
      destruct (chunked_lookup chunk_size Hcs qs _ c Hch Hc) as [? Hf].
      split_and!; [done | lia | lia |]. intros ?. apply Hf. lia.
  - intros j' x Hj' Hx. rewrite put_chunks_lookup_old by lia.
    destruct (decide (j' = j)) as [->|Hne].
    + rewrite lookup_insert_eq. simplify_eq.
      exists (t ++ first). split; [done|]. exists first.
      split_and!; [done | lia | done].
    + rewrite lookup_insert_ne
        by (intros E; by apply chunk_key_of_inj in E).
      exists x. split; [done|]. exists []. rewrite app_nil_r.
      split_and!; [done | done |].
      destruct (lay_chunks _ _ _ _ _ _ _ _ Hlay j' Hj')
        as (x' & Hx' & ? & _).
      simplify_eq. lia.
  - exists (j :: seq (clock w) (length qs)), ((t ++ first) :: qs).
    cbn [chunk_names start_byte end_byte clock store].
    split_and!.
    + done.
    + constructor; [lia|].
      apply Forall_forall. intros i Hi. apply elem_of_seq in Hi. lia.
    + constructor.
      * rewrite put_chunks_lookup_old by lia. apply lookup_insert_eq.
      * apply Forall2_seq_lookup. intros i x Hx.
        rewrite put_chunks_lookup; [done|]. by eapply lookup_lt_Some.
    + rewrite Hend. destruct (last qs) as [q|] eqn:Hq.
      * destruct (chunked_snoc_inv qs Hch) as (mid & q' & Hqs & Hmid & Hq').
        { intros E. by rewrite E in Hq. }
        rewrite Hqs, last_snoc in Hq. injection Hq as ->.
        rewrite Hqs.
        eapply covers_eq;
          [apply (covers_multi _ (t ++ first) mid q (length t) (length q));
             [|lia|done|lia|lia]|].
        -- apply Hfills. rewrite Hqs. by destruct mid.
        -- rewrite drop_app_length, firstn_all.
           rewrite <- Hsplit, <- Hcat, Hqs, concat_app. simpl.
           by rewrite app_nil_r.
      * apply last_None in Hq. rewrite Hq in Hcat. simpl in Hcat.
        rewrite Hq.
        eapply covers_eq;
          [apply (covers_single _ (t ++ first) (length t)
                    (length (t ++ first))); [rewrite length_app; lia|lia..]|].
        unfold bytes_slice. rewrite drop_app_length.
        rewrite length_app, Nat.add_comm, Nat.add_sub, firstn_all.
        rewrite <- Hsplit, <- Hcat. by rewrite app_nil_r.
  - destruct (last qs) as [q|] eqn:Hq.
    + assert (0 < length qs) as Hm.
      { destruct qs; [done | simpl; lia]. }
      exists (clock w + length qs - 1), q.
      split_and!; [lia | lia | | | done].
      * rewrite last_cons_cases, fmap_last, last_seq by done. done.
      * replace (clock w + length qs - 1)
          with (clock w + (length qs - 1)) by lia.
        rewrite put_chunks_lookup by lia.
        rewrite last_lookup in Hq.
        by replace (length qs - 1) with (pred (length qs)) by lia.
    + apply last_None in Hq. rewrite Hq. simpl.
      exists j, (t ++ first).
      split_and!; [lia | done | done | apply lookup_insert_eq | done].
  - intros e0 He0. left. simplify_eq. exists (uuid1 j). done.
Qed.

(** One sample: with a non-empty payload [_write_sample] succeeds,
    appends one entry and keeps the layout. *)
Lemma _write_sample_layout st0 n0 w index_map ps sample to_bytes :
  layout st0 n0 w index_map ps → to_bytes sample ≠ [] →
  ∃ e' w',
    _write_sample uuid1 sample key chunk_size index_map to_bytes w
    = (inr (index_map ++ [e']), w')
    ∧ entry_shape e' = Some (shape sample)
    ∧ layout st0 n0 w' (index_map ++ [e']) (ps ++ [to_bytes sample]).
Proof.
  intros Hlay Hb. unfold _write_sample.
  pose proof (lay_tail _ _ _ _ _ _ _ _ Hlay) as Htail.
  destruct (last index_map) as [e|] eqn:Hlast.
  - destruct Htail as (j & t & Hj & Hn0 & Hname & Ht & Hend).
    pose proof (_get_last_chunk_some index_map e (uuid1 j) t w Hlast
                  Hname Ht) as Hget.
    destruct (decide (length t < chunk_size)) as [Hpart|Hfull].
    + eexists _, _. erewrite bind_ok;
        [|by eapply _write_bytes_extend].
      split; [reflexivity|]. split; [done|].
      cbn [chunk_names start_byte end_byte].
      by eapply layout_extend.
    + destruct (_write_bytes_fresh index_map w (to_bytes sample)
                  (uuid1 j) t Hget ltac:(tauto) Hb) as (q & Hq & Hw).
      eexists _, _. erewrite bind_ok; [|exact Hw].
      split; [reflexivity|]. split; [done|].
      cbn [chunk_names start_byte end_byte].
      apply layout_fresh; [done | done | | done].
      intros j' x Hj' _ Hx.
      assert (j' = j) as -> by lia. simplify_eq.
      destruct (lay_chunks _ _ _ _ _ _ _ _ Hlay j ltac:(lia))
        as (x & Hx & Hlen & _).
      simplify_eq. lia.
  - apply last_None in Hlast. subst index_map.
    destruct (_write_bytes_fresh [] w (to_bytes sample) "" []
                (_get_last_chunk_nil w) ltac:(simpl; lia) Hb)
      as (q & Hq & Hw).
    eexists _, _. erewrite bind_ok; [|exact Hw].
    split; [reflexivity|]. split; [done|].
    cbn [chunk_names start_byte end_byte].
    apply layout_fresh; [done | done | | done].
    intros j' x Hj' Hn0 Hx. simpl in Htail. lia.
Qed.

End Writer.

(** ** [write_array] *)

Section WriteArray.
Context (uuid1 : nat → string) (Huuid : uuid_supply uuid1).
Context (pickle_dumps : pyobj → bytes).
Context (key : string) (chunk_size : nat) (Hcs : 1 ≤ chunk_size).

Local Abbreviation ck := (chunk_key_of uuid1 key).
Local Abbreviation layout := (layout uuid1 key chunk_size).
Local Abbreviation write_body := (write_body uuid1 key chunk_size).

Lemma layout_init w : layout (store w) (clock w) w [] [].
Proof.
  split; simpl; try done. intros j Hj. lia.
Qed.

Lemma lift_inv_ok {A} (r : exn + A) w a w' :
  lift r w = (inr a, w') → r = inr a ∧ w' = w.
Proof. destruct r; [done|]. by intros [= -> ->]. Qed.

Lemma _write_sample_empty sample to_bytes index_map w :
  to_bytes sample = [] →
  ∃ e w', _write_sample uuid1 sample key chunk_size index_map to_bytes w
          = (inl e, w').
Proof.
  intros Hb. unfold _write_sample. rewrite Hb.
  destruct (_write_bytes_empty uuid1 key chunk_size index_map w)
    as (e & w' & He).
  exists e, w'. by erewrite bind_err.
Qed.

(** A run of the sample loop that returns has written non-empty samples
    only, has appended one entry for each of them and keeps the layout. *)
Lemma write_loop_layout st0 n0 array to_bytes indices w index_map ps
    index_map' w' :
  layout st0 n0 w index_map ps →
  for_each indices (write_body array to_bytes) index_map w
  = (inr index_map', w') →
  ∃ samples new,
    Forall2 (λ i s, ndarray_getitem array i = inr s) indices samples
    ∧ index_map' = index_map ++ new
    ∧ Forall2 (λ e s, entry_shape e = Some (shape s)) new samples
    ∧ layout st0 n0 w' index_map' (ps ++ (to_bytes <$> samples)).
Proof.
  revert w index_map ps.
  induction indices as [|i indices IH]; intros w index_map ps Hlay Hrun.
  - injection Hrun as <- <-. exists [], [].
    rewrite !app_nil_r. split_and!; [constructor | done | constructor | done].
  - cbn [for_each] in Hrun.
    apply bind_inv_ok in Hrun as (im1 & w1 & Hbody & Hrun).
    unfold write_body in Hbody.
    apply bind_inv_ok in Hbody as (sample & w0 & Hget & Hws).
    apply lift_inv_ok in Hget as [Hget ->].
    destruct (decide (to_bytes sample = [])) as [Hb|Hb].
    { destruct (_write_sample_empty sample to_bytes index_map w Hb)
        as (e & w2 & He). congruence. }
    destruct (_write_sample_layout uuid1 Huuid key chunk_size Hcs st0 n0 w
                index_map ps sample to_bytes Hlay Hb)
      as (e' & w2 & Hw & Hshape & Hlay').
    rewrite Hw in Hws. injection Hws as <- <-.
    destruct (IH _ _ _ Hlay' Hrun) as (samples & new & Hs & -> & Hn & Hl).
    exists (sample :: samples), (e' :: new).
    split_and!.
    + by constructor.
    + by rewrite <- app_assoc.
    + by constructor.
    + rewrite fmap_cons. rewrite <- (app_assoc ps) in Hl. exact Hl.
Qed.

(** With non-empty samples the loop does return. *)
Lemma write_loop_returns st0 n0 array to_bytes indices samples w
    index_map ps :
  layout st0 n0 w index_map ps →
  Forall2 (λ i s, ndarray_getitem array i = inr s) indices samples →
  Forall (λ s, to_bytes s ≠ []) samples →
  ∃ index_map' w',
    for_each indices (write_body array to_bytes) index_map w
    = (inr index_map', w').
Proof.
  intros Hlay Hs. revert w index_map ps Hlay.
  induction Hs as [|i s indices samples Hi Hs IH];
    intros w index_map ps Hlay Hne.
  - by eexists _, _.
  - apply Forall_cons in Hne as [Hb Hne].
    destruct (_write_sample_layout uuid1 Huuid key chunk_size Hcs st0 n0 w
                index_map ps s to_bytes Hlay Hb)
      as (e' & w2 & Hw & Hshape & Hlay').
    destruct (IH _ _ _ Hlay' Hne) as (im' & w' & Hrun).
    exists im', w'. cbn [for_each].
    erewrite bind_ok; [exact Hrun|].
    unfold write_body. rewrite Hi. by erewrite bind_ok; [|mrun].
Qed.

(** What a call of [write_array] that returns has done. *)
Lemma write_array_inv array batched to_bytes w w' :
  write_array uuid1 pickle_dumps array key chunk_size batched to_bytes w
  = (inr tt, w') →
  ∃ a' batch rest index_map w1,
    normalize_and_batchify_shape array batched = inr a'
    ∧ store w !! get_meta_key key = None
    ∧ store w !! get_index_map_key key = None
    ∧ shape a' = batch :: rest
    ∧ for_each (seq 0 batch) (write_body a' to_bytes) [] w
      = (inr index_map, w1)
    ∧ w' = World
             (<[get_index_map_key key := pickle_dumps (PIndexMap index_map)]>
                (<[get_meta_key key :=
                     pickle_dumps
                       (PMeta (Meta chunk_size (dtype_name (dtype a'))
                                 batch rest rest))]>
                   (store w1)))
             (clock w1).
Proof.
  unfold write_array. intros Hrun.
  apply bind_inv_ok in Hrun as (a' & w0 & Hnorm & Hrun).
  apply lift_inv_ok in Hnorm as [Hnorm ->].
  erewrite bind_ok in Hrun; [|reflexivity].
  erewrite bind_ok in Hrun; [|reflexivity].
  destruct (bool_decide (is_Some (store w !! get_meta_key key))) eqn:Em;
    [done|].
  destruct (bool_decide (is_Some (store w !! get_index_map_key key)))
    eqn:Ei; [done|].
  apply bool_decide_eq_false in Em, Ei.
  rewrite <- eq_None_not_Some in Em, Ei. simpl in Hrun.
  apply bind_inv_ok in Hrun as (batch & w0 & Hbatch & Hrun).
  apply lift_inv_ok in Hbatch as [Hbatch ->].
  destruct (shape a') as [|n rest] eqn:Hshape; [done|].
  injection Hbatch as <-.
  apply bind_inv_ok in Hrun as (im & w1 & Hloop & Hrun).
  exists a', n, rest, im, w1.
  split_and!; [done..|].
  unfold write_tensor_meta in Hrun.
  erewrite bind_ok in Hrun; [|reflexivity].
  unfold storage_setitem in Hrun. simpl in Hrun.
  by injection Hrun as <-.
Qed.

End WriteArray.

(** ** What a successful write leaves in storage *)

Section Keys2.
Lemma under_chunks_not_meta key k :
  under_chunks key k → k ≠ get_meta_key key.
Proof.
  intros [name ->]. rewrite get_meta_key_eq.
  unfold chunk_prefix. rewrite !append_assoc.
  intros E%String.app_inj. discriminate E.
Qed.

Lemma under_chunks_not_index_map key k :
  under_chunks key k → k ≠ get_index_map_key key.
Proof.
  intros [name ->]. rewrite get_index_map_key_eq.
  unfold chunk_prefix. rewrite !append_assoc.
  intros E%String.app_inj. discriminate E.
Qed.
End Keys2.

Section NumpyFacts.
Lemma itemsize_pos d : 0 < itemsize d.
Proof. destruct d as [[] ?]; unfold itemsize; simpl; lia. Qed.

Lemma dtype_of_name_name d :
  dtype_of_name (dtype_name d) = Some (native_dtype (scalar_type d)).
Proof. by destruct d as [[] ?]. Qed.

Lemma native_view_native (a : ndarray) :
  byteorder (dtype a) = native_order → native_view a = a.
Proof. destruct a as [[t o] shp buf]. simpl. by intros ->. Qed.


(** [array[i]] of a well-formed array is a well-formed array of the
    trailing shape. *)
Lemma ndarray_getitem_wf a n rest i s :
  ndarray_wf a → shape a = n :: rest → ndarray_getitem a i = inr s →
  i < n ∧ dtype s = dtype a ∧ shape s = rest
  ∧ data s = bytes_slice (data a)
               (i * (itemsize (dtype a) * prod_shape rest))
               (i * (itemsize (dtype a) * prod_shape rest)
                + itemsize (dtype a) * prod_shape rest)
  ∧ length (data s) = itemsize (dtype a) * prod_shape rest.
Proof.
  unfold ndarray_wf, ndarray_getitem. intros Hwf Hshape.
  rewrite Hshape in *. simpl in Hwf.
  case_decide as Hi; [|done]. intros [= <-]. simpl.
  split_and!; [done..|].
  unfold bytes_slice. rewrite length_take, length_drop, Hwf.
  set (S := itemsize (dtype a) * prod_shape rest).
  replace (itemsize (dtype a) * (n * prod_shape rest)) with (n * S)
    by (subst S; lia).
  nia.
Qed.
End NumpyFacts.

Section WriteClaims.
Context (uuid1 : nat → string) (pickle_dumps : pyobj → bytes).

Local Abbreviation ck := (chunk_key_of uuid1).

Lemma layout_chunk_cases key chunk_size st0 n0 w index_map ps k x :
  layout uuid1 key chunk_size st0 n0 w index_map ps →
  store w !! k = Some x → st0 !! k = None →
  ∃ j, n0 ≤ j < clock w ∧ k = ck key j.
Proof.
  intros Hlay Hx H0.
  destruct (decide (Exists (λ j, k = ck key j) (seq n0 (clock w - n0))))
    as [Hex|Hno].
  - apply Exists_exists in Hex as (j & Hj & ->).
    apply elem_of_seq in Hj. exists j. split; [lia | done].
  - rewrite (lay_frame _ _ _ _ _ _ _ _ Hlay) in Hx; [congruence|].
    intros j Hj ->. apply Hno, Exists_exists. exists j.
    split; [|done]. apply elem_of_seq. lia.
Qed.

(** What [write_array] has done when it returns: the loop kept the
    layout, started from the store and the clock of the call, and the
    meta and the index map were stored last. *)
Lemma write_array_layout key chunk_size array batched to_bytes w w' :
  uuid_supply uuid1 → 1 ≤ chunk_size →
  write_array uuid1 pickle_dumps array key chunk_size batched to_bytes w
  = (inr tt, w') →
  ∃ a' batch rest index_map samples w1,
    normalize_and_batchify_shape array batched = inr a'
    ∧ shape a' = batch :: rest
    ∧ Forall2 (λ i s, ndarray_getitem a' i = inr s) (seq 0 batch) samples
    ∧ Forall2 (λ e s, entry_shape e = Some (shape s)) index_map samples
    ∧ layout uuid1 key chunk_size (store w) (clock w) w1 index_map
        (to_bytes <$> samples)
    ∧ store w !! get_meta_key key = None
    ∧ store w !! get_index_map_key key = None
    ∧ w' = World
             (<[get_index_map_key key := pickle_dumps (PIndexMap index_map)]>
                (<[get_meta_key key :=
                     pickle_dumps
                       (PMeta (Meta chunk_size (dtype_name (dtype a'))
                                 batch rest rest))]>
                   (store w1)))
             (clock w1).
Proof.
  intros Huuid Hcs Hrun.
  apply write_array_inv in Hrun
    as (a' & batch & rest & im & w1 & Hnorm & Hm & Hi & Hshape & Hloop & ->).
  assert (layout uuid1 key chunk_size (store w) (clock w) w [] [])
    as Hinit by (apply layout_init; done).
  destruct (write_loop_layout uuid1 Huuid key chunk_size Hcs _ _ _ _ _ _ _
              _ _ _ Hinit Hloop)
    as (samples & new & Hs & -> & Hn & Hlay).
  exists a', batch, rest, new, samples, w1.
  simpl in Hlay. split_and!; done.
Qed.

(** A chunk key is still bound to its chunk after the meta and the
    index map have been stored. *)
Lemma lookup_after_meta key (st : gmap string bytes) vm vi k :
  under_chunks key k →
  <[get_index_map_key key := vi]> (<[get_meta_key key := vm]> st) !! k
  = st !! k.
Proof.
  intros Hk.
  rewrite lookup_insert_ne
    by (intros E; by eapply under_chunks_not_index_map).
  rewrite lookup_insert_ne by (intros E; by eapply under_chunks_not_meta).
  done.
Qed.

(** C2. After a call of [write_array] with [chunk_size >= 1] has
    returned, on a key under whose chunks folder nothing was stored,
    every blob under [<key>/chunks/] has at most [chunk_size] bytes and at
    most one of them has fewer. *)
Theorem chunk_size_bound (array : ndarray) (key : string)
    (chunk_size : nat) (batched : bool) (to_bytes : ndarray → bytes)
    (w w' : world) :
  uuid_supply uuid1 → 1 ≤ chunk_size →
  (∀ k, under_chunks key k → store w !! k = None) →
  write_array uuid1 pickle_dumps array key chunk_size batched to_bytes w
  = (inr tt, w') →
  (∀ k x, under_chunks key k → store w' !! k = Some x →
          length x ≤ chunk_size)
  ∧ (∀ k1 k2 x1 x2,
       under_chunks key k1 → under_chunks key k2 →
       store w' !! k1 = Some x1 → store w' !! k2 = Some x2 →
       length x1 < chunk_size → length x2 < chunk_size → k1 = k2).
Proof.
  intros Huuid Hcs Hfresh Hrun.
  apply write_array_layout in Hrun
    as (a' & batch & rest & im & samples & w1 & _ & _ & _ & _ & Hlay
        & _ & _ & ->); [|done..].
  assert (∀ k x, under_chunks key k →
            store (World (<[get_index_map_key key :=
                              pickle_dumps (PIndexMap im)]>
                     (<[get_meta_key key :=
                          pickle_dumps
                            (PMeta (Meta chunk_size
                                      (dtype_name (dtype a')) batch rest
                                      rest))]> (store w1))) (clock w1))
              !! k = Some x →
            ∃ j, k = ck key j ∧ length x ≤ chunk_size
                 ∧ (length x < chunk_size → S j = clock w1)) as Hall.
  { intros k x Hk Hx. simpl in Hx. rewrite lookup_after_meta in Hx by done.
    destruct (layout_chunk_cases _ _ _ _ _ _ _ k x Hlay Hx (Hfresh k Hk))
      as (j & Hj & ->).
    destruct (lay_chunks _ _ _ _ _ _ _ _ Hlay j Hj)
      as (x' & Hx' & Hlen & Hfull).
    exists j. simplify_eq. split_and!; [done | lia |].
    intros Hshort. destruct (decide (S j < clock w1)) as [Hlt|]; [|lia].
    apply Hfull in Hlt. lia. }
  split.
  - intros k x Hk Hx. by destruct (Hall k x Hk Hx) as (j & _ & ? & _).
  - intros k1 k2 x1 x2 Hk1 Hk2 Hx1 Hx2 Hs1 Hs2.
    destruct (Hall k1 x1 Hk1 Hx1) as (j1 & -> & _ & H1).
    destruct (Hall k2 x2 Hk2 Hx2) as (j2 & -> & _ & H2).
    f_equal. specialize (H1 Hs1). specialize (H2 Hs2). lia.
Qed.

(** C4. After a call of [write_array] with [chunk_size >= 1] has
    returned, the stored index map satisfies section 3, invariant 2:
    consecutive entries either share the boundary chunk, the second
    starting at the [end_byte] of the first, or the second starts at
    offset 0 of a chunk no earlier entry names. *)
Theorem index_map_adjacent (array : ndarray) (key : string)
    (chunk_size : nat) (batched : bool) (to_bytes : ndarray → bytes)
    (w w' : world) :
  uuid_supply uuid1 → 1 ≤ chunk_size →
  write_array uuid1 pickle_dumps array key chunk_size batched to_bytes w
  = (inr tt, w') →
  ∃ index_map,
    store w' !! get_index_map_key key
    = Some (pickle_dumps (PIndexMap index_map))
    ∧ adjacent index_map.
Proof.
  intros Huuid Hcs Hrun.
  apply write_array_layout in Hrun
    as (a' & batch & rest & im & samples & w1 & _ & _ & _ & _ & Hlay
        & _ & _ & ->); [|done..].
  exists im. split; [apply lookup_insert_eq|].
  apply (lay_adjacent _ _ _ _ _ _ _ _ Hlay).
Qed.

(** C3. After a call of [write_array] on a well-formed array with the
    default flattener and [chunk_size >= 1] has returned, the index map
    is stored and has one entry per sample of the (normalised) array, in
    the order of the samples.  The entry of sample [i] records the shape
    of the sample, the chunks it names are stored, the bytes it selects
    from them are the bytes of the sample, and the number of bytes it
    covers, counted from the stored chunks as section 3, invariant 1
    says, is [prod(shape_i)] times the item size of the element type.
    So every entry of the stored index map covers [prod(shape)] times the
    item size bytes, for the shape it records. *)
Theorem index_coverage (array : ndarray) (key : string)
    (chunk_size : nat) (batched : bool) (w w' : world) :
  uuid_supply uuid1 → 1 ≤ chunk_size → ndarray_wf array →
  write_array uuid1 pickle_dumps array key chunk_size batched
    row_wise_to_bytes w = (inr tt, w') →
  ∃ index_map,
    store w' !! get_index_map_key key
    = Some (pickle_dumps (PIndexMap index_map))
    ∧ (∀ i e, index_map !! i = Some e →
              ∃ shp, entry_shape e = Some shp
                     ∧ covered_bytes (store w') key e
                       = Some (Z.of_nat (prod_shape shp
                                         * itemsize (dtype array))))
    ∧ ∃ samples batch rest,
        normalize_and_batchify_shape array batched = inr samples
        ∧ shape samples = batch :: rest
        ∧ length index_map = batch
        ∧ ∀ i, i < batch →
               ∃ sample e chunks,
                 ndarray_getitem samples i = inr sample
                 ∧ index_map !! i = Some e
                 ∧ entry_shape e = Some (shape sample)
                 ∧ mapM (λ name, store w' !! get_chunk_key key name)
                     (chunk_names e) = Some chunks
                 ∧ join_chunks chunks (start_byte e) (end_byte e)
                   = row_wise_to_bytes sample
                 ∧ covered_bytes (store w') key e
                   = Some (Z.of_nat (prod_shape (shape sample)
                                     * itemsize (dtype array))).
Proof.
  intros Huuid Hcs Hwf Hrun.
  apply write_array_layout in Hrun
    as (a' & batch & rest & im & samples & w1 & Hnorm & Hshape & Hsamples
        & Hshapes & Hlay & _ & _ & ->); [|done..].
  assert (ndarray_wf a' ∧ dtype a' = dtype array) as [Hwf' Hdt].
  { unfold normalize_and_batchify_shape in Hnorm.
    destruct batched.
    - destruct (shape array); [done|]. by injection Hnorm as <-.
    - injection Hnorm as <-. split; [|done].
      unfold ndarray_wf in *. simpl. lia. }
  set (w' := World _ _).
  assert (∀ i e s, im !! i = Some e → samples !! i = Some s →
            entry_shape e = Some (shape s)
            ∧ ∃ chunks,
                mapM (λ name, store w' !! get_chunk_key key name)
                  (chunk_names e) = Some chunks
                ∧ join_chunks chunks (start_byte e) (end_byte e)
                  = row_wise_to_bytes s
                ∧ covered_bytes (store w') key e
                  = Some (Z.of_nat (prod_shape (shape s)
                                    * itemsize (dtype array)))) as Hentry.
  { intros i e s Hi Hs.
    pose proof (Forall2_lookup_lr _ _ _ _ _ _ Hshapes Hi Hs) as Hse.
    destruct (Forall2_lookup_r _ _ _ _ _ Hsamples Hs) as (i' & Hi' & Hget).
    destruct (ndarray_getitem_wf a' batch rest i' s Hwf' Hshape Hget)
      as (_ & _ & Hss & _ & Hlen).
    split; [done|].
    pose proof (lay_entries _ _ _ _ _ _ _ _ Hlay) as Hentries.
    destruct (Forall2_lookup_l _ _ _ _ _ Hentries Hi) as (p & Hp & Hok).
    rewrite list_lookup_fmap, Hs in Hp. injection Hp as <-.
    destruct Hok as (js & xs & Hnames & Hjs & Hxs & Hcov).
    assert (mapM (λ name, store w' !! get_chunk_key key name)
              (chunk_names e) = Some xs) as Hmap.
    { apply mapM_Some. rewrite Hnames. apply Forall2_fmap_l.
      eapply Forall2_impl; [exact Hxs|]. intros j x Hx. simpl.
      rewrite lookup_after_meta; [done|].
      by apply (chunk_key_of_under uuid1 Huuid). }
    exists xs. split_and!; [done | by apply covers_join in Hcov |].
    unfold covered_bytes. rewrite Hmap.
    simpl. apply covers_length in Hcov.
    unfold row_wise_to_bytes in Hcov. rewrite Hlen, <- Hdt, Hss in *.
    replace (prod_shape rest * itemsize (dtype a'))
      with (itemsize (dtype a') * prod_shape rest) by lia.
    destruct xs as [|x0 [|x1 xs]];
      [done | by rewrite Hcov | by rewrite Hcov]. }
  assert (length samples = batch) as Hlen.
  { apply Forall2_length in Hsamples. by rewrite length_seq in Hsamples. }
  exists im. split_and!; [apply lookup_insert_eq | |].
  - intros i e Hi.
    destruct (Forall2_lookup_l _ _ _ _ _ Hshapes Hi) as (s & Hs & _).
    destruct (Hentry i e s Hi Hs) as (Hse & _ & _ & _ & Hc).
    by exists (shape s).
  - exists a', batch, rest. split_and!; [done | done | |].
    { by rewrite (Forall2_length _ _ _ Hshapes). }
    intros i Hi.
    destruct (lookup_lt_is_Some_2 samples i) as [s Hs]; [lia|].
    destruct (Forall2_lookup_r _ _ _ _ _ Hshapes Hs) as (e & He & _).
    destruct (Hentry i e s He Hs) as (Hse & chunks & Hmap & Hjoin & Hc).
    exists s, e, chunks. split_and!; try done.
    destruct (Forall2_lookup_r _ _ _ _ _ Hsamples Hs) as (i' & Hi' & Hget).
    apply lookup_seq in Hi' as [-> _]. done.
Qed.

End WriteClaims.

(** ** The reader *)

Section Slices.
Context {A : Type}.

Lemma omap_lookup_seq (f : nat → option A) (pre l : list A) :
  (∀ k, f k = (pre ++ l) !! k) →
  omap f (seq (length pre) (length l)) = l.
Proof.
  revert pre. induction l as [|x l IH]; intros pre Hf; [done|].
  cbn [length seq omap list_omap].
  rewrite Hf, list_lookup_middle by done. f_equal.
  specialize (IH (pre ++ [x])). rewrite length_app in IH. simpl in IH.
  rewrite Nat.add_1_r in IH. apply IH.
  intros k. by rewrite Hf, <- app_assoc.
Qed.

(** [l[:]] is [l]. *)
Lemma list_getslice_None (l : list A) : list_getslice l slice_None = inr l.
Proof.
  unfold list_getslice, slice_indices, slice_None, range_length. simpl.
  f_equal.
  assert (Z.to_nat
            (if decide (0 < Z.of_nat (length l))%Z
             then ((Z.of_nat (length l) - 0 - 1) `div` 1 + 1)%Z
             else 0%Z) = length l) as ->.
  { case_decide; [|lia]. rewrite Z.div_1_r. lia. }
  apply (omap_lookup_seq _ []). intros k. simpl. f_equal. lia.
Qed.
End Slices.

Section Reader.
Context (pickle_loads : bytes → option pyobj).

Lemma read_chunks key names xs acc w :
  Forall2 (λ name x, store w !! get_chunk_key key name = Some x) names xs →
  for_each names
    (λ chunks chunk_name,
       chunk ← storage_getitem
                 (os_path_join (os_path_join key "chunks") chunk_name);
       mret (chunks ++ [chunk]))
    acc w
  = (inr (acc ++ xs), w).
Proof.
  intros H. revert acc. induction H as [|name x names xs Hx H IH];
    intros acc; simpl.
  - by rewrite app_nil_r.
  - erewrite bind_ok.
    2:{ erewrite bind_ok; [reflexivity|].
        unfold storage_getitem.
        change (os_path_join (os_path_join key "chunks") name)
          with (get_chunk_key key name). by rewrite Hx. }
    rewrite IH. by rewrite <- app_assoc.
Qed.

Lemma _get_sample_ok index key e m d s samples w :
  sample_stored key d w e s → meta_dtype m = dtype_name d →
  _get_sample index key e (PMeta m) samples w
  = (inr (list_insert_at index (native_view s) samples), w).
Proof.
  intros ((xs & Hxs & Hjoin) & Hshape & Hd & Hlen) Hm.
  unfold _get_sample.
  erewrite bind_ok; [|by apply read_chunks].
  simpl. rewrite Hjoin.
  erewrite bind_ok; [|reflexivity].
  assert (np_frombuffer (data s) (meta_dtype m)
          = inr (NDArray (native_dtype (scalar_type d))
                   [prod_shape (shape s)] (data s))) as Hfb.
  { unfold np_frombuffer. rewrite Hm, dtype_of_name_name, Hlen.
    pose proof (itemsize_pos d).
    change (itemsize (native_dtype (scalar_type d))) with (itemsize d).
    rewrite Nat.mul_comm, Nat.Div0.mod_mul, Nat.div_mul by lia.
    by case_decide. }
  erewrite bind_ok; [|by rewrite Hfb].
  rewrite Hshape. erewrite bind_ok; [|reflexivity].
  unfold ndarray_reshape. simpl.
  rewrite decide_True by lia. simpl.
  erewrite bind_ok; [|reflexivity].
  destruct s as [ds ss bs]. simpl in *. by subst.
Qed.

Lemma get_samples_loop key m d w entries arrays acc k :
  Forall2 (sample_stored key d w) entries arrays →
  meta_dtype m = dtype_name d → length acc = k →
  for_each (imap (λ i, pair (k + i)) entries)
    (λ samples '(index, index_entry),
       _get_sample index key index_entry (PMeta m) samples)
    acc w
  = (inr (acc ++ (native_view <$> arrays)), w).
Proof.
  intros H Hm. revert acc k.
  induction H as [|e s entries arrays Hs H IH]; intros acc k Hk.
  - simpl. by rewrite app_nil_r.
  - rewrite imap_cons. cbn [for_each].
    erewrite bind_ok; [|by apply (_get_sample_ok _ _ _ _ d s)].
    rewrite Nat.add_0_r.
    assert (list_insert_at k (native_view s) acc = acc ++ [native_view s])
      as ->.
    { unfold list_insert_at. rewrite <- Hk, firstn_all, drop_all. done. }
    rewrite (imap_ext _ (λ i, pair (S k + i))).
    + rewrite IH; [by rewrite fmap_cons, <- app_assoc|].
      rewrite length_app. simpl. lia.
    + intros i x _. simpl. f_equal. lia.
Qed.

Lemma single_threaded_get_samples_ok key m d w index_map arrays :
  Forall2 (sample_stored key d w) index_map arrays →
  meta_dtype m = dtype_name d →
  single_threaded_get_samples (PIndexMap index_map) slice_None key
    (PMeta m) [] w
  = (inr (native_view <$> arrays), w).
Proof.
  intros H Hm. unfold single_threaded_get_samples.
  erewrite bind_ok; [|reflexivity].
  erewrite bind_ok; [|by rewrite list_getslice_None].
  unfold enumerate.
  exact (get_samples_loop key m d w index_map arrays [] 0 H Hm eq_refl).
Qed.

Lemma np_array_stack d rest (samples : list ndarray) :
  samples ≠ [] →
  Forall (λ s, dtype s = d ∧ shape s = rest) samples →
  np_array samples
  = inr (NDArray d (length samples :: rest) (concat (data <$> samples))).
Proof.
  intros Hne Hall. unfold np_array.
  destruct samples as [|s samples]; [done|].
  pose proof Hall as Hall'.
  apply Forall_cons in Hall' as [[Hd Hs] _].
  rewrite (proj2 (forallb_forall _ _)).
  - by rewrite Hd, Hs.
  - intros x Hx. apply bool_decide_eq_true.
    rewrite Forall_forall in Hall.
    apply list_elem_of_In in Hx.
    destruct (Hall x Hx) as [-> ->]. done.
Qed.

(** The rows of an array, one after the other, are its buffer. *)
Lemma concat_rows (l : bytes) stride n :
  concat ((λ i, bytes_slice l (i * stride) (i * stride + stride))
            <$> seq 0 n)
  = take (n * stride) l.
Proof.
  induction n as [|n IH]; [done|].
  rewrite seq_S, fmap_app, concat_app, IH. simpl.
  rewrite app_nil_r. unfold bytes_slice.
  replace (n * stride + stride - n * stride) with stride by lia.
  rewrite take_take_drop. f_equal. lia.
Qed.

End Reader.

(** ** Writing and reading back *)

Section RoundTrip.
Context (uuid1 : nat → string).
Context (pickle_dumps : pyobj → bytes) (pickle_loads : bytes → option pyobj).

Lemma rows_exist a batch rest :
  shape a = batch :: rest →
  ∃ samples,
    Forall2 (λ i s, ndarray_getitem a i = inr s) (seq 0 batch) samples.
Proof.
  intros Hshape.
  exists ((λ i, NDArray (dtype a) rest
                  (bytes_slice (data a)
                     (i * (itemsize (dtype a) * prod_shape rest))
                     (i * (itemsize (dtype a) * prod_shape rest)
                      + itemsize (dtype a) * prod_shape rest)))
            <$> seq 0 batch).
  apply Forall2_fmap_r, Forall_Forall2_diag, Forall_forall.
  intros i Hi. apply elem_of_seq in Hi.
  unfold ndarray_getitem. rewrite Hshape.
  by rewrite decide_True by lia.
Qed.

Lemma Forall2_fmap_eq {X Y Z} (f : X → Z) (g : Y → Z) l k :
  Forall2 (λ x y, g y = f x) l k → g <$> k = f <$> l.
Proof. induction 1; simpl; by f_equal. Qed.

(** [write_array] returns once its sample loop has returned. *)
Lemma write_array_run array key chunk_size to_bytes w batch rest
    index_map w1 :
  shape array = batch :: rest →
  store w !! get_meta_key key = None →
  store w !! get_index_map_key key = None →
  for_each (seq 0 batch) (write_body uuid1 key chunk_size array to_bytes)
    [] w = (inr index_map, w1) →
  ∃ w', write_array uuid1 pickle_dumps array key chunk_size true to_bytes w
        = (inr tt, w').
Proof.
  intros Hshape Hm Hi Hloop. unfold write_array.
  assert (normalize_and_batchify_shape array true = inr array) as ->.
  { unfold normalize_and_batchify_shape. by rewrite Hshape. }
  erewrite bind_ok; [|reflexivity].
  erewrite bind_ok; [|reflexivity].
  erewrite bind_ok; [|reflexivity].
  rewrite Hm, Hi. simpl. rewrite Hshape.
  erewrite bind_ok; [|reflexivity].
  erewrite bind_ok; [|exact Hloop].
  eexists. reflexivity.
Qed.

(** Round trip.  For a well-formed array with at least one sample and
    samples of at least one element, [chunk_size >= 1] and a key whose
    meta and index map keys are absent, [write_array] (batched, default
    flattener) returns, and [read_array] of the full range, run on a
    single thread, then returns the buffer of the array as elements in
    native byte order: the array, if it is in native byte order. *)
Theorem write_read_roundtrip (array : ndarray) (key : string)
    (chunk_size : nat) (w : world) (batch : nat) (rest : list nat) :
  uuid_supply uuid1 →
  (∀ o, pickle_loads (pickle_dumps o) = Some o) →
  1 ≤ chunk_size → ndarray_wf array → shape array = batch :: rest →
  1 ≤ batch → 1 ≤ prod_shape rest →
  store w !! get_meta_key key = None →
  store w !! get_index_map_key key = None →
  ∃ w',
    write_array uuid1 pickle_dumps array key chunk_size true
      row_wise_to_bytes w = (inr tt, w')
    ∧ read_array pickle_loads key slice_None false None [] w'
      = (inr (native_view array), w').
Proof.
  intros Huuid Hpickle Hcs Hwf Hshape Hbatch Hrest Hm Hi.
  (* the write returns *)
  destruct (rows_exist array batch rest Hshape) as (samples & Hsamples).
  assert (Forall (λ s, row_wise_to_bytes s ≠ []) samples) as Hne.
  { apply Forall_forall. intros s Hs.
    apply list_elem_of_lookup in Hs as [i Hs].
    destruct (Forall2_lookup_r _ _ _ _ _ Hsamples Hs) as (i' & _ & Hget).
    destruct (ndarray_getitem_wf array batch rest i' s Hwf Hshape Hget)
      as (_ & _ & _ & _ & Hlen).
    unfold row_wise_to_bytes. intros E. rewrite E in Hlen. simpl in Hlen.
    pose proof (itemsize_pos (dtype array)). nia. }
  assert (layout uuid1 key chunk_size (store w) (clock w) w [] [])
    as Hinit by (apply layout_init; done).
  destruct (write_loop_returns uuid1 Huuid key chunk_size Hcs _ _ _ _ _ _
              _ _ _ Hinit Hsamples Hne) as (im0 & w0 & Hloop).
  destruct (write_array_run array key chunk_size row_wise_to_bytes w batch
              rest im0 w0 Hshape Hm Hi Hloop) as (w' & Hwrite).
  exists w'. split; [done|].
  (* what it has stored *)
  apply write_array_layout in Hwrite
    as (a' & batch' & rest' & im & samples' & w1 & Hnorm & Hshape'
        & Hsamples' & Hshapes & Hlay & _ & _ & ->); [|done..].
  unfold normalize_and_batchify_shape in Hnorm. rewrite Hshape in Hnorm.
  injection Hnorm as <-. rewrite Hshape in Hshape'.
  injection Hshape' as <- <-.
  set (meta := Meta chunk_size (dtype_name (dtype array)) batch rest rest).
  set (w' := World _ _).
  (* the read *)
  unfold read_array, read_tensor_meta.
  assert (store w' !! get_meta_key key = Some (pickle_dumps (PMeta meta)))
    as Hmeta.
  { subst w'. simpl.
    rewrite lookup_insert_ne
      by (intros E; symmetry in E; by apply meta_key_not_index_map in E).
    apply lookup_insert_eq. }
  assert (store w' !! get_index_map_key key
          = Some (pickle_dumps (PIndexMap im))) as Hindex
      by apply lookup_insert_eq.
  erewrite bind_ok.
  2:{ erewrite bind_ok; [|unfold storage_getitem; by rewrite Hmeta].
      unfold loads. by rewrite Hpickle. }
  erewrite bind_ok.
  2:{ erewrite bind_ok; [|unfold storage_getitem; by rewrite Hindex].
      unfold loads. by rewrite Hpickle. }
  assert (Forall2 (sample_stored key (dtype array) w') im samples')
    as Hstored.
  { pose proof (lay_entries _ _ _ _ _ _ _ _ Hlay) as Hentries.
    apply Forall2_same_length_lookup_2.
    { by eapply Forall2_length. }
    intros i e s He Hs.
    destruct (Forall2_lookup_l _ _ _ _ _ Hentries He) as (p & Hp & Hok).
    rewrite list_lookup_fmap, Hs in Hp. injection Hp as <-.
    pose proof (Forall2_lookup_lr _ _ _ _ _ _ Hshapes He Hs) as Hes.
    destruct (Forall2_lookup_r _ _ _ _ _ Hsamples' Hs) as (i' & _ & Hget).
    destruct (ndarray_getitem_wf array batch rest i' s Hwf Hshape Hget)
      as (_ & Hd & Hss & _ & Hlen).
    destruct Hok as (js & xs & Hnames & Hjs & Hxs & Hcov).
    split_and!; [|done|done|by rewrite Hss].
    exists xs. split; [|by apply covers_join in Hcov].
    rewrite Hnames. apply Forall2_fmap_l.
    eapply Forall2_impl; [exact Hxs|]. intros j x Hx. simpl.
    subst w'. simpl. rewrite lookup_after_meta; [done|].
    by apply (chunk_key_of_under uuid1 Huuid). }
  erewrite bind_ok;
    [|by apply (single_threaded_get_samples_ok key meta (dtype array))].
  assert (length samples' = batch) as Hlen.
  { apply Forall2_length in Hsamples'. by rewrite length_seq in Hsamples'. }
  rewrite (np_array_stack (native_dtype (scalar_type (dtype array))) rest).
  - rewrite length_fmap, <- list_fmap_compose.
    change (data ∘ native_view) with data.
    unfold native_view. simpl. do 2 f_equal.
    destruct array as [d shp buf]. simpl in *.
    rewrite Hlen, Hshape. f_equal.
    rewrite (Forall2_fmap_eq
               (λ i, bytes_slice buf (i * (itemsize d * prod_shape rest))
                       (i * (itemsize d * prod_shape rest)
                        + itemsize d * prod_shape rest))
               data (seq 0 batch) samples').
    + rewrite concat_rows, take_ge; [done|].
      unfold ndarray_wf in Hwf. simpl in Hwf. rewrite Hshape in Hwf.
      simpl in Hwf. lia.
    + eapply Forall2_impl; [exact Hsamples'|]. intros i s Hget.
      by destruct (ndarray_getitem_wf (NDArray d shp buf) batch rest i s
                     Hwf Hshape Hget) as (_ & _ & _ & -> & _).
  - intros E. apply fmap_nil_inv in E. rewrite E in Hlen. simpl in Hlen.
    lia.
  - apply Forall_fmap, Forall_forall. intros s Hs.
    apply list_elem_of_lookup in Hs as [i Hs].
    destruct (Forall2_lookup_r _ _ _ _ _ Hsamples' Hs) as (i' & _ & Hget).
    destruct (ndarray_getitem_wf array batch rest i' s Hwf Hshape Hget)
      as (_ & Hd & Hss & _).
    simpl. by rewrite Hd, Hss.
Qed.

End RoundTrip.

(** ** The concrete name supply and serializer *)

Lemma counter_uuid1_supply : uuid_supply counter_uuid1.
Proof.
  split.
  - intros i j H. unfold counter_uuid1 in H.
    apply String.app_inj in H. by apply (inj pretty) in H.
  - done.
Qed.

Lemma bytes_to_pos_to_bytes p : bytes_to_pos (pos_to_bytes p) = p.
Proof. induction p; simpl; by f_equal. Qed.

Lemma bitwise_loads_dumps o : bitwise_loads (bitwise_dumps o) = Some o.
Proof.
  unfold bitwise_loads, bitwise_dumps.
  rewrite bytes_to_pos_to_bytes. apply decode_encode.
Qed.

(** ** Samples without bytes *)

(** C1 (the code at the failing input). Writing a 1x0 array, batched, with
    [chunk_size = 4] to a key of the empty store does not return: the
    splitter yields no slice for the empty sample, the loop of
    [_write_bytes] never binds [end_byte], and building the index entry
    raises.  Nothing has been stored, so there is nothing to read back. *)
Theorem write_array_empty_sample (uuid1 : nat → string)
    (pickle_dumps : pyobj → bytes) :
  write_array uuid1 pickle_dumps empty_sample_array "t" 4 true
    row_wise_to_bytes empty_world
  = (inl (UnboundLocalError "end_byte"), empty_world).
Proof. reflexivity. Qed.

(** ** The thread pool *)

(** C7 (the code at the failing input). The tensor holds the three
    one-byte samples "a", "b", "c".  When the three workers reach
    [samples.insert] in the order 2, 1, 0, the parallel read returns
    "a", "c", "b": [insert(1, b)] into [[c]] puts "b" after "c".  The
    single-threaded read returns "a", "b", "c". *)
Theorem parallel_read_misplaces :
  read_array bitwise_loads "t" slice_None true None [2; 1; 0] abc_world
  = (inr acb_array, abc_world)
  ∧ read_array bitwise_loads "t" slice_None false None [] abc_world
    = (inr abc_array, abc_world)
  ∧ acb_array ≠ abc_array
  ∧ [2; 1; 0] ≡ₚ seq 0 3.
Proof.
  split_and!.
  - by vm_compute.
  - by vm_compute.
  - discriminate.
  - exact (reverse_Permutation [0; 1; 2]).
Qed.

(** ** Scenario S2 *)

Section Scenario.
Context (uuid1 : nat → string).
Context (pickle_dumps : pyobj → bytes) (pickle_loads : bytes → option pyobj).

Lemma scenario_sample1 key st n (b1 b2 b3 b4 b5 b6 : byte) :
  write_body uuid1 key 4 (two_by_three b1 b2 b3 b4 b5 b6)
    row_wise_to_bytes [] 0 (World st n)
  = (inr [Entry [uuid1 n] 0 3 (Some [3])],
     World (<[get_chunk_key key (uuid1 n) := [b1; b2; b3]]> st) (S n)).
Proof.
  unfold write_body. erewrite bind_ok; [|reflexivity].
  unfold _write_sample. cbv beta zeta.
  erewrite bind_ok.
  2:{ unfold _write_bytes. erewrite bind_ok; [|reflexivity].
      cbv beta iota zeta.
      destruct (decide _) as [[H _]|_]; [simpl in H; lia|].
      change (generate_chunks _ 4 0) with [[b1; b2; b3]].
      erewrite bind_ok; [|apply write_chunks_fresh; lia].
      reflexivity. }
  cbn [clock store length]. rewrite Nat.add_1_r. reflexivity.
Qed.
Lemma scenario_sample2 key st n (b1 b2 b3 b4 b5 b6 : byte) :
  write_body uuid1 key 4 (two_by_three b1 b2 b3 b4 b5 b6)
    row_wise_to_bytes [Entry [uuid1 n] 0 3 (Some [3])] 1
    (World (<[get_chunk_key key (uuid1 n) := [b1; b2; b3]]> st) (S n))
  = (inr [Entry [uuid1 n] 0 3 (Some [3]);
          Entry [uuid1 n; uuid1 (S n)] 3 2 (Some [3])],
     World (<[get_chunk_key key (uuid1 (S n)) := [b5; b6]]>
              (<[get_chunk_key key (uuid1 n) := [b1; b2; b3; b4]]> st))
       (S (S n))).
Proof.
  unfold write_body. erewrite bind_ok; [|reflexivity].
  unfold _write_sample. cbv beta zeta.
  erewrite bind_ok.
  2:{ eapply _write_bytes_extend.
      - lia.
      - reflexivity.
      - eapply _get_last_chunk_some;
          [reflexivity | reflexivity | apply lookup_insert_eq].
      - simpl. lia.
      - discriminate. }
  cbn -[insert get_chunk_key].
  rewrite insert_insert_eq, Nat.add_1_r. reflexivity.
Qed.

(** C5. Scenario S2 of section 8, for every name supply, serializer, key
    without meta and index map, content of the store and six bytes: with
    [chunk_size = 4], writing the 2x3 uint8 array (batched) returns and
    adds to the store two chunks, [c1] with the first four bytes and [c2]
    with the last two, besides the meta and the index map; the index map
    has the entries [(c1), start 0, end 3] and [(c1, c2), start 3, end 2];
    reading the full range back (on a single thread) returns the
    array. *)
Theorem scenario_s2 (key : string) (w : world)
    (b1 b2 b3 b4 b5 b6 : byte) :
  uuid_supply uuid1 →
  (∀ o, pickle_loads (pickle_dumps o) = Some o) →
  store w !! get_meta_key key = None →
  store w !! get_index_map_key key = None →
  let array := two_by_three b1 b2 b3 b4 b5 b6 in
  let c1 := uuid1 (clock w) in
  let c2 := uuid1 (S (clock w)) in
  let index_map := [Entry [c1] 0 3 (Some [3]);
                    Entry [c1; c2] 3 2 (Some [3])] in
  let w' :=
    World
      (<[get_index_map_key key := pickle_dumps (PIndexMap index_map)]>
         (<[get_meta_key key :=
              pickle_dumps (PMeta (Meta 4 "uint8" 2 [3] [3]))]>
            (<[get_chunk_key key c2 := [b5; b6]]>
               (<[get_chunk_key key c1 := [b1; b2; b3; b4]]> (store w)))))
      (S (S (clock w))) in
  write_array uuid1 pickle_dumps array key 4 true row_wise_to_bytes w
  = (inr tt, w')
  ∧ get_chunk_key key c1 ≠ get_chunk_key key c2
  ∧ store w' !! get_chunk_key key c1 = Some [b1; b2; b3; b4]
  ∧ store w' !! get_chunk_key key c2 = Some [b5; b6]
  ∧ read_array pickle_loads key slice_None false None [] w'
    = (inr array, w').
Proof.
  intros Huuid Hpickle Hm Hi array c1 c2 index_map w'.
  assert (write_array uuid1 pickle_dumps array key 4 true
            row_wise_to_bytes w = (inr tt, w')) as Hwrite.
  { unfold write_array.
    erewrite bind_ok; [|reflexivity].
    erewrite bind_ok; [|reflexivity].
    erewrite bind_ok; [|reflexivity].
    rewrite Hm, Hi. cbn [orb].
    rewrite (bool_decide_eq_false_2 (is_Some None))
      by (by intros [? ?]).
    cbn [orb].
    erewrite bind_ok; [|reflexivity].
    destruct w as [st n].
    erewrite bind_ok.
    2:{ cbn [seq for_each].
        erewrite bind_ok; [|apply scenario_sample1].
        erewrite bind_ok; [|apply scenario_sample2].
        reflexivity. }
    reflexivity. }
  assert (get_chunk_key key c1 ≠ get_chunk_key key c2) as Hne.
  { intros E. apply (chunk_key_of_inj uuid1 Huuid) in E. lia. }
  split_and!; [done | done | | |].
  - subst w'. simpl.
    rewrite lookup_insert_ne by (symmetry; apply chunk_key_not_index_map,
                                   (uuid1_relative _ Huuid)).
    rewrite lookup_insert_ne by (symmetry; apply chunk_key_not_meta,
                                   (uuid1_relative _ Huuid)).
    rewrite lookup_insert_ne by done. apply lookup_insert_eq.
  - subst w'. simpl.
    rewrite lookup_insert_ne by (symmetry; apply chunk_key_not_index_map,
                                   (uuid1_relative _ Huuid)).
    rewrite lookup_insert_ne by (symmetry; apply chunk_key_not_meta,
                                   (uuid1_relative _ Huuid)).
    apply lookup_insert_eq.
  - destruct (write_read_roundtrip uuid1 pickle_dumps pickle_loads array
                key 4 w 2 [3] Huuid Hpickle) as (w2 & Hw2 & Hread);
      [lia | reflexivity | reflexivity | lia | simpl; lia | done | done |].
    rewrite Hwrite in Hw2. by injection Hw2 as <-.
Qed.
End Scenario.

(** ** The tensor view *)

Section TensorClaims.
Context (uuid1 : nat → string).
Context (pickle_dumps : pyobj → bytes) (pickle_loads : bytes → option pyobj).
Context (merge_slices : pyslice → pyslice → option pyslice).

Local Abbreviation init := (Tensor_init pickle_loads).
Local Abbreviation getitem :=
  (Tensor_getitem pickle_loads merge_slices).
Local Abbreviation setitem :=
  (Tensor_setitem uuid1 pickle_dumps pickle_loads merge_slices).

(** The constructor reads the meta and writes nothing. *)
Lemma Tensor_init_inv key sl w r w' :
  init key sl w = (r, w') →
  w' = w
  ∧ match r with
    | inr t => tensor_key t = key ∧ tensor_slice t = sl
               ∧ is_Some (store w !! get_meta_key key)
    | inl _ => True
    end.
Proof.
  unfold Tensor_init, load_meta, read_tensor_meta. simpl.
  unfold mbind, M_bind, storage_getitem, loads.
  destruct (store w !! get_meta_key key) as [b|] eqn:Hb;
    [|by intros [= <- <-]].
  destruct (pickle_loads b) as [[m|im]|]; simpl;
    intros [= <- <-]; (split; [done|]); try done.
  all: split_and!; try done; by eexists.
Qed.

Lemma Tensor_init_slice key sl sl' w t :
  init key sl w = (inr t, w) →
  ∃ t', init key sl' w = (inr t', w) ∧ tensor_slice t' = sl'
        ∧ tensor_key t' = key.
Proof.
  unfold Tensor_init, load_meta, read_tensor_meta. simpl.
  unfold mbind, M_bind, storage_getitem, loads.
  destruct (store w !! get_meta_key key) as [b|]; [|done].
  destruct (pickle_loads b) as [[m|im]|]; simpl; [|done..].
  intros _. by eexists.
Qed.

Lemma length_omap_le {X Y} (f : X → option Y) (l : list X) :
  length (omap f l) ≤ length l.
Proof.
  induction l as [|x l IH]; simpl; [done|].
  change (list_omap X Y f l) with (omap f l).
  destruct (f x); simpl; lia.
Qed.

(** [l[i:i+1]] has at most one element. *)
Lemma list_getslice_index {X} (l l' : list X) (i : Z) :
  list_getslice l (subscript_slice (SubInt i)) = inr l' → length l' ≤ 1.
Proof.
  unfold list_getslice, slice_indices, subscript_slice. simpl.
  intros [= <-].
  etrans; [apply length_omap_le|]. rewrite length_seq.
  unfold range_length. simpl.
  case_decide; [|lia]. rewrite Z.div_1_r.
  repeat case_decide; lia.
Qed.

(** A composition with an integer subscript is never the unrestricted
    slice. *)
Lemma merge_slices_index s i c :
  slice_composition merge_slices →
  merge_slices s (subscript_slice (SubInt i)) = Some c → c ≠ slice_None.
Proof.
  intros Hcomp Hm ->. specialize (Hcomp _ _ _ Hm [0; 1]).
  rewrite list_getslice_None in Hcomp.
  destruct (list_getslice [0; 1] s) as [e|l']; [done|].
  symmetry in Hcomp. apply list_getslice_index in Hcomp.
  simpl in Hcomp. lia.
Qed.

(** [write_array] through a view: the tensor of a view exists. *)
Lemma write_array_view array key chunk_size to_bytes w :
  is_Some (store w !! get_meta_key key) →
  ∃ e, write_array uuid1 pickle_dumps array key chunk_size true to_bytes w
       = (inl e, w)
       ∧ (shape array ≠ [] → e = already_exists).
Proof.
  intros Hm. destruct (shape array) as [|n rest] eqn:Hshape.
  - eexists. split; [|by intros []]. unfold write_array.
    erewrite bind_err; [done|].
    unfold normalize_and_batchify_shape. by rewrite Hshape.
  - exists already_exists. split; [|done].
    apply write_array_exists; [by rewrite Hshape | by left].
Qed.

(** What an assignment through a view does, by the composed slice. *)
Lemma Tensor_setitem_cases self item value w :
  is_view pickle_loads self w →
  match merge_slices (tensor_slice self) (subscript_slice item) with
  | None => setitem self item value w = (inl unsupported_slice, w)
  | Some s =>
      if decide (s = slice_None) then
        ∃ e, setitem self item value w = (inl e, w)
             ∧ (shape value ≠ [] → e = already_exists)
      else setitem self item value w = (inl unsupported_assignment, w)
  end.
Proof.
  intros Hview. unfold Tensor_setitem, Tensor_getitem.
  change (match item with
          | SubInt item0 => Slice (Some item0) (Some (item0 + 1)%Z) None
          | SubSlice item0 => item0
          end) with (subscript_slice item).
  destruct (merge_slices _ _) as [s|].
  - destruct (Tensor_init_slice _ _ s _ _ Hview) as (t' & Ht' & Hs & Hk).
    erewrite bind_ok; [|erewrite bind_ok; [exact Ht'|reflexivity]].
    rewrite Hs. destruct (decide (s = slice_None)) as [->|Hne].
    + rewrite decide_False by (intros H; by apply H).
      apply Tensor_init_inv in Hview as [_ (_ & _ & Hmeta)].
      destruct (write_array_view value (tensor_key self)
                  DEFAULT_CHUNK_SIZE row_wise_to_bytes w Hmeta)
        as (e & He & Hek).
      exists e. split; [|done]. by erewrite bind_err.
    + by rewrite decide_True.
  - erewrite bind_err; [done|]. by erewrite bind_err.
Qed.

(** An assignment never returns, whatever the view and the store. *)
Lemma Tensor_setitem_never_returns self item value w t w' :
  setitem self item value w ≠ (inr t, w').
Proof.
  unfold Tensor_setitem. intros H.
  apply bind_inv_ok in H as (sliced & w1 & Hget & H).
  unfold Tensor_getitem in Hget.
  apply bind_inv_ok in Hget as (s & w0 & Hs & Hinit).
  assert (w0 = w) as ->.
  { destruct (merge_slices _ _); [by injection Hs as _ <-|done]. }
  apply Tensor_init_inv in Hinit as [-> (_ & _ & Hmeta)].
  case_decide; [done|].
  destruct (write_array_view value (tensor_key self) DEFAULT_CHUNK_SIZE
              row_wise_to_bytes w Hmeta) as (e & He & _).
  erewrite bind_err in H; done.
Qed.

(** C9. An assignment through a tensor view returns only if the composed
    slice is the unrestricted slice and the tensor does not exist in
    storage.  For a view of the store, an assignment whose composed slice
    is not the unrestricted slice fails with [NotImplementedError] and
    leaves the world as it was; when the composition is defined the error
    is "Assignment to Tensor slices not currently supported!". *)
Theorem Tensor_setitem_unsupported (self : Tensor) (item : subscript)
    (value : ndarray) (w : world) :
  is_view pickle_loads self w →
  let composed := merge_slices (tensor_slice self) (subscript_slice item) in
  (∀ t w', setitem self item value w = (inr t, w') →
           composed = Some slice_None
           ∧ ¬ tensor_exists w (tensor_key self))
  ∧ (composed ≠ Some slice_None →
     ∃ e, setitem self item value w = (inl e, w)
          ∧ is_not_implemented e
          ∧ (is_Some composed → e = unsupported_assignment)).
Proof.
  intros Hview composed. split.
  - intros t w' H. by apply Tensor_setitem_never_returns in H.
  - intros Hsliced.
    pose proof (Tensor_setitem_cases self item value w Hview) as Hcases.
    fold composed in Hcases. destruct composed as [s|].
    + case_decide as Hs; [by subst|].
      exists unsupported_assignment. split_and!; [done | by eexists | done].
    + exists unsupported_slice.
      split_and!; [done | by eexists | by intros [? ?]].
Qed.

(** C10. For a view of the store and a slice composition that composes,
    the assignment [t[i] = v] with an integer [i] fails and leaves the
    world as it was, whatever the slice of the view: the subscript
    becomes the slice [(i, i+1)], its composition with the slice of the
    view is never the unrestricted slice, so the error is the one of the
    assignment check (or of the composition, where that is undefined)
    and never the one of [write_array].  For any subscript,
    [write_array] is called only when the composed slice is the
    unrestricted one. *)
Theorem Tensor_setitem_int (self : Tensor) (i : Z) (value : ndarray)
    (w : world) :
  is_view pickle_loads self w → slice_composition merge_slices →
  (∃ e, setitem self (SubInt i) value w = (inl e, w)
        ∧ (e = unsupported_assignment ∨ e = unsupported_slice)
        ∧ (is_Some (merge_slices (tensor_slice self)
                      (subscript_slice (SubInt i))) →
           e = unsupported_assignment))
  ∧ (∀ item,
       merge_slices (tensor_slice self) (subscript_slice item)
       ≠ Some slice_None →
       setitem self item value w = (inl unsupported_assignment, w)
       ∨ setitem self item value w = (inl unsupported_slice, w)).
Proof.
  intros Hview Hcomp. split.
  - pose proof (Tensor_setitem_cases self (SubInt i) value w Hview)
      as Hcases.
    destruct (merge_slices _ _) as [s|] eqn:Hm.
    + rewrite decide_False in Hcases
        by (by eapply merge_slices_index).
      exists unsupported_assignment. split_and!; [done | by left | done].
    + exists unsupported_slice.
      split_and!; [done | by right | by intros [? ?]].
  - intros item Hsliced.
    pose proof (Tensor_setitem_cases self item value w Hview) as Hcases.
    destruct (merge_slices _ _) as [s|]; [|by right].
    case_decide; [by subst | by left].
Qed.

End TensorClaims.

Lemma trivial_merge_slices_composes : slice_composition trivial_merge_slices.
Proof.
  intros s1 s2 s Hm l. unfold trivial_merge_slices in Hm.
  repeat case_decide; simplify_eq.
  - by rewrite list_getslice_None.
  - destruct (list_getslice l s) as [e|l']; [done|].
    by rewrite list_getslice_None.
Qed.

(** ** The theorems at a stored tensor *)

Lemma stored_world_written :
  write_array counter_uuid1 bitwise_dumps stored_array "t" 4 true
    row_wise_to_bytes empty_world = (inr tt, stored_world).
Proof. vm_compute. reflexivity. Qed.

Lemma stored_view_is_view : is_view bitwise_loads stored_view stored_world.
Proof. vm_compute. reflexivity. Qed.

Lemma chunk_size_bound_stored :
  (∀ k, under_chunks "t" k → store empty_world !! k = None)
  ∧ (∀ k x, under_chunks "t" k → store stored_world !! k = Some x →
            length x ≤ 4)
  ∧ (∀ k1 k2 x1 x2,
       under_chunks "t" k1 → under_chunks "t" k2 →
       store stored_world !! k1 = Some x1 →
       store stored_world !! k2 = Some x2 →
       length x1 < 4 → length x2 < 4 → k1 = k2).
Proof.
  split; [intros k _; apply lookup_empty|].
  apply (chunk_size_bound counter_uuid1 bitwise_dumps stored_array "t" 4
           true row_wise_to_bytes empty_world stored_world).
  - apply counter_uuid1_supply.
  - lia.
  - intros k _. apply lookup_empty.
  - apply stored_world_written.
Defined.

Lemma index_map_adjacent_stored :
  ∃ index_map,
    store stored_world !! get_index_map_key "t"
    = Some (bitwise_dumps (PIndexMap index_map))
    ∧ adjacent index_map.
Proof.
  apply (index_map_adjacent counter_uuid1 bitwise_dumps stored_array "t" 4
           true row_wise_to_bytes empty_world stored_world).
  - apply counter_uuid1_supply.
  - lia.
  - apply stored_world_written.
Defined.

Lemma index_coverage_stored :
  ndarray_wf stored_array
  ∧ ∃ index_map,
      store stored_world !! get_index_map_key "t"
      = Some (bitwise_dumps (PIndexMap index_map))
      ∧ (∀ i e, index_map !! i = Some e →
                ∃ shp, entry_shape e = Some shp
                       ∧ covered_bytes (store stored_world) "t" e
                         = Some (Z.of_nat (prod_shape shp
                                           * itemsize (dtype stored_array))))
      ∧ ∃ samples batch rest,
          normalize_and_batchify_shape stored_array true = inr samples
          ∧ shape samples = batch :: rest
          ∧ length index_map = batch
          ∧ ∀ i, i < batch →
                 ∃ sample e chunks,
                   ndarray_getitem samples i = inr sample
                   ∧ index_map !! i = Some e
                   ∧ entry_shape e = Some (shape sample)
                   ∧ mapM (λ name, store stored_world
                                   !! get_chunk_key "t" name)
                       (chunk_names e) = Some chunks
                   ∧ join_chunks chunks (start_byte e) (end_byte e)
                     = row_wise_to_bytes sample
                   ∧ covered_bytes (store stored_world) "t" e
                     = Some (Z.of_nat (prod_shape (shape sample)
                                       * itemsize (dtype stored_array))).
Proof.
  assert (ndarray_wf stored_array) as Hwf by (vm_compute; done).
  split; [exact Hwf|].
  apply (index_coverage counter_uuid1 bitwise_dumps stored_array "t" 4 true
           empty_world stored_world).
  - apply counter_uuid1_supply.
  - lia.
  - exact Hwf.
  - apply stored_world_written.
Defined.

Lemma scenario_s2_stored :
  write_array counter_uuid1 bitwise_dumps stored_array "t" 4 true
    row_wise_to_bytes empty_world = (inr tt, stored_world)
  ∧ store stored_world !! get_chunk_key "t" (counter_uuid1 0)
    = Some [x61; x62; x63; x64]
  ∧ store stored_world !! get_chunk_key "t" (counter_uuid1 1)
    = Some [x65; x66]
  ∧ read_array bitwise_loads "t" slice_None false None [] stored_world
    = (inr stored_array, stored_world).
Proof.
  destruct (scenario_s2 counter_uuid1 bitwise_dumps bitwise_loads "t"
              empty_world x61 x62 x63 x64 x65 x66)
    as (Hw & _ & Hc1 & Hc2 & Hr).
  - apply counter_uuid1_supply.
  - apply bitwise_loads_dumps.
  - apply lookup_empty.
  - apply lookup_empty.
  - assert (stored_world = _) as Heq
      by (unfold stored_world, stored_array; by rewrite Hw).
    rewrite Heq. split_and!; [exact Hw | exact Hc1 | exact Hc2 | exact Hr].
Defined.

Lemma write_array_already_exists_stored :
  write_array counter_uuid1 bitwise_dumps stored_array "t" 4 true
    row_wise_to_bytes stored_world
  = (inl already_exists, stored_world).
Proof.
  destruct (write_array_already_exists counter_uuid1 bitwise_dumps
              stored_array "t" 4 true row_wise_to_bytes stored_world)
    as [Hiff Hsame].
  - intros _. discriminate.
  - destruct (write_array _ _ _ _ _ _ _ stored_world) as [r w'].
    simpl in Hiff, Hsame.
    assert (r = inl already_exists) as Hr.
    { apply Hiff. left. vm_compute. eauto. }
    rewrite (Hsame Hr), Hr. reflexivity.
Defined.

Lemma Tensor_setitem_unsupported_stored :
  Tensor_setitem counter_uuid1 bitwise_dumps bitwise_loads
    trivial_merge_slices stored_view
    (SubSlice (Slice (Some 0%Z) (Some 1%Z) None)) stored_array stored_world
  = (inl unsupported_assignment, stored_world).
Proof.
  destruct (Tensor_setitem_unsupported counter_uuid1 bitwise_dumps
              bitwise_loads trivial_merge_slices stored_view
              (SubSlice (Slice (Some 0%Z) (Some 1%Z) None)) stored_array
              stored_world stored_view_is_view) as [_ Hfail].
  destruct Hfail as (e & Hrun & _ & He); [discriminate|].
  rewrite Hrun, He; [reflexivity|]. by eexists.
Defined.

Lemma Tensor_setitem_int_stored :
  Tensor_setitem counter_uuid1 bitwise_dumps bitwise_loads
    trivial_merge_slices stored_view (SubInt 0) stored_array stored_world
  = (inl unsupported_assignment, stored_world).
Proof.
  destruct (Tensor_setitem_int counter_uuid1 bitwise_dumps bitwise_loads
              trivial_merge_slices stored_view 0 stored_array stored_world
              stored_view_is_view trivial_merge_slices_composes)
    as [(e & Hrun & _ & He) _].
  rewrite Hrun, He; [reflexivity|]. by eexists.
Defined.

(** ** The reader: what it leaves alone and how it fails *)

Section ReadOnly.

Lemma read_only_ret {A} (a : A) : read_only (mret a).
Proof. done. Qed.

Lemma read_only_raise {A} (e : exn) : read_only (raise (A := A) e).
Proof. done. Qed.

Lemma read_only_lift {A} (r : exn + A) : read_only (lift r).
Proof. by destruct r. Qed.

Lemma read_only_bind {A B} (m : M A) (k : A → M B) :
  read_only m → (∀ a, read_only (k a)) → read_only (m ≫= k).
Proof.
  intros Hm Hk w. unfold mbind, M_bind. specialize (Hm w).
  destruct (m w) as [[e|a] w1]; simpl in Hm; subst; [done | apply Hk].
Qed.

Lemma read_only_getitem key : read_only (storage_getitem key).
Proof. intros w. unfold storage_getitem. by destruct (store w !! key). Qed.

Lemma read_only_for_each {A S} (xs : list A) (body : S → A → M S) acc :
  (∀ acc x, read_only (body acc x)) → read_only (for_each xs body acc).
Proof.
  intros Hb. revert acc. induction xs as [|x xs IH]; intros acc; simpl.
  - apply read_only_ret.
  - apply read_only_bind; [apply Hb | apply IH].
Qed.

(** The result of a read-only computation, with the world it ran in. *)
Lemma read_only_run {A} (m : M A) w :
  read_only m → ∃ r, m w = (r, w).
Proof.
  intros Hm. specialize (Hm w). destruct (m w) as [r w1].
  simpl in Hm. subst. by exists r.
Qed.

(** A loop of read-only steps raises as soon as one of its steps is bound
    to raise in the world of the loop. *)
Lemma for_each_raises {A S} (xs : list A) (body : S → A → M S) acc w x :
  (∀ acc y, read_only (body acc y)) → x ∈ xs →
  (∀ acc, ∃ e, body acc x w = (inl e, w)) →
  ∃ e, for_each xs body acc w = (inl e, w).
Proof.
  intros Hro Hin Hx. revert acc.
  induction xs as [|y xs IH]; intros acc; [by apply elem_of_nil in Hin|].
  simpl. destruct (read_only_run (body acc y) w (Hro acc y)) as [[e|acc'] Hy].
  - exists e. by erewrite bind_err.
  - erewrite bind_ok; [|done].
    apply elem_of_cons in Hin as [->|Hin].
    + destruct (Hx acc) as [e He]. congruence.
    + by apply IH.
Qed.

(** A loop of steps that always return, returns. *)
Lemma for_each_returns {A S} (xs : list A) (body : S → A → M S) acc w :
  (∀ acc x w, ∃ acc', body acc x w = (inr acc', w)) →
  ∃ acc', for_each xs body acc w = (inr acc', w).
Proof.
  intros Hb. revert acc. induction xs as [|x xs IH]; intros acc; simpl.
  - by exists acc.
  - destruct (Hb acc x w) as [acc1 H1].
    erewrite bind_ok; [|done]. apply IH.
Qed.

End ReadOnly.

Section ReaderFacts.
Context (pickle_loads : bytes → option pyobj).

Lemma loads_read_only b : read_only (loads pickle_loads b).
Proof. unfold loads. by destruct (pickle_loads b). Qed.

Lemma read_tensor_meta_read_only key :
  read_only (read_tensor_meta pickle_loads key).
Proof.
  apply read_only_bind; [apply read_only_getitem|].
  intros b. apply loads_read_only.
Qed.

Lemma _get_sample_read_only index key e meta samples :
  read_only (_get_sample index key e meta samples).
Proof.
  unfold _get_sample. apply read_only_bind.
  - apply read_only_for_each. intros acc name.
    apply read_only_bind; [apply read_only_getitem|].
    intros b. apply read_only_ret.
  - intros chunks.
    repeat (apply read_only_bind; [apply read_only_lift|]; intros ?).
    apply read_only_ret.
Qed.

Lemma single_threaded_get_samples_read_only index_map sl key meta samples :
  read_only (single_threaded_get_samples index_map sl key meta samples).
Proof.
  unfold single_threaded_get_samples.
  repeat (apply read_only_bind; [apply read_only_lift|]; intros ?).
  apply read_only_for_each. intros acc [i e].
  apply _get_sample_read_only.
Qed.

Lemma run_task_read_only key meta task samples :
  read_only (run_task key meta task samples).
Proof.
  intros w. unfold run_task.
  pose proof (_get_sample_read_only task.1 key task.2 meta samples w) as H.
  by destruct (_get_sample _ _ _ _ _ w) as [[e|s] w1].
Qed.

Lemma multi_threaded_get_samples_read_only index_map sl key meta samples
    threads completion :
  read_only (multi_threaded_get_samples index_map sl key meta samples
               threads completion).
Proof.
  unfold multi_threaded_get_samples. apply read_only_bind.
  { destruct threads as [n|]; [|apply read_only_ret].
    case_decide; [apply read_only_raise | apply read_only_ret]. }
  intros _.
  repeat (apply read_only_bind; [apply read_only_lift|]; intros ?).
  apply read_only_for_each. intros acc position.
  destruct (_ !! position); [apply run_task_read_only | apply read_only_ret].
Qed.

Lemma read_array_is_read_only key sl multi_threaded threads completion :
  read_only (read_array pickle_loads key sl multi_threaded threads
               completion).
Proof.
  unfold read_array.
  apply read_only_bind; [apply read_tensor_meta_read_only|]. intros meta.
  apply read_only_bind.
  { apply read_only_bind; [apply read_only_getitem|].
    intros b. apply loads_read_only. }
  intros index_map. apply read_only_bind; [|intros; apply read_only_lift].
  destruct multi_threaded.
  - apply multi_threaded_get_samples_read_only.
  - apply single_threaded_get_samples_read_only.
Qed.

(** X1. [read_array] never writes: whatever the key, the slice, the mode, the
    number of threads and the order in which the workers finish, and
    whether it returns an array or raises, the store and the supply of
    chunk names are afterwards what they were before the call. *)
Theorem read_array_leaves_world (key : string) (array_slice : pyslice)
    (multi_threaded : bool) (threads : option Z) (completion : list nat)
    (w : world) :
  (read_array pickle_loads key array_slice multi_threaded threads
     completion w).2 = w.
Proof. apply read_array_is_read_only. Qed.

(** X2. Reading a tensor that was never written: without the meta key,
    [read_array] raises [KeyError] with the meta key; with a meta that
    unpickles but without the index map key, it raises [KeyError] with the
    index map key.  This holds for every slice and in both modes. *)
Theorem read_array_missing_keys (key : string) (array_slice : pyslice)
    (multi_threaded : bool) (threads : option Z) (completion : list nat)
    (w : world) :
  store w !! get_index_map_key key = None →
  read_array pickle_loads key array_slice multi_threaded threads completion w
  = match store w !! get_meta_key key with
    | None => (inl (KeyError (get_meta_key key)), w)
    | Some b =>
        match pickle_loads b with
        | Some _ => (inl (KeyError (get_index_map_key key)), w)
        | None => (inl UnpicklingError, w)
        end
    end.
Proof.
  intros Hidx. unfold read_array, read_tensor_meta.
  destruct (store w !! get_meta_key key) as [b|] eqn:Hmeta.
  - destruct (pickle_loads b) as [o|] eqn:Hb.
    + erewrite bind_ok.
      2:{ erewrite bind_ok; [|unfold storage_getitem; by rewrite Hmeta].
          unfold loads. by rewrite Hb. }
      erewrite bind_err; [done|].
      erewrite bind_err; [done|].
      unfold storage_getitem. by rewrite Hidx.
    + erewrite bind_err; [done|].
      erewrite bind_ok; [|unfold storage_getitem; by rewrite Hmeta].
      unfold loads. by rewrite Hb.
  - erewrite bind_err; [done|].
    erewrite bind_err; [done|].
    unfold storage_getitem. by rewrite Hmeta.
Qed.

(** *** A missing chunk *)

Lemma _get_sample_missing_chunk index key e meta samples name w :
  name ∈ chunk_names e → store w !! get_chunk_key key name = None →
  ∃ err, _get_sample index key e meta samples w = (inl err, w).
Proof.
  intros Hin Hmiss. unfold _get_sample.
  destruct (for_each_raises (chunk_names e)
              (λ chunks chunk_name,
                 chunk ← storage_getitem
                           (os_path_join (os_path_join key "chunks")
                              chunk_name);
                 mret (chunks ++ [chunk]))
              [] w name) as [err Herr]; [| done | |].
  - intros acc y. apply read_only_bind; [apply read_only_getitem|].
    intros b. apply read_only_ret.
  - intros acc. eexists. erewrite bind_err; [done|].
    unfold storage_getitem.
    change (os_path_join (os_path_join key "chunks") name)
      with (get_chunk_key key name). by rewrite Hmiss.
  - exists err. by erewrite bind_err.
Qed.

Lemma run_task_returns key meta task samples w :
  ∃ samples', run_task key meta task samples w = (inr samples', w).
Proof.
  unfold run_task.
  pose proof (_get_sample_read_only task.1 key task.2 meta samples w) as H.
  destruct (_get_sample _ _ _ _ _ w) as [[e|s] w1]; simpl in H; subst; eauto.
Qed.

(** X3. A chunk that an entry of the requested range names is not in storage:
    the single-threaded reader raises, while the thread pool returns
    normally, because the exception stays in the future of the task that
    raised it.  Neither changes the world. *)
Theorem missing_chunk_single_and_pool (index_map meta : pyobj)
    (array_slice : pyslice) (key : string) (samples : list ndarray)
    (completion : list nat) (w : world)
    (l entries : list index_entry) (e : index_entry) (name : string) :
  as_index_map index_map = inr l →
  list_getslice l array_slice = inr entries →
  e ∈ entries → name ∈ chunk_names e →
  store w !! get_chunk_key key name = None →
  (∃ err, single_threaded_get_samples index_map array_slice key meta
            samples w = (inl err, w))
  ∧ (∃ samples', multi_threaded_get_samples index_map array_slice key meta
                   samples None completion w = (inr samples', w)).
Proof.
  intros Him Hsl He Hname Hmiss. split.
  - unfold single_threaded_get_samples.
    erewrite bind_ok; [|by rewrite Him].
    erewrite bind_ok; [|by rewrite Hsl].
    apply list_elem_of_lookup in He as [i Hi].
    apply (for_each_raises _ _ _ _ (i, e)).
    + intros acc [j e']. apply _get_sample_read_only.
    + apply list_elem_of_lookup. exists i. unfold enumerate.
      by rewrite list_lookup_imap, Hi.
    + intros acc. by eapply _get_sample_missing_chunk.
  - unfold multi_threaded_get_samples.
    erewrite bind_ok; [|reflexivity].
    erewrite bind_ok; [|by rewrite Him].
    erewrite bind_ok; [|by rewrite Hsl].
    apply for_each_returns. intros acc position w0.
    destruct (_ !! position); [apply run_task_returns | by eexists].
Qed.

(** *** Workers that finish in the order of submission *)

Lemma pool_loop_in_order key meta (pre suf : list index_entry) acc w r w' :
  for_each (imap (λ i, pair (length pre + i)) suf)
    (λ samples '(index, index_entry),
       _get_sample index key index_entry meta samples)
    acc w = (inr r, w') →
  for_each (seq (length pre) (length suf))
    (λ samples position,
       match enumerate (pre ++ suf) !! position with
       | Some task => run_task key meta task samples
       | None => mret samples
       end)
    acc w = (inr r, w').
Proof.
  revert pre acc w. induction suf as [|e suf IH]; intros pre acc w; [done|].
  rewrite imap_cons. cbn [for_each length seq].
  intros H. apply bind_inv_ok in H as (acc1 & w1 & Hget & Hrest).
  rewrite Nat.add_0_r in Hget.
  erewrite bind_ok.
  2:{ unfold enumerate. rewrite list_lookup_imap, list_lookup_middle by done.
      simpl. unfold run_task. simpl. by rewrite Hget. }
  specialize (IH (pre ++ [e]) acc1 w1).
  rewrite length_app, <- app_assoc in IH. simpl in IH.
  rewrite Nat.add_1_r in IH. apply IH.
  erewrite imap_ext; [exact Hrest|].
  intros i x _. simpl. f_equal. lia.
Qed.

Lemma multi_threaded_in_order (index_map meta : pyobj)
    (array_slice : pyslice) (key : string) (samples result : list ndarray)
    (w w' : world) (l entries : list index_entry) :
  as_index_map index_map = inr l →
  list_getslice l array_slice = inr entries →
  single_threaded_get_samples index_map array_slice key meta samples w
  = (inr result, w') →
  multi_threaded_get_samples index_map array_slice key meta samples None
    (seq 0 (length entries)) w
  = (inr result, w').
Proof.
  intros Him Hsl Hrun.
  unfold single_threaded_get_samples in Hrun.
  erewrite bind_ok in Hrun; [|by rewrite Him].
  erewrite bind_ok in Hrun; [|by rewrite Hsl].
  unfold multi_threaded_get_samples.
  erewrite bind_ok; [|reflexivity].
  erewrite bind_ok; [|by rewrite Him].
  erewrite bind_ok; [|by rewrite Hsl].
  by apply (pool_loop_in_order key meta [] entries).
Qed.

Lemma read_array_in_order key array_slice w a w' b l entries :
  store w !! get_index_map_key key = Some b →
  pickle_loads b = Some (PIndexMap l) →
  list_getslice l array_slice = inr entries →
  read_array pickle_loads key array_slice false None [] w = (inr a, w') →
  read_array pickle_loads key array_slice true None
    (seq 0 (length entries)) w
  = (inr a, w').
Proof.
  intros Hb Hl Hsl H. unfold read_array in *.
  apply bind_inv_ok in H as (meta & w0 & Hmeta & H).
  erewrite bind_ok; [|exact Hmeta].
  assert (w0 = w) as ->.
  { pose proof (read_tensor_meta_read_only key w) as Hro.
    by rewrite Hmeta in Hro. }
  apply bind_inv_ok in H as (im & w1 & Him & H).
  erewrite bind_ok; [|exact Him].
  assert (im = PIndexMap l ∧ w1 = w) as [-> ->].
  { erewrite bind_ok in Him; [|unfold storage_getitem; by rewrite Hb].
    unfold loads in Him. rewrite Hl in Him. by injection Him as <- <-. }
  apply bind_inv_ok in H as (ss & w2 & Hs & H).
  erewrite bind_ok; [exact H|].
  by apply (multi_threaded_in_order _ _ _ _ _ _ _ _ l entries).
Qed.

(** X4. When the workers of the thread pool finish in the order in which
    their tasks were submitted, [read_array] in the parallel mode returns
    what it returns on a single thread, whenever the latter returns: there
    is a number of tasks [n] such that the completion order
    [0, 1, ..., n-1] gives the same array. *)
Theorem read_array_in_submission_order (key : string)
    (array_slice : pyslice) (w w' : world) (a : ndarray) :
  read_array pickle_loads key array_slice false None [] w = (inr a, w') →
  ∃ n, read_array pickle_loads key array_slice true None (seq 0 n) w
       = (inr a, w').
Proof.
  intros H. pose proof H as H0. unfold read_array in H0.
  apply bind_inv_ok in H0 as (meta & w0 & Hmeta & H0).
  assert (w0 = w) as ->.
  { pose proof (read_tensor_meta_read_only key w) as Hro.
    by rewrite Hmeta in Hro. }
  apply bind_inv_ok in H0 as (im & w1 & Him & H0).
  apply bind_inv_ok in Him as (b & w2 & Hb & Hloads).
  unfold storage_getitem in Hb.
  destruct (store w !! get_index_map_key key) as [b'|] eqn:Hidx; [|done].
  injection Hb as -> <-.
  unfold loads in Hloads.
  destruct (pickle_loads b) as [o|] eqn:Ho; [|done].
  injection Hloads as -> <-.
  apply bind_inv_ok in H0 as (ss & w2 & Hs & _).
  unfold single_threaded_get_samples in Hs.
  apply bind_inv_ok in Hs as (l & w3 & Hl & Hs).
  apply lift_inv_ok in Hl as [Hl ->].
  apply bind_inv_ok in Hs as (entries & w3 & Hsl & _).
  apply lift_inv_ok in Hsl as [Hsl ->].
  destruct im as [m|l']; [done|]. injection Hl as ->.
  exists (length entries).
  by apply (read_array_in_order key array_slice w a w' b l entries).
Qed.

End ReaderFacts.

Lemma missing_chunk_damaged :
  (∃ err, single_threaded_get_samples (PIndexMap stored_index_map)
            slice_None "t" (PMeta stored_meta) [] damaged_world
          = (inl err, damaged_world))
  ∧ (∃ samples', multi_threaded_get_samples (PIndexMap stored_index_map)
                   slice_None "t" (PMeta stored_meta) [] None [1; 0]
                   damaged_world
                 = (inr samples', damaged_world)).
Proof.
  apply (missing_chunk_single_and_pool (PIndexMap stored_index_map)
           (PMeta stored_meta) slice_None "t" [] [1; 0] damaged_world
           stored_index_map stored_index_map
           (Entry ["c0"] 0 3 (Some [3])) "c0").
  - reflexivity.
  - apply list_getslice_None.
  - constructor.
  - constructor.
  - apply lookup_delete_eq.
Defined.

Lemma read_array_in_submission_order_stored :
  ∃ n, read_array bitwise_loads "t" slice_None true None (seq 0 n)
         stored_world
       = (inr stored_array, stored_world).
Proof.
  apply (read_array_in_submission_order bitwise_loads "t" slice_None
           stored_world stored_world stored_array).
  vm_compute. reflexivity.
Defined.

Lemma read_array_missing_keys_empty :
  read_array bitwise_loads "t" slice_None true None [] empty_world
  = (inl (KeyError (get_meta_key "t")), empty_world).
Proof.
  apply (read_array_missing_keys bitwise_loads "t" slice_None true None []
           empty_world).
  apply lookup_empty.
Defined.

(** ** The writer: edge cases and what a write does to the store *)

Section WriterEdges.
Context (uuid1 : nat → string).
Context (pickle_dumps : pyobj → bytes) (pickle_loads : bytes → option pyobj).

Lemma _write_bytes_empty_first key chunk_size w :
  _write_bytes uuid1 [] key chunk_size [] w
  = (inl (UnboundLocalError "end_byte"), w).
Proof.
  unfold _write_bytes. erewrite bind_ok; [|reflexivity].
  cbv beta iota zeta. by destruct (decide _) as [[H _]|_]; [simpl in H; lia|].
Qed.

(** X5. A first sample without bytes (a zero in the sample shape, or a
    flattener that returns nothing): on a key without meta and index map
    [write_array] raises [UnboundLocalError] for [end_byte], and the world
    is what it was, so neither chunk nor meta nor index map was stored. *)
Theorem write_array_zero_size_sample (array a' s : ndarray) (key : string)
    (chunk_size : nat) (batched : bool) (to_bytes : ndarray → bytes)
    (w : world) :
  normalize_and_batchify_shape array batched = inr a' →
  ndarray_getitem a' 0 = inr s → to_bytes s = [] →
  store w !! get_meta_key key = None →
  store w !! get_index_map_key key = None →
  write_array uuid1 pickle_dumps array key chunk_size batched to_bytes w
  = (inl (UnboundLocalError "end_byte"), w).
Proof.
  intros Hnorm Hget Hb Hm Hi. unfold write_array.
  erewrite bind_ok; [|by rewrite Hnorm].
  erewrite bind_ok; [|reflexivity].
  erewrite bind_ok; [|reflexivity].
  rewrite Hm, Hi.
  rewrite (bool_decide_eq_false_2 (is_Some None)) by (by intros [? ?]).
  cbn [orb].
  destruct (shape a') as [|n rest] eqn:Hshape.
  { unfold ndarray_getitem in Hget. by rewrite Hshape in Hget. }
  destruct n as [|n].
  { unfold ndarray_getitem in Hget. rewrite Hshape in Hget.
    by rewrite decide_False in Hget by lia. }
  erewrite bind_ok; [|reflexivity].
  erewrite bind_err; [done|].
  cbn [seq for_each]. erewrite bind_err; [done|].
  erewrite bind_ok; [|by rewrite Hget].
  unfold _write_sample. rewrite Hb.
  erewrite bind_err; [done|]. apply _write_bytes_empty_first.
Qed.

Lemma pool_without_tasks key meta completion samples w :
  for_each completion
    (λ samples position,
       match enumerate ([] : list index_entry) !! position with
       | Some task => run_task key meta task samples
       | None => mret samples
       end)
    samples w
  = (inr samples, w).
Proof. induction completion as [|p completion IH]; [done|]. apply IH. Qed.

(** X6. A batch without samples, written to a key without meta and index
    map: [write_array] returns, stores the meta with length 0 and the
    empty index map, and draws no chunk name.  Reading the tensor back, in
    either mode, returns the empty float64 vector of [np.array([])]:
    the element type and the sample shape of the array are not those of
    the result. *)
Theorem write_array_empty_batch (array : ndarray) (key : string)
    (chunk_size : nat) (to_bytes : ndarray → bytes) (w : world)
    (rest : list nat) :
  (∀ o, pickle_loads (pickle_dumps o) = Some o) →
  shape array = 0 :: rest →
  store w !! get_meta_key key = None →
  store w !! get_index_map_key key = None →
  let w' :=
    World (<[get_index_map_key key := pickle_dumps (PIndexMap [])]>
             (<[get_meta_key key :=
                  pickle_dumps
                    (PMeta (Meta chunk_size (dtype_name (dtype array)) 0
                              rest rest))]>
                (store w)))
      (clock w) in
  write_array uuid1 pickle_dumps array key chunk_size true to_bytes w
  = (inr tt, w')
  ∧ ∀ multi_threaded completion,
      read_array pickle_loads key slice_None multi_threaded None completion
        w'
      = (inr (NDArray np_float64 [0] []), w').
Proof.
  intros Hpickle Hshape Hm Hi w'. split.
  - unfold write_array.
    erewrite bind_ok.
    2:{ unfold normalize_and_batchify_shape. by rewrite Hshape. }
    erewrite bind_ok; [|reflexivity].
    erewrite bind_ok; [|reflexivity].
    rewrite Hm, Hi.
    rewrite (bool_decide_eq_false_2 (is_Some None)) by (by intros [? ?]).
    cbn [orb]. rewrite Hshape.
    erewrite bind_ok; [|reflexivity].
    erewrite bind_ok; [|reflexivity].
    reflexivity.
  - intros multi_threaded completion.
    unfold read_array, read_tensor_meta.
    erewrite bind_ok.
    2:{ erewrite bind_ok.
        2:{ unfold storage_getitem. subst w'. cbn [store].
            rewrite lookup_insert_ne
              by (intros E; symmetry in E;
                  by apply meta_key_not_index_map in E).
            by rewrite lookup_insert_eq. }
        unfold loads. by rewrite Hpickle. }
    erewrite bind_ok.
    2:{ erewrite bind_ok.
        2:{ unfold storage_getitem. subst w'. cbn [store].
            by rewrite lookup_insert_eq. }
        unfold loads. by rewrite Hpickle. }
    erewrite (bind_ok _ _ _ []); [reflexivity|].
    destruct multi_threaded.
    + unfold multi_threaded_get_samples.
      erewrite bind_ok; [|reflexivity].
      erewrite bind_ok; [|reflexivity].
      erewrite bind_ok; [|by rewrite list_getslice_None].
      apply pool_without_tasks.
    + unfold single_threaded_get_samples.
      erewrite bind_ok; [|reflexivity].
      erewrite bind_ok; [|by rewrite list_getslice_None].
      reflexivity.
Qed.

(** *** One entry per sample *)

Lemma ndarray_getitem_shape a n rest i s :
  shape a = n :: rest → ndarray_getitem a i = inr s →
  i < n ∧ shape s = rest ∧ dtype s = dtype a.
Proof.
  unfold ndarray_getitem. intros ->.
  case_decide; [|done]. by intros [= <-].
Qed.

Lemma write_loop_entries key chunk_size array to_bytes n rest indices
    index_map w index_map' w' :
  shape array = n :: rest →
  for_each indices (write_body uuid1 key chunk_size array to_bytes)
    index_map w = (inr index_map', w') →
  ∃ new, index_map' = index_map ++ new
         ∧ length new = length indices
         ∧ Forall (λ e, entry_shape e = Some rest) new.
Proof.
  intros Hshape. revert index_map w.
  induction indices as [|i indices IH]; intros index_map w Hrun.
  - injection Hrun as <- <-. exists []. by rewrite app_nil_r.
  - cbn [for_each] in Hrun.
    apply bind_inv_ok in Hrun as (im1 & w1 & Hbody & Hrun).
    unfold write_body in Hbody.
    apply bind_inv_ok in Hbody as (s & w0 & Hget & Hsample).
    apply lift_inv_ok in Hget as [Hget ->].
    unfold _write_sample in Hsample.
    apply bind_inv_ok in Hsample as (e & w2 & _ & Hret).
    injection Hret as <- <-.
    destruct (IH _ _ Hrun) as (new & -> & Hlen & Hall).
    destruct (ndarray_getitem_shape _ _ _ _ _ Hshape Hget)
      as (_ & Hs & _).
    eexists (_ :: new). rewrite <- app_assoc. split; [reflexivity|].
    split; [simpl; by rewrite Hlen|].
    constructor; [simpl; by rewrite Hs | done].
Qed.

(** X7. After [write_array] has returned, the meta and the index map agree
    with the array: the meta records the chunk size, the name of the
    element type, the number of samples and the sample shape (as both
    [min_shape] and [max_shape]); the index map has one entry per sample,
    each with the sample shape. *)
Theorem write_array_meta_and_index (array : ndarray) (key : string)
    (chunk_size : nat) (to_bytes : ndarray → bytes) (w w' : world)
    (batch : nat) (rest : list nat) :
  shape array = batch :: rest →
  write_array uuid1 pickle_dumps array key chunk_size true to_bytes w
  = (inr tt, w') →
  store w' !! get_meta_key key
  = Some (pickle_dumps
            (PMeta (Meta chunk_size (dtype_name (dtype array)) batch rest
                      rest)))
  ∧ ∃ index_map,
      store w' !! get_index_map_key key
      = Some (pickle_dumps (PIndexMap index_map))
      ∧ length index_map = batch
      ∧ Forall (λ e, entry_shape e = Some rest) index_map.
Proof.
  intros Hshape Hrun.
  apply write_array_inv in Hrun
    as (a' & batch' & rest' & im & w1 & Hnorm & _ & _ & Hshape' & Hloop
        & ->).
  unfold normalize_and_batchify_shape in Hnorm. rewrite Hshape in Hnorm.
  injection Hnorm as <-. rewrite Hshape in Hshape'.
  injection Hshape' as <- <-. cbn [store]. split.
  - rewrite lookup_insert_ne
      by (intros E; symmetry in E; by apply meta_key_not_index_map in E).
    apply lookup_insert_eq.
  - exists im. split; [apply lookup_insert_eq|].
    destruct (write_loop_entries _ _ _ _ _ _ _ _ _ _ _ Hshape Hloop)
      as (new & -> & Hlen & Hall).
    by rewrite length_seq in Hlen.
Qed.

End WriterEdges.

Lemma write_array_zero_size_sample_unbatched :
  write_array counter_uuid1 bitwise_dumps (NDArray np_uint8 [0] []) "t" 4
    false row_wise_to_bytes empty_world
  = (inl (UnboundLocalError "end_byte"), empty_world).
Proof.
  apply (write_array_zero_size_sample counter_uuid1 bitwise_dumps
           (NDArray np_uint8 [0] []) (NDArray np_uint8 [1; 0] [])
           (NDArray np_uint8 [0] []) "t" 4 false row_wise_to_bytes
           empty_world).
  - reflexivity.
  - reflexivity.
  - reflexivity.
  - apply lookup_empty.
  - apply lookup_empty.
Defined.

Lemma write_array_empty_batch_read :
  read_array bitwise_loads "t" slice_None true None [1; 0]
    (write_array counter_uuid1 bitwise_dumps no_samples_array "t" 4 true
       row_wise_to_bytes empty_world).2
  = (inr (NDArray np_float64 [0] []),
     (write_array counter_uuid1 bitwise_dumps no_samples_array "t" 4 true
        row_wise_to_bytes empty_world).2).
Proof.
  destruct (write_array_empty_batch counter_uuid1 bitwise_dumps
              bitwise_loads no_samples_array "t" 4 row_wise_to_bytes
              empty_world [3]) as [Hw Hr].
  - apply bitwise_loads_dumps.
  - reflexivity.
  - apply lookup_empty.
  - apply lookup_empty.
  - rewrite Hw. apply Hr.
Defined.

Lemma write_array_meta_and_index_stored :
  store stored_world !! get_meta_key "t"
  = Some (bitwise_dumps (PMeta stored_meta))
  ∧ ∃ index_map,
      store stored_world !! get_index_map_key "t"
      = Some (bitwise_dumps (PIndexMap index_map))
      ∧ length index_map = 2
      ∧ Forall (λ e, entry_shape e = Some [3]) index_map.
Proof.
  apply (write_array_meta_and_index counter_uuid1 bitwise_dumps stored_array
           "t" 4 row_wise_to_bytes empty_world stored_world 2 [3]).
  - reflexivity.
  - apply stored_world_written.
Defined.

(** ** What a write touches *)

Section Frame.
Context (uuid1 : nat → string) (Huuid : uuid_supply uuid1).
Context (pickle_dumps : pyobj → bytes) (key : string).

Lemma wco_ret {A} (Q : A → Prop) (a : A) :
  Q a → writes_chunks_only key Q (mret a).
Proof. intros HQ w r w' [= <- <-]. split; [done|]. by intros ? [= <-]. Qed.

Lemma wco_raise {A} (Q : A → Prop) (e : exn) :
  writes_chunks_only key Q (raise e).
Proof. intros w r w' [= <- <-]. by split. Qed.

Lemma wco_lift {A} (Q : A → Prop) (r : exn + A) :
  (∀ a, r = inr a → Q a) → writes_chunks_only key Q (lift r).
Proof.
  destruct r as [e|a]; intros H; [apply wco_raise|].
  apply wco_ret. by apply H.
Qed.

Lemma wco_bind {A B} (Q1 : A → Prop) (Q2 : B → Prop) (m : M A)
    (k : A → M B) :
  writes_chunks_only key Q1 m →
  (∀ a, Q1 a → writes_chunks_only key Q2 (k a)) →
  writes_chunks_only key Q2 (m ≫= k).
Proof.
  intros Hm Hk w r w'. unfold mbind, M_bind.
  destruct (m w) as [[e|a] w1] eqn:E.
  - intros [= <- <-]. destruct (Hm _ _ _ E) as [Hf _]. by split.
  - intros Hr. destruct (Hm _ _ _ E) as [Hf HQ].
    destruct (Hk a (HQ a eq_refl) _ _ _ Hr) as [Hf' HQ'].
    split; [|done]. intros k0 Hk0. rewrite Hf' by done. by apply Hf.
Qed.

Lemma wco_getitem k :
  writes_chunks_only key (λ _, True) (storage_getitem k).
Proof.
  intros w r w'. unfold storage_getitem.
  destruct (store w !! k); by intros [= <- <-].
Qed.

Lemma wco_setitem k v :
  under_chunks key k →
  writes_chunks_only key (λ _, True) (storage_setitem k v).
Proof.
  intros Hk w r w' [= <- <-]. split; [|done]. intros k0 Hk0. simpl.
  apply lookup_insert_ne. by intros ->.
Qed.

Lemma wco_for_each {A S} (I : S → Prop) (xs : list A)
    (body : S → A → M S) acc :
  I acc → (∀ acc x, I acc → writes_chunks_only key I (body acc x)) →
  writes_chunks_only key I (for_each xs body acc).
Proof.
  intros Hacc Hb. revert acc Hacc.
  induction xs as [|x xs IH]; intros acc Hacc; simpl; [by apply wco_ret|].
  eapply wco_bind; [by apply Hb|]. intros acc' Hacc'. by apply IH.
Qed.

Local Abbreviation relative := (λ name, starts_with_slash name = false).

Lemma _random_chunk_name_wco :
  writes_chunks_only key relative (_random_chunk_name uuid1).
Proof.
  intros w r w' [= <- <-]. split; [done|].
  intros a [= <-]. apply (uuid1_relative _ Huuid).
Qed.

Lemma _get_last_chunk_wco index_map :
  names_relative index_map →
  writes_chunks_only key (λ p, relative p.1) (_get_last_chunk key index_map).
Proof.
  intros Hrel. unfold _get_last_chunk.
  destruct (last index_map) as [e|] eqn:Hl; [|by apply wco_ret].
  eapply (wco_bind relative).
  - apply wco_lift. intros n Hn.
    destruct (last (chunk_names e)) as [n'|] eqn:Hln; [|done].
    injection Hn as ->.
    apply last_Some_elem_of in Hl, Hln.
    unfold names_relative in Hrel. rewrite Forall_forall in Hrel.
    specialize (Hrel e Hl). rewrite Forall_forall in Hrel. by apply Hrel.
  - intros n Hn. eapply wco_bind; [apply wco_getitem|].
    intros b _. by apply wco_ret.
Qed.

Lemma write_chunks_wco chunk_size index_map chunk_generator
    extend_last_chunk last_chunk last_chunk_name names start stop :
  relative last_chunk_name → Forall relative names →
  writes_chunks_only key (λ r, Forall relative r.1.1)
    (write_chunks uuid1 key chunk_size index_map chunk_generator
       extend_last_chunk last_chunk last_chunk_name names start stop).
Proof.
  revert extend_last_chunk last_chunk last_chunk_name names start stop.
  induction chunk_generator as [|chunk rest IH];
    intros ext lc ln names start stop Hln Hnames.
  - by apply wco_ret.
  - cbn [write_chunks].
    eapply (wco_bind (λ p, relative p.1.1.1)).
    + destruct ext.
      * eapply wco_bind; [by apply (wco_lift (λ _, True))|].
        intros prev _. by apply wco_ret.
      * eapply wco_bind; [apply _random_chunk_name_wco|].
        intros n Hn. by apply wco_ret.
    + intros [[[name chunk'] start'] ext'] Hname. simpl in Hname.
      eapply wco_bind.
      { apply wco_setitem. exists name. by apply get_chunk_key_eq. }
      intros _ _. apply IH; [done|].
      apply Forall_app. split; [done | by constructor].
Qed.

Lemma _write_bytes_wco b chunk_size index_map :
  names_relative index_map →
  writes_chunks_only key (λ e, Forall relative (chunk_names e))
    (_write_bytes uuid1 b key chunk_size index_map).
Proof.
  intros Hrel. unfold _write_bytes.
  eapply wco_bind; [by apply _get_last_chunk_wco|].
  intros [ln lc] Hln. simpl in Hln.
  destruct (decide _);
    (eapply wco_bind; [by apply write_chunks_wco|]);
    intros [[names start] [stop|]] Hn; simpl in Hn;
    first [by apply wco_ret | apply wco_raise].
Qed.

Lemma write_body_wco chunk_size array to_bytes index_map i :
  names_relative index_map →
  writes_chunks_only key names_relative
    (write_body uuid1 key chunk_size array to_bytes index_map i).
Proof.
  intros Hrel. unfold write_body.
  eapply wco_bind; [by apply (wco_lift (λ _, True))|].
  intros sample _. unfold _write_sample.
  eapply wco_bind; [by apply _write_bytes_wco|].
  intros e He. apply wco_ret.
  apply Forall_app. split; [done|]. by constructor.
Qed.

Lemma write_array_touches array chunk_size batched to_bytes w w' r :
  write_array uuid1 pickle_dumps array key chunk_size batched to_bytes w
  = (r, w') →
  (∀ k, ¬ under_chunks key k → k ≠ get_meta_key key →
        k ≠ get_index_map_key key → store w' !! k = store w !! k)
  ∧ (∀ e, r = inl e →
          store w' !! get_meta_key key = store w !! get_meta_key key
          ∧ store w' !! get_index_map_key key
            = store w !! get_index_map_key key).
Proof.
  unfold write_array. intros Hrun.
  destruct (normalize_and_batchify_shape array batched) as [e0|a'].
  { injection Hrun as <- <-. by split. }
  erewrite bind_ok in Hrun; [|reflexivity].
  erewrite bind_ok in Hrun; [|reflexivity].
  erewrite bind_ok in Hrun; [|reflexivity].
  destruct (_ || _).
  { injection Hrun as <- <-. by split. }
  destruct (shape a') as [|n rest].
  { injection Hrun as <- <-. by split. }
  erewrite bind_ok in Hrun; [|reflexivity].
  pose proof (wco_for_each names_relative (seq 0 n)
                (write_body uuid1 key chunk_size a' to_bytes) []
                ltac:(constructor)
                ltac:(intros; by apply write_body_wco)) as Hloop.
  change (λ (index_map : list index_entry) (i : nat),
            lift (ndarray_getitem a' i)
            ≫= λ sample, _write_sample uuid1 sample key chunk_size
                           index_map to_bytes)
    with (write_body uuid1 key chunk_size a' to_bytes) in Hrun.
  destruct (for_each (seq 0 n) (write_body uuid1 key chunk_size a' to_bytes)
              [] w) as [[e|im] w1] eqn:E.
  - erewrite bind_err in Hrun; [|done]. injection Hrun as <- <-.
    destruct (Hloop _ _ _ E) as [Hf _]. split.
    + intros k Hk _ _. by apply Hf.
    + intros _ _. split; apply Hf; intros Hu.
      * by eapply under_chunks_not_meta.
      * by eapply under_chunks_not_index_map.
  - erewrite bind_ok in Hrun; [|done].
    unfold write_tensor_meta in Hrun.
    erewrite bind_ok in Hrun; [|reflexivity].
    injection Hrun as <- <-.
    destruct (Hloop _ _ _ E) as [Hf _]. split; [|done].
    intros k Hk Hm Hi. cbn [store].
    rewrite !lookup_insert_ne by done. by apply Hf.
Qed.


(** X8. Whatever its outcome, [write_array] changes the store only at the
    meta key, the index map key and keys under [<key>/chunks/]; and when
    it raises, the meta key and the index map key are unchanged as well,
    so a failed write leaves at most chunks behind. *)
Theorem write_array_frame (array : ndarray) (chunk_size : nat)
    (batched : bool) (to_bytes : ndarray → bytes) (w w' : world)
    (r : exn + unit) :
  write_array uuid1 pickle_dumps array key chunk_size batched to_bytes w
  = (r, w') →
  (∀ k, ¬ under_chunks key k → k ≠ get_meta_key key →
        k ≠ get_index_map_key key → store w' !! k = store w !! k)
  ∧ (∀ e, r = inl e →
          store w' !! get_meta_key key = store w !! get_meta_key key
          ∧ store w' !! get_index_map_key key
            = store w !! get_index_map_key key).
Proof.
  intros Hrun. split.
  - by eapply write_array_touches.
  - intros e ->. by eapply write_array_touches.
Qed.

End Frame.

Lemma write_array_frame_stored :
  store stored_world !! "u/meta.json" = store empty_world !! "u/meta.json".
Proof.
  destruct (write_array_frame counter_uuid1 counter_uuid1_supply
              bitwise_dumps "t" stored_array 4 true row_wise_to_bytes
              empty_world stored_world (inr tt) stored_world_written)
    as [Hframe _].
  apply Hframe.
  - intros [name Hname]. discriminate Hname.
  - discriminate.
  - discriminate.
Defined.

(** ** How the chunks fill up *)

Section Packing.
Context (uuid1 : nat → string) (Huuid : uuid_supply uuid1).
Context (pickle_dumps : pyobj → bytes).
Context (key : string) (chunk_size : nat) (Hcs : 1 ≤ chunk_size).

Local Abbreviation ck := (chunk_key_of uuid1 key).
Local Abbreviation full := (λ x : bytes, length x = chunk_size).

Lemma covers_bounds xs s e p :
  covers chunk_size xs s e p → s ≤ chunk_size ∧ e ≤ chunk_size.
Proof. intros []; lia. Qed.

(** X9. After [write_array] has returned, every entry of the stored index map
    names at least one chunk, each chunk it names is in storage under
    [<key>/chunks/], and its two offsets are at most [chunk_size]. *)
Theorem index_entries_resolve (array : ndarray) (batched : bool)
    (to_bytes : ndarray → bytes) (w w' : world) :
  write_array uuid1 pickle_dumps array key chunk_size batched to_bytes w
  = (inr tt, w') →
  ∃ index_map,
    store w' !! get_index_map_key key
    = Some (pickle_dumps (PIndexMap index_map))
    ∧ Forall
        (λ e, chunk_names e ≠ []
              ∧ start_byte e ≤ chunk_size ∧ end_byte e ≤ chunk_size
              ∧ Forall (λ name,
                          under_chunks key (get_chunk_key key name)
                          ∧ is_Some (store w' !! get_chunk_key key name))
                  (chunk_names e))
        index_map.
Proof.
  intros Hrun.
  apply write_array_layout in Hrun
    as (a' & batch & rest & im & samples & w1 & _ & _ & _ & _ & Hlay
        & _ & _ & ->); [|done..].
  exists im. split; [apply lookup_insert_eq|].
  pose proof (lay_entries _ _ _ _ _ _ _ _ Hlay) as Hentries.
  apply Forall_forall. intros e He.
  apply list_elem_of_lookup in He as [i He].
  destruct (Forall2_lookup_l _ _ _ _ _ Hentries He)
    as (p & _ & js & xs & Hnames & _ & Hxs & Hcov).
  destruct (covers_bounds _ _ _ _ Hcov) as [Hs Hend].
  split_and!; [|done|done|].
  - rewrite Hnames. intros E. apply fmap_nil_inv in E. subst js.
    apply Forall2_nil_inv_l in Hxs. subst xs.
    by apply covers_nonempty in Hcov.
  - rewrite Hnames. apply Forall_fmap, Forall_forall. intros j Hj.
    apply list_elem_of_lookup in Hj as [i' Hj].
    destruct (Forall2_lookup_l _ _ _ _ _ Hxs Hj) as (x & _ & Hx).
    simpl. split; [by apply (chunk_key_of_under uuid1 Huuid)|].
    cbn [store]. rewrite lookup_after_meta; [by eexists|].
    by apply (chunk_key_of_under uuid1 Huuid).
Qed.

(** *** Dense packing *)

Lemma chunked_full_prefix mid rest :
  Forall full mid → chunked chunk_size rest → rest ≠ [] →
  chunked chunk_size (mid ++ rest).
Proof.
  intros Hmid Hrest Hne. induction Hmid as [|x mid Hx Hmid IH]; [done|].
  simpl. apply chunked_cons; [done | | done]. by destruct mid.
Qed.

Lemma chunked_all_full qs :
  chunked chunk_size qs → (∀ q, last qs = Some q → length q = chunk_size) →
  Forall full qs.
Proof.
  induction 1 as [|c Hc|c rest Hc Hne Hch IH]; intros Hlast.
  - constructor.
  - constructor; [by apply Hlast | constructor].
  - constructor; [done|]. apply IH. intros q Hq. apply Hlast.
    destruct rest; [done|]. by rewrite last_cons_cons.
Qed.

Lemma chunked_head t' qs2 :
  1 ≤ length t' ≤ chunk_size → (qs2 ≠ [] → length t' = chunk_size) →
  chunked chunk_size qs2 → chunked chunk_size (t' :: qs2).
Proof.
  intros Hlen Hfull Hch. destruct qs2 as [|q qs2].
  - by apply chunked_last.
  - apply chunked_cons; [by apply Hfull | done | done].
Qed.

Lemma packed_fresh n0 w ps b :
  packed uuid1 key chunk_size n0 w ps → b ≠ [] →
  (∀ j x, S j = clock w → n0 ≤ j → store w !! ck j = Some x →
          length x = chunk_size) →
  let qs2 := split_chunks (length b) chunk_size b in
  packed uuid1 key chunk_size n0
    (World (put_chunks uuid1 key (clock w) qs2 (store w))
       (clock w + length qs2))
    (ps ++ [b]).
Proof.
  intros (qs & Hch & Hcat & Hclock & Hlook) Hb Hfull qs2.
  destruct (split_chunks_spec chunk_size Hcs (length b) b ltac:(done))
    as [Hch2 Hcat2]. fold qs2 in Hch2, Hcat2.
  assert (qs2 ≠ []) as Hne2 by (by apply split_chunks_nonempty).
  exists (qs ++ qs2). split_and!.
  - apply chunked_full_prefix; [|done..].
    apply chunked_all_full; [done|]. intros q Hq.
    rewrite last_lookup in Hq.
    assert (0 < length qs) as Hpos.
    { destruct qs; [done | simpl; lia]. }
    apply (Hfull (n0 + pred (length qs))); [lia | lia | by apply Hlook].
  - rewrite !concat_app, Hcat, Hcat2. simpl. by rewrite app_nil_r.
  - cbn [clock]. rewrite length_app. lia.
  - intros i q Hq. cbn [store].
    destruct (decide (i < length qs)) as [Hi|Hi].
    + rewrite lookup_app_l in Hq by done.
      rewrite (put_chunks_lookup_old uuid1 Huuid key chunk_size Hcs) by lia. by apply Hlook.
    + rewrite lookup_app_r in Hq by lia.
      replace (n0 + i) with (clock w + (i - length qs)) by lia.
      rewrite (put_chunks_lookup uuid1 Huuid key chunk_size Hcs); [done|].
      by eapply lookup_lt_Some.
Qed.

Lemma packed_extend n0 w ps b j t :
  packed uuid1 key chunk_size n0 w ps → b ≠ [] →
  S j = clock w → n0 ≤ j → store w !! ck j = Some t →
  length t < chunk_size →
  let first := take (chunk_size - length t) b in
  let qs2 := split_chunks (length b) chunk_size
               (drop (chunk_size - length t) b) in
  packed uuid1 key chunk_size n0
    (World (put_chunks uuid1 key (clock w) qs2
              (<[ck j := t ++ first]> (store w)))
       (clock w + length qs2))
    (ps ++ [b]).
Proof.
  intros (qs & Hch & Hcat & Hclock & Hlook) Hb Hj Hn0 Ht Hpart first qs2.
  set (rest := drop (chunk_size - length t) b).
  destruct (split_chunks_spec chunk_size Hcs (length b) rest) as [Hch2 Hcat2].
  { subst rest. rewrite length_drop. lia. }
  change (chunked chunk_size qs2) in Hch2.
  change (concat qs2 = rest) in Hcat2.
  assert (first ++ rest = b) as Hsplit by apply take_drop.
  assert (1 ≤ length first ≤ chunk_size - length t) as Hfirst.
  { subst first. rewrite length_take. destruct b; [done | simpl; lia]. }
  assert (qs2 ≠ [] → length (t ++ first) = chunk_size) as Hfills.
  { intros Hqs. rewrite length_app.
    assert (rest ≠ []) as Hrest.
    { intros E. apply Hqs. unfold qs2. fold rest. rewrite E.
      apply split_chunks_nil. }
    assert (length rest ≠ 0) as Hlr by (by destruct rest).
    subst rest first. rewrite length_drop in Hlr. rewrite length_take.
    lia. }
  destruct (chunked_snoc_inv chunk_size Hcs qs Hch) as (mid & q & -> & Hmid & Hq).
  { intros ->. simpl in Hclock. lia. }
  rewrite length_app in Hclock. simpl in Hclock.
  assert (j = n0 + length mid) as Hjm by lia.
  assert (q = t) as ->.
  { specialize (Hlook (length mid) q).
    rewrite list_lookup_middle in Hlook by done.
    specialize (Hlook eq_refl). rewrite <- Hjm in Hlook. congruence. }
  exists (mid ++ (t ++ first) :: qs2). split_and!.
  - apply chunked_full_prefix; [done | | done].
    apply chunked_head; [rewrite length_app; lia | done | done].
  - rewrite concat_app in Hcat. simpl in Hcat. rewrite app_nil_r in Hcat.
    rewrite !concat_app. simpl. rewrite Hcat2, app_nil_r, <- Hcat, <- Hsplit.
    by rewrite <- !app_assoc.
  - cbn [clock]. rewrite length_app. simpl. lia.
  - intros i x Hx. cbn [store].
    destruct (decide (i < length mid)) as [Hi|Hi].
    + rewrite lookup_app_l in Hx by done.
      rewrite (put_chunks_lookup_old uuid1 Huuid key chunk_size Hcs) by lia.
      rewrite lookup_insert_ne.
      * apply Hlook. by rewrite lookup_app_l.
      * intros E. apply (chunk_key_of_inj uuid1 Huuid) in E. lia.
    + rewrite lookup_app_r in Hx by lia.
      destruct (i - length mid) as [|i'] eqn:Hi'.
      * injection Hx as <-.
        rewrite (put_chunks_lookup_old uuid1 Huuid key chunk_size Hcs) by lia.
        replace (n0 + i) with j by lia. apply lookup_insert_eq.
      * simpl in Hx.
        replace (n0 + i) with (clock w + i') by lia.
        rewrite (put_chunks_lookup uuid1 Huuid key chunk_size Hcs); [done|].
        by eapply lookup_lt_Some.
Qed.

Lemma packed_sample st0 n0 w index_map ps sample to_bytes index_map' w' :
  layout uuid1 key chunk_size st0 n0 w index_map ps →
  packed uuid1 key chunk_size n0 w ps → to_bytes sample ≠ [] →
  _write_sample uuid1 sample key chunk_size index_map to_bytes w
  = (inr index_map', w') →
  packed uuid1 key chunk_size n0 w' (ps ++ [to_bytes sample]).
Proof.
  intros Hlay Hpack Hb Hrun. unfold _write_sample in Hrun.
  pose proof (lay_tail _ _ _ _ _ _ _ _ Hlay) as Htail.
  destruct (last index_map) as [e|] eqn:Hlast.
  - destruct Htail as (j & t & Hj & Hn0 & Hname & Ht & Hend).
    pose proof (_get_last_chunk_some key index_map e (uuid1 j) t w Hlast
                  Hname Ht) as Hget.
    destruct (decide (length t < chunk_size)) as [Hpart|Hfull].
    + erewrite bind_ok in Hrun;
        [|by eapply (_write_bytes_extend uuid1 key chunk_size Hcs)].
      injection Hrun as _ <-. by apply packed_extend.
    + destruct (_write_bytes_fresh uuid1 key chunk_size Hcs index_map w
                  (to_bytes sample) (uuid1 j) t Hget ltac:(tauto) Hb)
        as (q & Hq & Hw).
      erewrite bind_ok in Hrun; [|exact Hw].
      injection Hrun as _ <-. apply packed_fresh; [done | done |].
      intros j' x Hj' _ Hx. assert (j' = j) as -> by lia.
      destruct (lay_chunks _ _ _ _ _ _ _ _ Hlay j ltac:(lia))
        as (x' & Hx' & Hlen & _).
      simplify_eq. lia.
  - apply last_None in Hlast. subst index_map.
    destruct (_write_bytes_fresh uuid1 key chunk_size Hcs [] w
                (to_bytes sample) "" [] (_get_last_chunk_nil key w)
                ltac:(simpl; lia) Hb) as (q & Hq & Hw).
    erewrite bind_ok in Hrun; [|exact Hw].
    injection Hrun as _ <-. apply packed_fresh; [done | done |].
    intros j' x Hj' Hn0 Hx. simpl in Htail. lia.
Qed.

Lemma packed_loop st0 n0 array to_bytes indices w index_map ps
    index_map' w' :
  layout uuid1 key chunk_size st0 n0 w index_map ps →
  packed uuid1 key chunk_size n0 w ps →
  for_each indices (write_body uuid1 key chunk_size array to_bytes)
    index_map w = (inr index_map', w') →
  ∃ samples,
    Forall2 (λ i s, ndarray_getitem array i = inr s) indices samples
    ∧ packed uuid1 key chunk_size n0 w' (ps ++ (to_bytes <$> samples)).
Proof.
  revert w index_map ps.
  induction indices as [|i indices IH]; intros w index_map ps Hlay Hp Hrun.
  - injection Hrun as <- <-. exists []. rewrite app_nil_r.
    split; [constructor | done].
  - cbn [for_each] in Hrun.
    apply bind_inv_ok in Hrun as (im1 & w1 & Hbody & Hrun).
    unfold write_body in Hbody.
    apply bind_inv_ok in Hbody as (sample & w0 & Hget & Hws).
    apply lift_inv_ok in Hget as [Hget ->].
    destruct (decide (to_bytes sample = [])) as [Hb|Hb].
    { destruct (_write_sample_empty uuid1 key chunk_size sample to_bytes
                  index_map w Hb) as (e & w2 & He). congruence. }
    pose proof (packed_sample _ _ _ _ _ _ _ _ _ Hlay Hp Hb Hws) as Hp1.
    destruct (_write_sample_layout uuid1 Huuid key chunk_size Hcs st0 n0 w
                index_map ps sample to_bytes Hlay Hb)
      as (e' & w2 & Hw & _ & Hlay').
    rewrite Hw in Hws. injection Hws as <- <-.
    destruct (IH _ _ _ Hlay' Hp1 Hrun) as (samples & Hs & Hp').
    exists (sample :: samples). split; [by constructor|].
    rewrite fmap_cons. rewrite <- (app_assoc ps) in Hp'. exact Hp'.
Qed.


Lemma chunked_count qs :
  chunked chunk_size qs →
  length qs = (length (concat qs) + chunk_size - 1) / chunk_size.
Proof.
  induction 1 as [|c Hc|c rest Hc Hne Hch IH]; simpl.
  - symmetry. apply Nat.div_small. lia.
  - rewrite app_nil_r. symmetry.
    symmetry. apply (Nat.div_unique _ _ 1 (length c - 1)); lia.
  - rewrite length_app, Hc, IH.
    replace (chunk_size + length (concat rest) + chunk_size - 1)
      with (1 * chunk_size + (length (concat rest) + chunk_size - 1))
      by lia.
    rewrite Nat.div_add_l by lia. done.
Qed.

(** X24. The number of chunks a returned batched [write_array] of a
    well-formed array has created (the number of names it has drawn) is
    the size of the array's buffer divided by [chunk_size], rounded up:
    samples never start a chunk of their own while the last chunk has
    room. *)
Theorem chunk_count (array : ndarray) (batch : nat) (rest : list nat)
    (w w' : world) :
  ndarray_wf array → shape array = batch :: rest →
  write_array uuid1 pickle_dumps array key chunk_size true
    row_wise_to_bytes w = (inr tt, w') →
  clock w' - clock w
  = (length (data array) + chunk_size - 1) / chunk_size.
Proof.
  intros Hwf Hshape Hrun.
  apply write_array_inv in Hrun
    as (a' & batch' & rest' & im & w1 & Hnorm & _ & _ & Hshape' & Hloop
        & ->).
  unfold normalize_and_batchify_shape in Hnorm. rewrite Hshape in Hnorm.
  injection Hnorm as <-. rewrite Hshape in Hshape'.
  injection Hshape' as <- <-.
  destruct (packed_loop (store w) (clock w) array row_wise_to_bytes
              (seq 0 batch) w [] [] im w1) as (samples & Hs & Hp);
    [by apply layout_init | | done |].
  { exists []. split_and!; [constructor | done | simpl; lia | done]. }
  destruct Hp as (qs & Hch & Hcat & Hclock & _).
  cbn [clock]. rewrite Hclock, (chunked_count qs Hch), Hcat. simpl.
  change (row_wise_to_bytes <$> samples) with (data <$> samples).
  rewrite (Forall2_fmap_eq
             (λ i, bytes_slice (data array)
                     (i * (itemsize (dtype array) * prod_shape rest))
                     (i * (itemsize (dtype array) * prod_shape rest)
                      + itemsize (dtype array) * prod_shape rest))
             data (seq 0 batch) samples).
  - rewrite concat_rows, take_ge; [lia|].
    unfold ndarray_wf in Hwf. rewrite Hshape in Hwf. simpl in Hwf. lia.
  - eapply Forall2_impl; [exact Hs|]. intros i s Hget.
    by destruct (ndarray_getitem_wf array batch rest i s Hwf Hshape Hget)
      as (_ & _ & _ & -> & _).
Qed.

End Packing.

Lemma index_entries_resolve_stored :
  ∃ index_map,
    store stored_world !! get_index_map_key "t"
    = Some (bitwise_dumps (PIndexMap index_map))
    ∧ Forall
        (λ e, chunk_names e ≠ []
              ∧ start_byte e ≤ 4 ∧ end_byte e ≤ 4
              ∧ Forall (λ name,
                          under_chunks "t" (get_chunk_key "t" name)
                          ∧ is_Some (store stored_world
                                     !! get_chunk_key "t" name))
                  (chunk_names e))
        index_map.
Proof.
  apply (index_entries_resolve counter_uuid1 counter_uuid1_supply
           bitwise_dumps "t" 4 ltac:(lia) stored_array true
           row_wise_to_bytes empty_world stored_world).
  apply stored_world_written.
Defined.


Lemma chunk_count_stored :
  clock stored_world - clock empty_world = (length (data stored_array) + 4 - 1) / 4.
Proof.
  apply (chunk_count counter_uuid1 counter_uuid1_supply bitwise_dumps "t" 4
           ltac:(lia) stored_array 2 [3] empty_world stored_world).
  - reflexivity.
  - reflexivity.
  - apply stored_world_written.
Defined.

(** ** The tensor view and the round trips through it *)

Section TensorFacts.
Context (uuid1 : nat → string).
Context (pickle_dumps : pyobj → bytes) (pickle_loads : bytes → option pyobj).
Context (merge_slices : pyslice → pyslice → option pyslice).

Local Abbreviation init := (Tensor_init pickle_loads).
Local Abbreviation getitem := (Tensor_getitem pickle_loads merge_slices).
Local Abbreviation setitem :=
  (Tensor_setitem uuid1 pickle_dumps pickle_loads merge_slices).
Local Abbreviation iter := (Tensor_iter pickle_loads merge_slices).

Lemma Tensor_init_read_only key sl : read_only (init key sl).
Proof.
  unfold Tensor_init, load_meta.
  apply read_only_bind; [apply read_tensor_meta_read_only|]. intros meta.
  apply read_only_bind; [apply read_only_lift|]. intros m.
  apply read_only_ret.
Qed.

Lemma Tensor_getitem_read_only self item : read_only (getitem self item).
Proof.
  unfold Tensor_getitem. apply read_only_bind.
  - destruct (merge_slices _ _); [apply read_only_ret | apply read_only_raise].
  - intros s. apply Tensor_init_read_only.
Qed.

Lemma Tensor_iter_read_only self : read_only (iter self).
Proof.
  unfold Tensor_iter. apply read_only_for_each. intros views i.
  apply read_only_bind; [apply Tensor_getitem_read_only|].
  intros view. apply read_only_ret.
Qed.

(** X11. Subscripting a view, iterating over it and [numpy()] never write:
    whatever they return or raise, the world is afterwards what it was. *)
Theorem Tensor_reads_leave_world (self : Tensor) (item : subscript)
    (completion : list nat) (w : world) :
  (getitem self item w).2 = w
  ∧ (iter self w).2 = w
  ∧ (Tensor_numpy pickle_loads self completion w).2 = w.
Proof.
  split_and!.
  - apply Tensor_getitem_read_only.
  - apply Tensor_iter_read_only.
  - apply read_array_is_read_only.
Qed.

(** What the constructor has read when it returns. *)
Lemma Tensor_init_ok key sl w t w' :
  init key sl w = (inr t, w') →
  w' = w
  ∧ ∃ b m, store w !! get_meta_key key = Some b
           ∧ pickle_loads b = Some (PMeta m)
           ∧ t = MkTensor key sl (meta_length m) (meta_max_shape m).
Proof.
  unfold Tensor_init, load_meta, read_tensor_meta. simpl.
  unfold mbind, M_bind, storage_getitem, loads.
  destruct (store w !! get_meta_key key) as [b|] eqn:Hb; [|done].
  destruct (pickle_loads b) as [[m|im]|] eqn:Hl; simpl; [|done..].
  intros [= <- <-]. split; [done|]. by exists b, m.
Qed.

Lemma Tensor_getitem_ok self item w t w' :
  getitem self item w = (inr t, w') →
  merge_slices (tensor_slice self) (subscript_slice item)
  = Some (tensor_slice t)
  ∧ init (tensor_key self) (tensor_slice t) w = (inr t, w').
Proof.
  unfold Tensor_getitem. intros H.
  apply bind_inv_ok in H as (s & w0 & Hs & Hinit).
  change (match item with
          | SubInt item0 => Slice (Some item0) (Some (item0 + 1)%Z) None
          | SubSlice item0 => item0
          end) with (subscript_slice item) in Hs.
  destruct (merge_slices _ _) as [s'|]; [|done].
  injection Hs as -> ->.
  pose proof Hinit as Hinit'.
  apply Tensor_init_ok in Hinit' as (_ & b & m & _ & _ & ->).
  by split.
Qed.

(** X12. [Tensor.__setitem__] never returns and never writes: for every view,
    subscript, value and world it raises, and the world is afterwards
    what it was.  When the subscript composes to the unrestricted slice,
    the derived view has just been built from the meta of the tensor, so
    [write_array] finds the tensor and refuses. *)
Theorem Tensor_setitem_always_raises (self : Tensor) (item : subscript)
    (value : ndarray) (w : world) :
  ∃ e, setitem self item value w = (inl e, w).
Proof.
  unfold Tensor_setitem.
  destruct (read_only_run (getitem self item) w
              (Tensor_getitem_read_only self item)) as [[e|t] Hget].
  - exists e. by erewrite bind_err.
  - erewrite bind_ok; [|done].
    case_decide; [by eexists|].
    apply Tensor_getitem_ok in Hget as [_ Hinit].
    apply Tensor_init_ok in Hinit as (_ & b & m & Hb & _ & _).
    destruct (write_array_view uuid1 pickle_dumps value (tensor_key self)
                DEFAULT_CHUNK_SIZE row_wise_to_bytes w
                ltac:(by eexists)) as (e & He & _).
    exists e. by erewrite bind_err.
Qed.

(** X13. A derived view keeps the key of its parent and, whatever its slice,
    reports the length and the shape of the whole tensor: [len(t[a:b])]
    is [len(t)]. *)
Theorem Tensor_getitem_keeps_length (self t : Tensor) (item : subscript)
    (w w' : world) :
  is_view pickle_loads self w →
  getitem self item w = (inr t, w') →
  w' = w
  ∧ tensor_key t = tensor_key self
  ∧ Tensor_len t = Tensor_len self
  ∧ tensor_shape t = tensor_shape self
  ∧ merge_slices (tensor_slice self) (subscript_slice item)
    = Some (tensor_slice t)
  ∧ is_view pickle_loads t w.
Proof.
  intros Hview Hget.
  apply Tensor_getitem_ok in Hget as [Hmerge Hinit].
  pose proof Hinit as Hinit'.
  apply Tensor_init_ok in Hinit' as (-> & b & m & Hb & Hm & Ht).
  apply Tensor_init_ok in Hview as (_ & b' & m' & Hb' & Hm' & Hself).
  simplify_eq. rewrite Hself, Ht. simpl.
  split_and!; try done.
  unfold is_view. rewrite Ht in Hinit. rewrite Ht. simpl in *.
  rewrite Hself in Hinit. simpl in Hinit. exact Hinit.
Qed.

(** *** Iteration *)

Lemma Tensor_iter_loop self w (f : nat → pyslice) n k views :
  is_view pickle_loads self w →
  (∀ i, merge_slices (tensor_slice self)
          (subscript_slice (SubInt (Z.of_nat i))) = Some (f i)) →
  for_each (seq k n)
    (λ views i,
       view ← getitem self (SubInt (Z.of_nat i));
       mret (views ++ [view]))
    views w
  = (inr (views
          ++ ((λ i, MkTensor (tensor_key self) (f i) (num_samples self)
                      (tensor_shape self)) <$> seq k n)), w).
Proof.
  intros Hview Hf.
  assert (∀ i, getitem self (SubInt (Z.of_nat i)) w
               = (inr (MkTensor (tensor_key self) (f i) (num_samples self)
                         (tensor_shape self)), w)) as Hget.
  { intros i. unfold Tensor_getitem.
    change (Slice (Some (Z.of_nat i)) (Some (Z.of_nat i + 1)%Z) None)
      with (subscript_slice (SubInt (Z.of_nat i))).
    rewrite Hf. erewrite bind_ok; [|reflexivity].
    destruct (Tensor_init_slice pickle_loads _ _ (f i) _ _ Hview)
      as (t' & Ht' & _ & _).
    pose proof Ht' as Ht''.
    apply Tensor_init_ok in Ht'' as (_ & b & m & Hb & Hm & Heq).
    pose proof Hview as Hview'.
    apply Tensor_init_ok in Hview' as (_ & b' & m' & Hb' & Hm' & Hself).
    rewrite Hb in Hb'. injection Hb' as <-.
    rewrite Hm in Hm'. injection Hm' as <-.
    rewrite Ht', Heq. do 2 f_equal.
    destruct self as [skey ssl sn sshp]. simpl in *.
    by injection Hself as -> ->. }
  revert k views. induction n as [|n IH]; intros k views; simpl.
  - by rewrite app_nil_r.
  - erewrite bind_ok; [|erewrite bind_ok; [reflexivity | apply Hget]].
    rewrite IH. by rewrite <- app_assoc.
Qed.

(** X14. Iterating over a view of the store whose slice composes with every
    integer subscript yields one derived view per sample of the whole
    tensor ([len] ignores the slice of the view), the [i]-th with the
    slice composed from [(i, i+1)], and each reporting the length of the
    whole tensor again. *)
Theorem Tensor_iter_views (self : Tensor) (w : world) :
  is_view pickle_loads self w →
  (∀ i, is_Some (merge_slices (tensor_slice self)
                   (subscript_slice (SubInt (Z.of_nat i))))) →
  ∃ views,
    iter self w = (inr views, w)
    ∧ length views = Tensor_len self
    ∧ ∀ i t, views !! i = Some t →
             tensor_key t = tensor_key self
             ∧ Tensor_len t = Tensor_len self
             ∧ merge_slices (tensor_slice self)
                 (subscript_slice (SubInt (Z.of_nat i)))
               = Some (tensor_slice t).
Proof.
  intros Hview Hmerge.
  set (f := λ i, default slice_None
                   (merge_slices (tensor_slice self)
                      (subscript_slice (SubInt (Z.of_nat i))))).
  assert (∀ i, merge_slices (tensor_slice self)
                 (subscript_slice (SubInt (Z.of_nat i))) = Some (f i))
    as Hf.
  { intros i. unfold f. destruct (Hmerge i) as [s Hs]. by rewrite Hs. }
  eexists. split; [|split].
  - unfold Tensor_iter. by apply (Tensor_iter_loop self w f).
  - simpl. by rewrite length_fmap, length_seq.
  - intros i t Ht. simpl in Ht.
    rewrite list_lookup_fmap in Ht.
    destruct (seq 0 (Tensor_len self) !! i) as [j|] eqn:Hj; [|done].
    apply lookup_seq in Hj as [-> _]. simpl in Ht.
    injection Ht as <-. simpl. split_and!; [done | done | apply Hf].
Qed.

(** *** After a write *)

(** X15. The view built on a tensor that [write_array] has just written, with
    any slice: its length is the number of samples and its shape is the
    sample shape of the array. *)
Theorem Tensor_after_write (array : ndarray) (key : string)
    (chunk_size : nat) (to_bytes : ndarray → bytes) (w w' : world)
    (batch : nat) (rest : list nat) (sl : pyslice) :
  (∀ o, pickle_loads (pickle_dumps o) = Some o) →
  shape array = batch :: rest →
  write_array uuid1 pickle_dumps array key chunk_size true to_bytes w
  = (inr tt, w') →
  init key sl w' = (inr (MkTensor key sl batch rest), w')
  ∧ Tensor_len (MkTensor key sl batch rest) = batch.
Proof.
  intros Hpickle Hshape Hrun. split; [|done].
  apply write_array_inv in Hrun
    as (a' & batch' & rest' & im & w1 & Hnorm & _ & _ & Hshape' & _ & ->).
  unfold normalize_and_batchify_shape in Hnorm. rewrite Hshape in Hnorm.
  injection Hnorm as <-. rewrite Hshape in Hshape'.
  injection Hshape' as <- <-.
  unfold Tensor_init, load_meta, read_tensor_meta.
  erewrite bind_ok.
  2:{ erewrite bind_ok.
      2:{ unfold storage_getitem. cbn [store].
          rewrite lookup_insert_ne
            by (intros E; symmetry in E;
                by apply meta_key_not_index_map in E).
          by rewrite lookup_insert_eq. }
      unfold loads. by rewrite Hpickle. }
  erewrite bind_ok.
  2:{ reflexivity. }
  reflexivity.
Qed.

End TensorFacts.

Lemma Tensor_getitem_keeps_length_stored :
  Tensor_len (MkTensor "t" (Slice (Some 0%Z) (Some 1%Z) None) 2 [3])
  = Tensor_len stored_view.
Proof.
  destruct (Tensor_getitem_keeps_length bitwise_loads trivial_merge_slices
              stored_view
              (MkTensor "t" (Slice (Some 0%Z) (Some 1%Z) None) 2 [3])
              (SubInt 0) stored_world stored_world stored_view_is_view)
    as (_ & _ & Hlen & _).
  - vm_compute. reflexivity.
  - exact Hlen.
Defined.

Lemma Tensor_iter_views_stored :
  ∃ views,
    Tensor_iter bitwise_loads trivial_merge_slices stored_view stored_world
    = (inr views, stored_world)
    ∧ length views = 2.
Proof.
  destruct (Tensor_iter_views bitwise_loads trivial_merge_slices stored_view
              stored_world stored_view_is_view) as (views & Hrun & Hlen & _).
  - intros i. by eexists.
  - exists views. by split.
Defined.

Lemma Tensor_after_write_stored :
  Tensor_init bitwise_loads "t" slice_None stored_world
  = (inr stored_view, stored_world).
Proof.
  apply (Tensor_after_write counter_uuid1 bitwise_dumps bitwise_loads
           stored_array "t" 4 row_wise_to_bytes empty_world stored_world
           2 [3] slice_None).
  - apply bitwise_loads_dumps.
  - reflexivity.
  - apply stored_world_written.
Defined.

(** ** Round trips *)

Section RoundTrips.
Context (uuid1 : nat → string).
Context (pickle_dumps : pyobj → bytes) (pickle_loads : bytes → option pyobj).



(** X18. The dataset meta is stored under "meta.json" at the root of the
    provider, without an existence check: [write_dataset_meta] returns in
    every world, [read_dataset_meta] then returns the record, and no other
    key is touched.  The tensor with the empty key has the same meta key,
    so after [write_dataset_meta] a batched [write_array] to the empty key
    is refused. *)
Theorem dataset_meta_roundtrip (meta : pyobj) (w : world) :
  (∀ o, pickle_loads (pickle_dumps o) = Some o) →
  let w' := World (<[META_FILENAME := pickle_dumps meta]> (store w))
              (clock w) in
  write_dataset_meta pickle_dumps meta w = (inr tt, w')
  ∧ read_dataset_meta pickle_loads w' = (inr meta, w')
  ∧ (∀ k, k ≠ META_FILENAME → store w' !! k = store w !! k)
  ∧ (∀ array chunk_size to_bytes,
       shape array ≠ [] →
       write_array uuid1 pickle_dumps array "" chunk_size true to_bytes w'
       = (inl already_exists, w')).
Proof.
  intros Hpickle w'. split_and!.
  - reflexivity.
  - unfold read_dataset_meta.
    erewrite bind_ok.
    2:{ unfold storage_getitem. subst w'. cbn [store].
        by rewrite lookup_insert_eq. }
    unfold loads. by rewrite Hpickle.
  - intros k Hk. subst w'. cbn [store]. by apply lookup_insert_ne.
  - intros array chunk_size to_bytes Hrank.
    apply write_array_exists; [done|]. left.
    subst w'. cbn [store].
    change (get_meta_key "") with META_FILENAME.
    rewrite lookup_insert_eq. by eexists.
Qed.

End RoundTrips.


Lemma dataset_meta_roundtrip_empty :
  read_dataset_meta bitwise_loads
    (World (<[META_FILENAME := bitwise_dumps (PMeta stored_meta)]>
              (store empty_world)) (clock empty_world))
  = (inr (PMeta stored_meta),
     World (<[META_FILENAME := bitwise_dumps (PMeta stored_meta)]>
              (store empty_world)) (clock empty_world)).
Proof.
  destruct (dataset_meta_roundtrip counter_uuid1 bitwise_dumps bitwise_loads
              (PMeta stored_meta) empty_world bitwise_loads_dumps)
    as (_ & Hread & _).
  exact Hread.
Defined.

(** ** Reading a range of samples *)

Section SliceReads.
Context (uuid1 : nat → string) (Huuid : uuid_supply uuid1).
Context (pickle_dumps : pyobj → bytes) (pickle_loads : bytes → option pyobj).
Context (Hpickle : ∀ o, pickle_loads (pickle_dumps o) = Some o).

Lemma omap_lookup_Forall2 {A B} (P : A → B → Prop) (l : list A)
    (k : list B) (f : nat → nat) (indices : list nat) :
  Forall2 P l k →
  Forall2 P (omap (λ i, l !! f i) indices) (omap (λ i, k !! f i) indices).
Proof.
  intros H. induction indices as [|i indices IH]; [constructor|].
  cbn [omap list_omap].
  change (list_omap nat A (λ i, l !! f i) indices)
    with (omap (λ i, l !! f i) indices).
  change (list_omap nat B (λ i, k !! f i) indices)
    with (omap (λ i, k !! f i) indices).
  destruct (l !! f i) as [x|] eqn:Hx.
  - destruct (Forall2_lookup_l _ _ _ _ _ H Hx) as (y & -> & HP).
    by constructor.
  - apply lookup_ge_None in Hx. rewrite (Forall2_length _ _ _ H) in Hx.
    apply lookup_ge_None in Hx. by rewrite Hx.
Qed.

(** A slice selects the same positions from two lists of one length. *)
Lemma list_getslice_Forall2 {A B} (P : A → B → Prop) (l : list A)
    (k : list B) (s : pyslice) :
  Forall2 P l k →
  match list_getslice l s, list_getslice k s with
  | inr l', inr k' => Forall2 P l' k'
  | inl e, inl e' => e = e'
  | _, _ => False
  end.
Proof.
  intros H. unfold list_getslice. rewrite (Forall2_length _ _ _ H).
  destruct (slice_indices s (Z.of_nat (length k))) as [e|[[start stop] step]];
    [done|].
  apply (omap_lookup_Forall2 P l k
           (λ i, Z.to_nat (start + Z.of_nat i * step))). exact H.
Qed.

(** What a returned [write_array] has stored for the reader. *)
Lemma written_samples array key chunk_size w w' batch rest :
  1 ≤ chunk_size → ndarray_wf array → shape array = batch :: rest →
  write_array uuid1 pickle_dumps array key chunk_size true
    row_wise_to_bytes w = (inr tt, w') →
  ∃ index_map rows,
    store w' !! get_meta_key key
    = Some (pickle_dumps
              (PMeta (Meta chunk_size (dtype_name (dtype array)) batch rest
                        rest)))
    ∧ store w' !! get_index_map_key key
      = Some (pickle_dumps (PIndexMap index_map))
    ∧ Forall2 (λ i s, ndarray_getitem array i = inr s) (seq 0 batch) rows
    ∧ Forall2 (sample_stored key (dtype array) w') index_map rows.
Proof.
  intros Hcs Hwf Hshape Hwrite.
  apply write_array_layout in Hwrite
    as (a' & batch' & rest' & im & samples' & w1 & Hnorm & Hshape'
        & Hsamples' & Hshapes & Hlay & _ & _ & ->); [|done..].
  unfold normalize_and_batchify_shape in Hnorm. rewrite Hshape in Hnorm.
  injection Hnorm as <-. rewrite Hshape in Hshape'.
  injection Hshape' as <- <-.
  exists im, samples'. split_and!; [| apply lookup_insert_eq | done |].
  - cbn [store]. rewrite lookup_insert_ne
      by (intros E; symmetry in E; by apply meta_key_not_index_map in E).
    apply lookup_insert_eq.
  - pose proof (lay_entries _ _ _ _ _ _ _ _ Hlay) as Hentries.
    apply Forall2_same_length_lookup_2.
    { by eapply Forall2_length. }
    intros i e s He Hs.
    destruct (Forall2_lookup_l _ _ _ _ _ Hentries He) as (p & Hp & Hok).
    rewrite list_lookup_fmap, Hs in Hp. injection Hp as <-.
    pose proof (Forall2_lookup_lr _ _ _ _ _ _ Hshapes He Hs) as Hes.
    destruct (Forall2_lookup_r _ _ _ _ _ Hsamples' Hs) as (i' & _ & Hget).
    destruct (ndarray_getitem_wf array batch rest i' s Hwf Hshape Hget)
      as (_ & Hd & Hss & _ & Hlen).
    destruct Hok as (js & xs & Hnames & Hjs & Hxs & Hcov).
    split_and!; [|done|done|by rewrite Hss].
    exists xs. split; [|by apply covers_join in Hcov].
    rewrite Hnames. apply Forall2_fmap_l.
    eapply Forall2_impl; [exact Hxs|]. intros j x Hx. simpl.
    rewrite lookup_after_meta; [done|].
    by apply (chunk_key_of_under uuid1 Huuid).
Qed.

Lemma rows_native (array : ndarray) (batch : nat) (rest : list nat)
    (indices : list nat) (rows : list ndarray) :
  ndarray_wf array → shape array = batch :: rest →
  byteorder (dtype array) = native_order →
  Forall2 (λ i s, ndarray_getitem array i = inr s) indices rows →
  native_view <$> rows = rows.
Proof.
  intros Hwf Hshape Hnative Hrows.
  induction Hrows as [|i s indices ss Hi _ IH]; [done|].
  rewrite fmap_cons, IH. f_equal.
  apply native_view_native.
  destruct (ndarray_getitem_wf array batch rest i s Hwf Hshape Hi)
    as (_ & Hd & _). by rewrite Hd.
Qed.

Lemma rows_unique (array : ndarray) (indices : list nat)
    (rows rows' : list ndarray) :
  Forall2 (λ i s, ndarray_getitem array i = inr s) indices rows →
  Forall2 (λ i s, ndarray_getitem array i = inr s) indices rows' →
  rows' = rows.
Proof.
  intros Hrows. revert rows'.
  induction Hrows as [|i s indices ss Hi _ IH]; intros rows' H.
  - by apply Forall2_nil_inv_l in H.
  - apply Forall2_cons_inv_l in H as (s' & ss' & Hs' & H & ->).
    f_equal; [congruence | by apply IH].
Qed.

Lemma read_array_selected (array : ndarray) (key : string)
    (chunk_size : nat) (w w' : world) (batch : nat) (rest : list nat)
    (rows : list ndarray) (array_slice : pyslice) :
  1 ≤ chunk_size → ndarray_wf array → shape array = batch :: rest →
  write_array uuid1 pickle_dumps array key chunk_size true
    row_wise_to_bytes w = (inr tt, w') →
  Forall2 (λ i s, ndarray_getitem array i = inr s) (seq 0 batch) rows →
  read_array pickle_loads key array_slice false None [] w'
  = (match list_getslice rows array_slice with
     | inl e => inl e
     | inr selected => np_array (native_view <$> selected)
     end, w').
Proof.
  intros Hcs Hwf Hshape Hwrite Hrows.
  destruct (written_samples _ _ _ _ _ _ _ Hcs Hwf Hshape Hwrite)
    as (im & rows' & Hmeta & Hidx & Hrows' & Hstored).
  assert (rows' = rows) as -> by (by eapply rows_unique).
  unfold read_array, read_tensor_meta.
  erewrite bind_ok.
  2:{ erewrite bind_ok; [|unfold storage_getitem; by rewrite Hmeta].
      unfold loads. by rewrite Hpickle. }
  erewrite bind_ok.
  2:{ erewrite bind_ok; [|unfold storage_getitem; by rewrite Hidx].
      unfold loads. by rewrite Hpickle. }
  pose proof (list_getslice_Forall2 _ im rows array_slice Hstored) as Hsel.
  destruct (list_getslice im array_slice) as [e|entries] eqn:Hes;
    destruct (list_getslice rows array_slice) as [e'|selected]; try done.
  - subst e'. erewrite bind_err; [done|].
    unfold single_threaded_get_samples.
    erewrite bind_ok; [|reflexivity].
    erewrite bind_err; [done|]. by rewrite Hes.
  - erewrite bind_ok.
    2:{ unfold single_threaded_get_samples.
        erewrite bind_ok; [|reflexivity].
        erewrite bind_ok; [|by rewrite Hes]. unfold enumerate.
        exact (get_samples_loop key
                 (Meta chunk_size (dtype_name (dtype array)) batch rest rest)
                 (dtype array) w' entries selected [] 0 Hsel eq_refl
                 eq_refl). }
    simpl. by destruct (np_array (native_view <$> selected)).
Qed.

(** X19. Reading any range of a tensor written from a well-formed batched
    array, on a single thread: the result is [np.array] of the samples of
    the array that the slice selects, in the order of the slice (negative
    steps included), each with its buffer taken as elements in native
    byte order, which for an array in native byte order is the sample
    itself; an empty selection gives the empty float64 vector, and a
    slice with step 0 raises the [ValueError] of the list subscript. *)
Theorem read_array_slice (array : ndarray) (key : string)
    (chunk_size : nat) (w w' : world) (batch : nat) (rest : list nat)
    (rows : list ndarray) (array_slice : pyslice) :
  1 ≤ chunk_size → ndarray_wf array → shape array = batch :: rest →
  write_array uuid1 pickle_dumps array key chunk_size true
    row_wise_to_bytes w = (inr tt, w') →
  Forall2 (λ i s, ndarray_getitem array i = inr s) (seq 0 batch) rows →
  read_array pickle_loads key array_slice false None [] w'
  = (match list_getslice rows array_slice with
     | inl e => inl e
     | inr selected => np_array (native_view <$> selected)
     end, w')
  ∧ (byteorder (dtype array) = native_order →
     native_view <$> rows = rows).
Proof.
  intros Hcs Hwf Hshape Hwrite Hrows. split.
  - by eapply read_array_selected.
  - intros Hnative. by eapply rows_native.
Qed.

(** *** The thread pool loses and repeats nothing *)

Lemma list_insert_at_perm {A} (i : nat) (x : A) (l : list A) :
  list_insert_at i x l ≡ₚ x :: l.
Proof.
  unfold list_insert_at. rewrite <- Permutation_middle.
  by rewrite take_drop.
Qed.

Lemma pool_loop_perm key m d w entries arrays completion acc :
  Forall2 (sample_stored key d w) entries arrays →
  meta_dtype m = dtype_name d →
  ∃ result,
    for_each completion
      (λ samples position,
         match enumerate entries !! position with
         | Some task => run_task key (PMeta m) task samples
         | None => mret samples
         end)
      acc w
    = (inr result, w)
    ∧ result
      ≡ₚ acc
         ++ (native_view <$> omap (λ position, arrays !! position)
                               completion).
Proof.
  intros Hstored Hm. revert acc.
  induction completion as [|p completion IH]; intros acc.
  - exists acc. split; [done|]. by rewrite app_nil_r.
  - cbn [for_each omap list_omap].
    change (list_omap nat ndarray (λ position, arrays !! position)
              completion)
      with (omap (λ position, arrays !! position) completion).
    unfold enumerate. rewrite list_lookup_imap.
    destruct (entries !! p) as [e|] eqn:He.
    + destruct (Forall2_lookup_l _ _ _ _ _ Hstored He) as (s & Hs & Hes).
      rewrite Hs. simpl.
      destruct (IH (list_insert_at p (native_view s) acc))
        as (result & Hrun & Hperm).
      exists result. split.
      * erewrite bind_ok; [exact Hrun|]. unfold run_task. simpl.
        by rewrite (_get_sample_ok p key e m d s acc w Hes Hm).
      * rewrite Hperm, list_insert_at_perm.
        by rewrite <- Permutation_middle.
    + assert (arrays !! p = None) as ->.
      { apply lookup_ge_None in He. apply lookup_ge_None.
        by rewrite <- (Forall2_length _ _ _ Hstored). }
      simpl. destruct (IH acc) as (result & Hrun & Hperm).
      exists result. split; [|done].
      by erewrite bind_ok; [exact Hrun|].
Qed.

(** X20. Reading the full range of a tensor written from a well-formed batched
    array with the thread pool: whatever the order in which the workers
    finish (any permutation of the task positions), [read_array] hands
    [np.array] the samples of the array, each exactly once, possibly in
    another order; each sample with its buffer taken as elements in
    native byte order, which for an array in native byte order is the
    sample itself. *)
Theorem parallel_read_permutes (array : ndarray) (key : string)
    (chunk_size : nat) (w w' : world) (batch : nat) (rest : list nat)
    (rows : list ndarray) (completion : list nat) :
  1 ≤ chunk_size → ndarray_wf array → shape array = batch :: rest →
  write_array uuid1 pickle_dumps array key chunk_size true
    row_wise_to_bytes w = (inr tt, w') →
  Forall2 (λ i s, ndarray_getitem array i = inr s) (seq 0 batch) rows →
  completion ≡ₚ seq 0 batch →
  (∃ samples,
     samples ≡ₚ native_view <$> rows
     ∧ read_array pickle_loads key slice_None true None completion w'
       = (np_array samples, w'))
  ∧ (byteorder (dtype array) = native_order →
     native_view <$> rows = rows).
Proof.
  intros Hcs Hwf Hshape Hwrite Hrows Hperm.
  split; [|intros Hnative; by eapply rows_native].
  destruct (written_samples _ _ _ _ _ _ _ Hcs Hwf Hshape Hwrite)
    as (im & rows' & Hmeta & Hidx & Hrows' & Hstored).
  assert (rows' = rows) as -> by (by eapply rows_unique).
  destruct (pool_loop_perm key
              (Meta chunk_size (dtype_name (dtype array)) batch rest rest)
              (dtype array) w' im rows completion [] Hstored eq_refl)
    as (samples & Hrun & Hsamples).
  exists samples. split.
  - rewrite Hsamples. simpl. rewrite Hperm.
    assert (batch = length rows) as ->.
    { apply Forall2_length in Hrows. by rewrite length_seq in Hrows. }
    by rewrite (omap_lookup_seq (λ position, rows !! position) [] rows).
  - unfold read_array, read_tensor_meta.
    erewrite bind_ok.
    2:{ erewrite bind_ok; [|unfold storage_getitem; by rewrite Hmeta].
        unfold loads. by rewrite Hpickle. }
    erewrite bind_ok.
    2:{ erewrite bind_ok; [|unfold storage_getitem; by rewrite Hidx].
        unfold loads. by rewrite Hpickle. }
    erewrite bind_ok.
    2:{ unfold multi_threaded_get_samples.
        erewrite bind_ok; [|reflexivity].
        erewrite bind_ok; [|reflexivity].
        erewrite bind_ok; [|by rewrite list_getslice_None].
        exact Hrun. }
    simpl. by destruct (np_array samples).
Qed.

(** X25. [numpy()] of a sliced view of a tensor written from a well-formed
    batched array, with the workers finishing in the order of submission:
    the result is [np.array] of the samples the slice of the view
    selects, each with its buffer taken as elements in native byte order,
    which for an array in native byte order is the sample itself. *)
Theorem Tensor_numpy_slice (array : ndarray) (key : string)
    (chunk_size : nat) (w w' : world) (batch : nat) (rest : list nat)
    (rows selected : list ndarray) (sl : pyslice) :
  1 ≤ chunk_size → ndarray_wf array → shape array = batch :: rest →
  write_array uuid1 pickle_dumps array key chunk_size true
    row_wise_to_bytes w = (inr tt, w') →
  Forall2 (λ i s, ndarray_getitem array i = inr s) (seq 0 batch) rows →
  list_getslice rows sl = inr selected →
  Tensor_numpy pickle_loads (MkTensor key sl batch rest)
    (seq 0 (length selected)) w'
  = (np_array (native_view <$> selected), w')
  ∧ (byteorder (dtype array) = native_order →
     native_view <$> selected = selected).
Proof.
  intros Hcs Hwf Hshape Hwrite Hrows Hsel.
  assert (∀ s, s ∈ selected →
               dtype s = dtype array ∧ shape s = rest) as Hsamples.
  { intros s Hs.
    assert (s ∈ rows) as Hin.
    { clear -Hsel Hs. unfold list_getslice in Hsel.
      destruct (slice_indices sl _) as [e|[[start stop] step]]; [done|].
      injection Hsel as Hsel. rewrite <- Hsel in Hs.
      apply list_elem_of_omap in Hs as (j & _ & Hj).
      by eapply list_elem_of_lookup_2. }
    apply list_elem_of_lookup in Hin as [i Hi].
    destruct (Forall2_lookup_r _ _ _ _ _ Hrows Hi) as (i' & _ & Hget).
    by destruct (ndarray_getitem_wf array batch rest i' s Hwf Hshape Hget)
      as (_ & ? & ? & _). }
  split.
  2:{ intros Hnative. clear -Hsamples Hnative.
      induction selected as [|s selected IH]; [done|].
      rewrite fmap_cons, IH by (intros x Hx; apply Hsamples; by right).
      f_equal. apply native_view_native.
      destruct (Hsamples s) as [-> _]; [by left | done]. }
  destruct (written_samples _ _ _ _ _ _ _ Hcs Hwf Hshape Hwrite)
    as (im & rows' & Hmeta & Hidx & Hrows' & Hstored).
  assert (rows' = rows) as -> by (by eapply rows_unique).
  pose proof (list_getslice_Forall2 _ im rows sl Hstored) as Hboth.
  rewrite Hsel in Hboth.
  destruct (list_getslice im sl) as [e|entries] eqn:Hes; [done|].
  assert (∃ a, np_array (native_view <$> selected) = inr a) as [a Ha].
  { destruct selected as [|s0 selected]; [by eexists|].
    eexists.
    apply (np_array_stack (native_dtype (scalar_type (dtype array))) rest);
      [done|].
    apply Forall_fmap, Forall_forall. intros s Hs.
    destruct (Hsamples s Hs) as [Hd Hss]. simpl. by rewrite Hd, Hss. }
  unfold Tensor_numpy. cbn [tensor_key tensor_slice].
  rewrite <- (Forall2_length _ _ _ Hboth), Ha.
  apply (read_array_in_order pickle_loads key sl w' a w'
           (pickle_dumps (PIndexMap im)) im entries);
    [done | apply Hpickle | done |].
  rewrite (read_array_selected array key chunk_size w w' batch rest rows sl)
    by done.
  by rewrite Hsel, Ha.
Qed.

End SliceReads.

Lemma read_array_slice_stored :
  read_array bitwise_loads "t" (Slice None None (Some (-1)%Z)) false None []
    stored_world
  = (inr (NDArray np_uint8 [2; 3] [x64; x65; x66; x61; x62; x63]),
     stored_world).
Proof.
  apply (read_array_slice counter_uuid1 counter_uuid1_supply bitwise_dumps
           bitwise_loads bitwise_loads_dumps stored_array "t" 4 empty_world
           stored_world 2 [3]
           [NDArray np_uint8 [3] [x61; x62; x63];
            NDArray np_uint8 [3] [x64; x65; x66]]
           (Slice None None (Some (-1)%Z))).
  - lia.
  - reflexivity.
  - reflexivity.
  - apply stored_world_written.
  - repeat constructor.
Defined.

Lemma parallel_read_permutes_stored :
  ∃ samples,
    samples ≡ₚ [NDArray np_uint8 [3] [x61; x62; x63];
                NDArray np_uint8 [3] [x64; x65; x66]]
    ∧ read_array bitwise_loads "t" slice_None true None [1; 0] stored_world
      = (np_array samples, stored_world).
Proof.
  apply (parallel_read_permutes counter_uuid1 counter_uuid1_supply
           bitwise_dumps bitwise_loads bitwise_loads_dumps stored_array "t"
           4 empty_world stored_world 2 [3]
           [NDArray np_uint8 [3] [x61; x62; x63];
            NDArray np_uint8 [3] [x64; x65; x66]] [1; 0]).
  - lia.
  - reflexivity.
  - reflexivity.
  - apply stored_world_written.
  - repeat constructor.
  - apply perm_swap.
Defined.

Lemma Tensor_numpy_slice_stored :
  Tensor_numpy bitwise_loads
    (MkTensor "t" (Slice (Some 1%Z) None None) 2 [3]) [0] stored_world
  = (inr (NDArray np_uint8 [1; 3] [x64; x65; x66]), stored_world).
Proof.
  apply (Tensor_numpy_slice counter_uuid1 counter_uuid1_supply bitwise_dumps
           bitwise_loads bitwise_loads_dumps stored_array "t" 4 empty_world
           stored_world 2 [3]
           [NDArray np_uint8 [3] [x61; x62; x63];
            NDArray np_uint8 [3] [x64; x65; x66]]
           [NDArray np_uint8 [3] [x64; x65; x66]]
           (Slice (Some 1%Z) None None)).
  - lia.
  - reflexivity.
  - reflexivity.
  - apply stored_world_written.
  - repeat constructor.
  - reflexivity.
Defined.

(** ** Tensors side by side *)

Section Locality.
Context (R : string → Prop).

Lemma reads_only_ret {A} (a : A) : reads_only R (mret a).
Proof. by intros w1 w2 _. Qed.

Lemma reads_only_raise {A} (e : exn) : reads_only R (raise (A := A) e).
Proof. by intros w1 w2 _. Qed.

Lemma reads_only_lift {A} (r : exn + A) : reads_only R (lift r).
Proof. intros w1 w2 _. by destruct r. Qed.

Lemma reads_only_getitem key : R key → reads_only R (storage_getitem key).
Proof.
  intros Hk w1 w2 Hw. unfold storage_getitem. rewrite (Hw key Hk).
  by destruct (store w2 !! key).
Qed.

Lemma reads_only_bind {A B} (m : M A) (k : A → M B) :
  read_only m → reads_only R m → (∀ a, reads_only R (k a)) →
  reads_only R (m ≫= k).
Proof.
  intros Hro Hm Hk w1 w2 Hw. unfold mbind, M_bind.
  pose proof (Hm w1 w2 Hw) as Hr.
  pose proof (Hro w1) as H1. pose proof (Hro w2) as H2.
  destruct (m w1) as [[e1|a1] w1'], (m w2) as [[e2|a2] w2'];
    simpl in *; simplify_eq; [done|].
  by apply Hk.
Qed.

Lemma reads_only_for_each {A S} (xs : list A) (body : S → A → M S) acc :
  (∀ acc x, read_only (body acc x)) →
  (∀ acc x, reads_only R (body acc x)) →
  reads_only R (for_each xs body acc).
Proof.
  intros Hro Hb. revert acc. induction xs as [|x xs IH]; intros acc; simpl.
  - apply reads_only_ret.
  - apply reads_only_bind; [apply Hro | apply Hb | apply IH].
Qed.

End Locality.

Section Independence.
Context (uuid1 : nat → string) (Huuid : uuid_supply uuid1).
Context (pickle_dumps : pyobj → bytes) (pickle_loads : bytes → option pyobj).

Lemma _get_sample_local index key e meta samples :
  reads_only (tensor_keys key) (_get_sample index key e meta samples).
Proof.
  unfold _get_sample. apply reads_only_bind.
  - apply read_only_for_each. intros acc name.
    apply read_only_bind; [apply read_only_getitem|].
    intros b. apply read_only_ret.
  - apply reads_only_for_each.
    + intros acc name. apply read_only_bind; [apply read_only_getitem|].
      intros b. apply read_only_ret.
    + intros acc name. apply reads_only_bind.
      * apply read_only_getitem.
      * apply reads_only_getitem. right. right. by exists name.
      * intros b. apply reads_only_ret.
  - intros chunks.
    repeat (apply reads_only_bind;
            [apply read_only_lift | apply reads_only_lift |]; intros ?).
    apply reads_only_ret.
Qed.

Lemma run_task_local key meta task samples :
  reads_only (tensor_keys key) (run_task key meta task samples).
Proof.
  intros w1 w2 Hw. unfold run_task.
  pose proof (_get_sample_local task.1 key task.2 meta samples w1 w2 Hw)
    as H.
  destruct (_get_sample _ _ _ _ _ w1) as [[e1|s1] w1'],
    (_get_sample _ _ _ _ _ w2) as [[e2|s2] w2']; simpl in *;
    by simplify_eq.
Qed.

Lemma read_array_local_aux key array_slice multi_threaded threads
    completion :
  reads_only (tensor_keys key)
    (read_array pickle_loads key array_slice multi_threaded threads
       completion).
Proof.
  unfold read_array. apply reads_only_bind.
  { apply read_tensor_meta_read_only. }
  { unfold read_tensor_meta. apply reads_only_bind.
    - apply read_only_getitem.
    - apply reads_only_getitem. by left.
    - intros b. intros w1 w2 _. unfold loads. by destruct (pickle_loads b). }
  intros meta. apply reads_only_bind.
  { apply read_only_bind; [apply read_only_getitem|].
    intros b. apply loads_read_only. }
  { apply reads_only_bind.
    - apply read_only_getitem.
    - apply reads_only_getitem. right. by left.
    - intros b. intros w1 w2 _. unfold loads. by destruct (pickle_loads b). }
  intros index_map. apply reads_only_bind; [| |intros; apply reads_only_lift].
  - destruct multi_threaded.
    + apply multi_threaded_get_samples_read_only.
    + apply single_threaded_get_samples_read_only.
  - destruct multi_threaded.
    + unfold multi_threaded_get_samples. apply reads_only_bind.
      { destruct threads as [n|]; [|apply read_only_ret].
        case_decide; [apply read_only_raise | apply read_only_ret]. }
      { destruct threads as [n|]; [|apply reads_only_ret].
        case_decide; [apply reads_only_raise | apply reads_only_ret]. }
      intros _.
      repeat (apply reads_only_bind;
              [apply read_only_lift | apply reads_only_lift |]; intros ?).
      apply reads_only_for_each; intros acc position;
        destruct (_ !! position);
        first [ apply run_task_read_only | apply read_only_ret
              | apply run_task_local | apply reads_only_ret ].
    + unfold single_threaded_get_samples.
      repeat (apply reads_only_bind;
              [apply read_only_lift | apply reads_only_lift |]; intros ?).
      apply reads_only_for_each; intros acc [i e];
        [apply _get_sample_read_only | apply _get_sample_local].
Qed.

(** X21. [read_array] looks at the keys of its tensor only: in two stores that
    agree on the meta key, the index map key and the chunk keys of the
    tensor it returns the same array or raises the same exception. *)
Theorem read_array_local (key : string) (array_slice : pyslice)
    (multi_threaded : bool) (threads : option Z) (completion : list nat)
    (w1 w2 : world) :
  (∀ k, tensor_keys key k → store w1 !! k = store w2 !! k) →
  (read_array pickle_loads key array_slice multi_threaded threads
     completion w1).1
  = (read_array pickle_loads key array_slice multi_threaded threads
       completion w2).1.
Proof. apply read_array_local_aux. Qed.

(** X22. Writing one tensor does not disturb another: if no key of the tensor
    at [key1] is the meta key or the index map key of [key2] or lies
    under [<key2>/chunks/], then after [write_array] to [key2], whether it
    returned or raised, [read_array] of [key1] gives what it gave
    before. *)
Theorem tensor_independence (key1 key2 : string) (array : ndarray)
    (chunk_size : nat) (batched : bool) (to_bytes : ndarray → bytes)
    (w w' : world) (r : exn + unit) (array_slice : pyslice)
    (multi_threaded : bool) (threads : option Z) (completion : list nat) :
  (∀ k, tensor_keys key1 k →
        ¬ under_chunks key2 k ∧ k ≠ get_meta_key key2
        ∧ k ≠ get_index_map_key key2) →
  write_array uuid1 pickle_dumps array key2 chunk_size batched to_bytes w
  = (r, w') →
  (read_array pickle_loads key1 array_slice multi_threaded threads
     completion w').1
  = (read_array pickle_loads key1 array_slice multi_threaded threads
       completion w).1.
Proof.
  intros Hdisjoint Hrun. apply read_array_local_aux.
  intros k Hk. destruct (Hdisjoint k Hk) as (Hu & Hm & Hi).
  by apply (write_array_touches uuid1 Huuid pickle_dumps key2 array
              chunk_size batched to_bytes w w' r Hrun).
Qed.

(** X23. A tensor is written once: after [write_array] has returned, every
    further [write_array] to the same key, with any array the
    normalisation accepts, any chunk size and any flattener, raises the
    appending error and changes nothing. *)
Theorem write_array_once (array array2 : ndarray) (key : string)
    (chunk_size chunk_size2 : nat) (batched batched2 : bool)
    (to_bytes to_bytes2 : ndarray → bytes) (w w' : world) :
  write_array uuid1 pickle_dumps array key chunk_size batched to_bytes w
  = (inr tt, w') →
  (batched2 = true → shape array2 ≠ []) →
  write_array uuid1 pickle_dumps array2 key chunk_size2 batched2 to_bytes2
    w'
  = (inl already_exists, w').
Proof.
  intros Hrun Hrank.
  apply write_array_inv in Hrun
    as (a' & batch & rest & im & w1 & _ & _ & _ & _ & _ & ->).
  apply write_array_exists; [done|]. left. cbn [store].
  rewrite lookup_insert_ne
    by (intros E; symmetry in E; by apply meta_key_not_index_map in E).
  rewrite lookup_insert_eq. by eexists.
Qed.

End Independence.

Lemma starts_with_slash_true (s : string) :
  starts_with_slash s = true → ∃ s', s = String "/"%char s'.
Proof.
  destruct s as [|c s]; [done|].
  destruct c as [[] [] [] [] [] [] [] []]; try done. by exists s.
Qed.

Lemma tensor_keys_t_u (k : string) :
  tensor_keys "t" k →
  ¬ under_chunks "u" k ∧ k ≠ get_meta_key "u" ∧ k ≠ get_index_map_key "u".
Proof.
  assert (∀ s, String "t" s ≠ get_meta_key "u"
               ∧ String "t" s ≠ get_index_map_key "u"
               ∧ ¬ under_chunks "u" (String "t" s)) as Ht.
  { intros s. split_and!; [done | done |]. by intros [name Hname]. }
  assert (∀ s, String "/" s ≠ get_meta_key "u"
               ∧ String "/" s ≠ get_index_map_key "u"
               ∧ ¬ under_chunks "u" (String "/" s)) as Hs.
  { intros s. split_and!; [done | done |]. by intros [name Hname]. }
  intros [->|[->|[name ->]]].
  - destruct (Ht "/meta.json") as (? & ? & ?). by split_and!.
  - destruct (Ht "/index_map.json") as (? & ? & ?). by split_and!.
  - unfold get_chunk_key.
    destruct (starts_with_slash name) eqn:E.
    + apply starts_with_slash_true in E as [s' ->].
      destruct (Hs s') as (? & ? & ?). by split_and!.
    + rewrite os_path_join_relative by done.
      destruct (Ht ("/chunks/" +:+ name)) as (? & ? & ?). by split_and!.
Qed.

Lemma read_array_local_stored :
  (read_array bitwise_loads "t" slice_None false None [] stored_world).1
  = (read_array bitwise_loads "t" slice_None false None []
       (World (<["other" := []]> (store stored_world)) 7)).1.
Proof.
  apply (read_array_local bitwise_loads "t" slice_None false None []
           stored_world (World (<["other" := []]> (store stored_world)) 7)).
  intros k Hk. cbn [store]. symmetry. apply lookup_insert_ne.
  intros <-. destruct Hk as [Hk|[Hk|[name Hk]]]; [done | done |].
  unfold get_chunk_key in Hk. destruct (starts_with_slash name) eqn:E.
  - apply starts_with_slash_true in E as [s' ->]. done.
  - by rewrite os_path_join_relative in Hk by done.
Defined.

Lemma tensor_independence_stored :
  (read_array bitwise_loads "t" slice_None false None []
     (write_array counter_uuid1 bitwise_dumps abc_array "u" 2 true
        row_wise_to_bytes stored_world).2).1
  = (read_array bitwise_loads "t" slice_None false None [] stored_world).1.
Proof.
  apply (tensor_independence counter_uuid1 counter_uuid1_supply
           bitwise_dumps bitwise_loads "t" "u" abc_array 2 true
           row_wise_to_bytes stored_world _
           (write_array counter_uuid1 bitwise_dumps abc_array "u" 2 true
              row_wise_to_bytes stored_world).1).
  - apply tensor_keys_t_u.
  - by destruct (write_array _ _ _ _ _ _ _ _).
Defined.

Lemma write_array_once_stored :
  write_array counter_uuid1 bitwise_dumps abc_array "t" 2 true
    row_wise_to_bytes stored_world
  = (inl already_exists, stored_world).
Proof.
  apply (write_array_once counter_uuid1 bitwise_dumps stored_array abc_array
           "t" 4 2 true true row_wise_to_bytes row_wise_to_bytes empty_world
           stored_world).
  - apply stored_world_written.
  - intros _. discriminate.
Defined.

(** ** The cache tier as a dictionary *)

Section LRUDictionary.
Implicit Types (s : memory_tier) (m : gmap string bytes).

Local Abbreviation tracked s := ((LRUCache.lru_sizes s).*1).
Local Abbreviation cache s := (LRUCache.cache_storage s).
Local Abbreviation next s := (LRUCache.next_storage s).
Local Abbreviation dirty s := (LRUCache.dirty_keys s).

Lemma elem_of_remove_key k k' (sizes : list (string * nat)) :
  k' ∈ (LRUCache.remove_key k sizes).*1 ↔ k' ∈ sizes.*1 ∧ k' ≠ k.
Proof.
  unfold LRUCache.remove_key. rewrite !list_elem_of_fmap. split.
  - intros (e & -> & He). apply list_elem_of_filter in He as [Hne He].
    split; [by exists e | done].
  - intros [(e & -> & He) Hne]. exists e. split; [done|].
    by apply list_elem_of_filter.
Qed.

Lemma size_of_Some_elem k n (sizes : list (string * nat)) :
  LRUCache.size_of k sizes = Some n → k ∈ sizes.*1.
Proof.
  unfold LRUCache.size_of.
  destruct (list_find _ sizes) as [[i e]|] eqn:E; [|done]. intros _.
  apply list_find_Some in E as (Hi & <- & _).
  apply list_elem_of_fmap. exists e. split; [done|].
  by eapply list_elem_of_lookup_2.
Qed.

Lemma pop_from_cache_eq s k0 n v0 :
  last (LRUCache.lru_sizes s) = Some (k0, n) → cache s !! k0 = Some v0 →
  LRUCache.pop_from_cache s
  = LRUCache.Make (delete k0 (cache s))
      (if decide (k0 ∈ dirty s) then <[k0 := v0]> (next s) else next s)
      (LRUCache.cache_size s) (removelast (LRUCache.lru_sizes s))
      (LRUCache.cache_used s - n) (dirty s ∖ {[k0]}).
Proof.
  intros Hl Hv. unfold LRUCache.pop_from_cache. rewrite Hl.
  destruct (decide (k0 ∈ dirty s)); [|reflexivity].
  change (sp_get k0 (cache s)) with (cache s !! k0, cache s).
  by rewrite Hv.
Qed.

Lemma pop_from_cache_coherent hole s :
  LRUCache.lru_sizes s ≠ [] → lru_coherent hole s →
  (∀ k, hole = Some k → k ∉ tracked s) →
  let s' := LRUCache.pop_from_cache s in
  lru_coherent hole s'
  ∧ lru_view s' = lru_view s
  ∧ tracked s' ⊆ tracked s
  ∧ (∀ k, k ∉ tracked s →
          cache s' !! k = cache s !! k ∧ next s' !! k = next s !! k)
  ∧ S (length (LRUCache.lru_sizes s')) = length (LRUCache.lru_sizes s).
Proof.
  intros Hne (I1 & I2 & I3 & I4) Hhole.
  destruct (last (LRUCache.lru_sizes s)) as [[k0 n]|] eqn:Hl;
    [|by apply last_None in Hl].
  pose proof Hl as Hl'. apply last_Some in Hl' as [l' Hl'].
  assert (k0 ∈ tracked s) as Hk0.
  { rewrite Hl', fmap_app. set_solver. }
  destruct (I2 k0 Hk0) as [v0 Hv0].
  assert (k0 ∉ l'.*1) as Hfresh.
  { rewrite Hl', fmap_app in I1. apply NoDup_app in I1 as (_ & Hdis & _).
    intros Hin. apply (Hdis k0 Hin). set_solver. }
  assert (∀ k, k ∈ l'.*1 → k ≠ k0) as Hother by (by intros k Hk ->).
  intros s'. subst s'. rewrite (pop_from_cache_eq s k0 n v0 Hl Hv0).
  unfold lru_coherent, lru_view.
  cbn [LRUCache.cache_storage LRUCache.next_storage LRUCache.lru_sizes
       LRUCache.dirty_keys].
  rewrite Hl', removelast_last.
  rewrite Hl', fmap_app, NoDup_app in I1. destruct I1 as (I1 & _ & _).
  assert (∀ k, k ∈ l'.*1 → k ∈ tracked s) as Hsub.
  { intros k Hk. rewrite Hl', fmap_app. set_solver. }
  split_and!.
  - done.
  - intros k Hk. rewrite lookup_delete_ne by (by apply not_eq_sym, Hother).
    by apply I2, Hsub.
  - intros k Hh [v Hv]. destruct (decide (k = k0)) as [->|Hkk].
    { by rewrite lookup_delete_eq in Hv. }
    rewrite lookup_delete_ne in Hv by done.
    pose proof (I3 k Hh ltac:(by eexists)) as Hin.
    rewrite Hl', fmap_app in Hin. set_solver.
  - intros k v Hk Hv Hd.
    pose proof (Hother k Hk) as Hkk.
    rewrite lookup_delete_ne in Hv by done.
    assert (next s !! k = Some v) as Hn.
    { apply I4; [by apply Hsub | done | set_solver]. }
    destruct (decide (k0 ∈ dirty s)); [|done].
    by rewrite lookup_insert_ne.
  - apply map_eq. intros k. rewrite !lookup_union.
    destruct (decide (k = k0)) as [->|Hkk].
    + rewrite lookup_delete_eq, Hv0.
      destruct (decide (k0 ∈ dirty s)) as [Hd|Hd].
      * rewrite lookup_insert_eq. simpl. by destruct (next s !! k0).
      * rewrite (I4 k0 v0 Hk0 Hv0 Hd). done.
    + rewrite lookup_delete_ne by done.
      destruct (decide (k0 ∈ dirty s)); [|done].
      by rewrite lookup_insert_ne.
  - intros k Hk. rewrite fmap_app. set_solver.
  - intros k Hk.
    assert (k ≠ k0) as Hkk.
    { intros ->. apply Hk. rewrite fmap_app. set_solver. }
    split; [by rewrite lookup_delete_ne|].
    destruct (decide (k0 ∈ dirty s)); [|done].
    by rewrite lookup_insert_ne.
  - rewrite length_app. simpl. lia.
Qed.

Lemma free_up_space_loop_coherent hole fuel extra s :
  lru_coherent hole s → (∀ k, hole = Some k → k ∉ tracked s) →
  let s' := LRUCache.free_up_space_loop fuel extra s in
  lru_coherent hole s'
  ∧ lru_view s' = lru_view s
  ∧ tracked s' ⊆ tracked s
  ∧ (∀ k, k ∉ tracked s →
          cache s' !! k = cache s !! k ∧ next s' !! k = next s !! k).
Proof.
  revert s. induction fuel as [|fuel IH]; intros s Hc Hh; simpl; [done|].
  case_decide as Hd; [|done]. destruct Hd as [_ Hne].
  destruct (pop_from_cache_coherent hole s Hne Hc Hh)
    as (Hc1 & Hv1 & Hsub1 & Hsame1 & _).
  destruct (IH (LRUCache.pop_from_cache s) Hc1) as (Hc2 & Hv2 & Hsub2 & Hsame2).
  { intros k Hk Hin. apply (Hh k Hk). by apply Hsub1. }
  split_and!; [done | congruence | set_solver |].
  intros k Hk. destruct (Hsame1 k Hk) as [<- <-]. apply Hsame2.
  intros Hin. apply Hk. by apply Hsub1.
Qed.

Lemma insert_in_cache_coherent k v s :
  lru_coherent (Some k) s → k ∉ tracked s →
  let s' := LRUCache.insert_in_cache k v s in
  NoDup (tracked s')
  ∧ (∀ k', k' ∈ tracked s' ↔ is_Some (cache s' !! k'))
  ∧ (∀ k' v', k' ≠ k → cache s' !! k' = Some v' → k' ∉ dirty s' →
              next s' !! k' = Some v')
  ∧ cache s' !! k = Some v
  ∧ next s' !! k = next s !! k
  ∧ dirty s' ⊆ dirty s
  ∧ lru_view s' = <[k := v]> (lru_view s).
Proof.
  intros Hc Hk. unfold LRUCache.insert_in_cache, LRUCache.free_up_space.
  destruct (free_up_space_loop_coherent (Some k)
              (length (LRUCache.lru_sizes s)) (length v) s Hc)
    as ((I1 & I2 & I3 & I4) & Hv & Hsub & Hsame).
  { by intros k' [= <-]. }
  set (s1 := LRUCache.free_up_space_loop _ _ s) in *.
  assert (k ∉ tracked s1) as Hk1 by (intros Hin; by apply Hk, Hsub).
  assert (dirty s1 ⊆ dirty s) as Hdirty.
  { subst s1. clear. generalize (length (LRUCache.lru_sizes s)).
    intros fuel. revert s. induction fuel as [|fuel IH]; intros s; simpl;
      [done|].
    case_decide; [|done]. etrans; [apply IH|].
    unfold LRUCache.pop_from_cache.
    destruct (last (LRUCache.lru_sizes s)) as [[k0 n]|]; [|done].
    repeat case_match; simpl; set_solver. }
  change (sp_put k v (cache s1)) with (<[k := v]> (cache s1)).
  unfold lru_view.
  cbn [LRUCache.cache_storage LRUCache.next_storage LRUCache.lru_sizes
       LRUCache.dirty_keys].
  split_and!.
  - rewrite fmap_cons. apply NoDup_cons. by split.
  - intros k'. rewrite fmap_cons. simpl. split.
    + intros Hin. apply elem_of_cons in Hin as [->|Hin].
      * rewrite lookup_insert_eq. by eexists.
      * rewrite lookup_insert_ne by (by intros ->). by apply I2.
    + intros Hsome. destruct (decide (k' = k)) as [->|Hne]; [by left|].
      right. rewrite lookup_insert_ne in Hsome by done.
      apply I3; [by intros [= ->] | done].
  - intros k' v' Hne Hv' Hd. rewrite lookup_insert_ne in Hv' by done.
    apply I4; [|done..]. apply I3; [by intros [= ->] | by eexists].
  - apply lookup_insert_eq.
  - by destruct (Hsame k Hk) as [_ ->].
  - done.
  - fold (lru_view s1). unfold lru_view in Hv.
    by rewrite <- insert_union_l, Hv.
Qed.

Lemma forget_coherent k s :
  lru_coherent None s →
  let s' := LRUCache.forget k s in
  lru_coherent (Some k) s' ∧ k ∉ tracked s'
  ∧ cache s' = cache s ∧ next s' = next s ∧ dirty s' = dirty s.
Proof.
  intros (I1 & I2 & I3 & I4). unfold LRUCache.forget.
  destruct (LRUCache.size_of k (LRUCache.lru_sizes s)) as [n|] eqn:E.
  - unfold lru_coherent.
    cbn [LRUCache.cache_storage LRUCache.next_storage LRUCache.lru_sizes
         LRUCache.dirty_keys].
    split_and!; try done.
    + by apply remove_key_NoDup.
    + intros k' Hk'. apply elem_of_remove_key in Hk' as [Hk' _]. by apply I2.
    + intros k' Hh Hsome. apply elem_of_remove_key. split.
      * by apply I3.
      * by intros ->.
    + intros k' v' Hk' Hv' Hd. apply elem_of_remove_key in Hk' as [Hk' _].
      by apply I4.
    + apply remove_key_not_in.
  - split_and!; try done.
    + split_and!; try done. intros k' _ Hsome. by apply I3.
    + by apply size_of_None.
Qed.

Lemma put_coherent k v s :
  lru_coherent None s →
  lru_coherent None (LRUCache.put k v s)
  ∧ lru_view (LRUCache.put k v s) = <[k := v]> (lru_view s).
Proof.
  intros Hc. unfold LRUCache.put.
  destruct (forget_coherent k s Hc) as (Hc1 & Hk1 & Hcache & Hnext & Hdirty).
  destruct (insert_in_cache_coherent k v (LRUCache.forget k s) Hc1 Hk1)
    as (I1 & I2 & I4 & Hkv & _ & _ & Hv).
  set (s2 := LRUCache.insert_in_cache k v _) in *.
  unfold lru_coherent, lru_view in *.
  cbn [LRUCache.cache_storage LRUCache.next_storage LRUCache.lru_sizes
       LRUCache.dirty_keys].
  split; [split_and!|].
  - done.
  - intros k' Hk'. by apply I2.
  - intros k' _ Hsome. by apply I2.
  - intros k' v' Hk' Hv' Hd. destruct (decide (k' = k)) as [->|Hne].
    + exfalso. apply Hd. set_solver.
    + apply I4; [done | done | set_solver].
  - by rewrite Hv, Hcache, Hnext.
Qed.

Lemma get_coherent k s :
  lru_coherent None s →
  lru_coherent None (LRUCache.get k s).2
  ∧ lru_view (LRUCache.get k s).2 = lru_view s
  ∧ (LRUCache.get k s).1
    = match lru_view s !! k with
      | Some v => inr v
      | None => inl (KeyError k)
      end.
Proof.
  intros Hc. pose proof Hc as (I1 & I2 & I3 & I4). unfold LRUCache.get.
  destruct (LRUCache.size_of k (LRUCache.lru_sizes s)) as [n|] eqn:E.
  - pose proof (size_of_Some_elem k n _ E) as Hk.
    destruct (I2 k Hk) as [v Hv].
    change (sp_get k (cache s)) with (cache s !! k, cache s).
    rewrite Hv. unfold lru_coherent, lru_view.
    cbn [LRUCache.cache_storage LRUCache.next_storage LRUCache.lru_sizes
         LRUCache.dirty_keys fst snd].
    rewrite (lookup_union_Some_l _ _ _ _ Hv).
    split_and!; try done.
    + rewrite fmap_cons. apply NoDup_cons. split.
      * apply remove_key_not_in.
      * by apply remove_key_NoDup.
    + intros k' Hk'. rewrite fmap_cons in Hk'.
      apply elem_of_cons in Hk' as [->|Hk']; [by eexists|].
      apply elem_of_remove_key in Hk' as [Hk' _]. by apply I2.
    + intros k' _ Hsome. rewrite fmap_cons.
      destruct (decide (k' = k)) as [->|Hne]; [by left|]. right.
      apply elem_of_remove_key. split; [by apply I3 | done].
    + intros k' v' Hk' Hv' Hd. apply I4; [|done..].
      rewrite fmap_cons in Hk'.
      apply elem_of_cons in Hk' as [->|Hk']; [done|].
      by apply elem_of_remove_key in Hk' as [Hk' _].
  - pose proof (size_of_None k _ E) as Hk.
    assert (cache s !! k = None) as Hnone.
    { destruct (cache s !! k) as [v|] eqn:Hv; [|done].
      exfalso. apply Hk, I3; [done | by eexists]. }
    change (sp_get k (next s)) with (next s !! k, next s).
    cbv beta iota zeta.
    assert (lru_view s !! k = next s !! k) as Hview.
    { unfold lru_view. by apply lookup_union_r. }
    rewrite Hview.
    assert (LRUCache.Make (cache s) (next s) (LRUCache.cache_size s)
              (LRUCache.lru_sizes s) (LRUCache.cache_used s) (dirty s) = s)
      as -> by (by destruct s).
    destruct (next s !! k) as [v|] eqn:Hv; cbn [fst snd]; [|done].
    destruct (insert_in_cache_coherent k v s) as
      (J1 & J2 & J4 & Hkv & Hnk & _ & Hv'); [|done|].
    { split_and!; try done. intros k' _ Hsome. by apply I3. }
    split_and!; [split_and! | |done].
    + done.
    + intros k' Hk'. by apply J2.
    + intros k' _ Hsome. by apply J2.
    + intros k' v' Hk' Hkv' Hd. destruct (decide (k' = k)) as [->|Hne].
      * rewrite Hnk, Hv. congruence.
      * by apply J4.
    + rewrite Hv'. apply insert_id. by rewrite Hview.
Qed.

Lemma delete_coherent k s :
  lru_coherent None s →
  lru_coherent None (LRUCache.delete k s).2
  ∧ lru_view (LRUCache.delete k s).2 = delete k (lru_view s)
  ∧ (LRUCache.delete k s).1
    = match lru_view s !! k with
      | Some _ => inr tt
      | None => inl (KeyError k)
      end.
Proof.
  intros Hc. pose proof Hc as (I1 & I2 & I3 & I4).
  destruct (forget_coherent k s Hc)
    as ((F1 & F2 & F3 & F4) & Hk1 & Hcache & Hnext & Hdirty).
  unfold LRUCache.delete.
  change (sp_contains k (next s))
    with (bool_decide (is_Some (next s !! k))).
  set (s1 := LRUCache.forget k s) in *.
  destruct (LRUCache.size_of k (LRUCache.lru_sizes s)) as [n|] eqn:E.
  - pose proof (size_of_Some_elem k n _ E) as Hk.
    destruct (I2 k Hk) as [v Hv].
    rewrite (bool_decide_eq_true_2 (is_Some (Some n))) by (by eexists).
    cbn [orb fst snd].
    change (sp_delete k (cache s1)) with (delete k (cache s1)).
    change (sp_delete k (next s1)) with (delete k (next s1)).
    assert ((if bool_decide (is_Some (next s !! k))
             then delete k (next s1) else next s1) = delete k (next s))
      as Hn.
    { rewrite Hnext. case_bool_decide as Hb; [done|].
      symmetry. apply delete_id. by apply eq_None_not_Some. }
    unfold lru_coherent, lru_view.
    cbn [LRUCache.cache_storage LRUCache.next_storage LRUCache.lru_sizes
         LRUCache.dirty_keys].
    rewrite Hn, Hcache.
    rewrite (lookup_union_Some_l _ _ _ _ Hv).
    split_and!; try done.
    + intros k' Hk'. assert (k' ≠ k) by (by intros ->).
      rewrite lookup_delete_ne by done. rewrite <- Hcache. by apply F2.
    + intros k' _ [v' Hv']. destruct (decide (k' = k)) as [->|Hne].
      { by rewrite lookup_delete_eq in Hv'. }
      rewrite lookup_delete_ne in Hv' by done.
      apply F3; [by intros [= ->] | rewrite Hcache; by eexists].
    + intros k' v' Hk' Hv' Hd. assert (k' ≠ k) by (by intros ->).
      rewrite lookup_delete_ne in Hv' by done.
      rewrite lookup_delete_ne by done. rewrite <- Hnext.
      apply F4; [done | by rewrite Hcache | set_solver].
    + by rewrite delete_union.
  - pose proof (size_of_None k _ E) as Hk.
    assert (cache s !! k = None) as Hnone.
    { destruct (cache s !! k) as [v|] eqn:Hv; [|done].
      exfalso. apply Hk, I3; [done | by eexists]. }
    assert (s1 = s) as Hs1.
    { subst s1. unfold LRUCache.forget. by rewrite E. }
    rewrite (bool_decide_eq_false_2 (is_Some None)) by (by intros [? ?]).
    assert (lru_view s !! k = next s !! k) as Hview.
    { unfold lru_view. by apply lookup_union_r. }
    rewrite Hview. cbn [orb].
    destruct (next s !! k) as [v|] eqn:Hv.
    + rewrite bool_decide_eq_true_2 by (by eexists).
      cbn [fst snd].
      change (sp_delete k (next s1)) with (delete k (next s1)).
      rewrite Hs1. unfold lru_coherent, lru_view.
      cbn [LRUCache.cache_storage LRUCache.next_storage LRUCache.lru_sizes
           LRUCache.dirty_keys].
      split_and!; try done.
      * intros k' v' Hk' Hv' Hd. assert (k' ≠ k) by (by intros ->).
        rewrite lookup_delete_ne by done.
        apply I4; [done | done | set_solver].
      * rewrite delete_union. f_equal. symmetry. by apply delete_id.
    + rewrite bool_decide_eq_false_2 by (by intros [? ?]).
      cbn [fst snd]. split_and!; try done.
      symmetry. apply delete_id. by rewrite Hview.
Qed.

Lemma flush_fold (c nx : gmap string bytes) (keys : list string) :
  foldr (λ k '(cache, next),
           match sp_get k cache with
           | (Some v, cache) => (cache, sp_put k v next)
           | (None, cache) => (cache, next)
           end)
    (c, nx) keys
  = (c, foldr (λ k acc, match c !! k with
                        | Some v => <[k := v]> acc
                        | None => acc
                        end) nx keys).
Proof.
  induction keys as [|k keys IH]; [done|]. cbn [foldr]. rewrite IH.
  change (sp_get k c) with (c !! k, c). by destruct (c !! k).
Qed.

Lemma flush_lookup (c nx : gmap string bytes) (keys : list string) k :
  foldr (λ k acc, match c !! k with
                  | Some v => <[k := v]> acc
                  | None => acc
                  end) nx keys !! k
  = match c !! k with
    | Some v => if decide (k ∈ keys) then Some v else nx !! k
    | None => nx !! k
    end.
Proof.
  induction keys as [|k0 keys IH]; cbn [foldr].
  - destruct (c !! k); [|done]. by rewrite decide_False by set_solver.
  - destruct (c !! k0) as [v0|] eqn:H0.
    + destruct (decide (k = k0)) as [->|Hne].
      * rewrite lookup_insert_eq, H0. by rewrite decide_True by set_solver.
      * rewrite lookup_insert_ne by done. rewrite IH.
        destruct (c !! k); [|done].
        destruct (decide (k ∈ keys)).
        -- by rewrite decide_True by set_solver.
        -- by rewrite decide_False by set_solver.
    + rewrite IH. destruct (c !! k) eqn:Hk; [|done].
      assert (k ≠ k0) by congruence.
      destruct (decide (k ∈ keys)).
      * by rewrite decide_True by set_solver.
      * by rewrite decide_False by set_solver.
Qed.

Lemma flush_coherent s :
  lru_coherent None s →
  lru_coherent None (LRUCache.flush s)
  ∧ lru_view (LRUCache.flush s) = lru_view s.
Proof.
  intros (I1 & I2 & I3 & I4). unfold LRUCache.flush.
  rewrite flush_fold.
  match goal with
  | |- context [sp_flush ?x] => change (sp_flush x) with x
  end.
  unfold lru_coherent, lru_view.
  cbn [LRUCache.cache_storage LRUCache.next_storage LRUCache.lru_sizes
       LRUCache.dirty_keys].
  split_and!; try done.
  - intros k v Hk Hv _. rewrite flush_lookup, Hv.
    case_decide as Hin; [done|]. apply I4; [done | done |].
    intros Hd. apply Hin. by apply elem_of_elements.
  - apply map_eq. intros k. rewrite !lookup_union, flush_lookup.
    destruct (cache s !! k); [|done].
    case_decide; by destruct (next s !! k).
Qed.

Lemma step_coherent o s :
  lru_coherent None s →
  lru_coherent None (LRUCache.step o s)
  ∧ lru_view (LRUCache.step o s) = dict_step o (lru_view s).
Proof.
  intros Hc. destruct o as [k|k v|k|]; cbn [LRUCache.step dict_step].
  - by destruct (get_coherent k s Hc) as (? & ? & _).
  - by apply put_coherent.
  - by destruct (delete_coherent k s Hc) as (? & ? & _).
  - by apply flush_coherent.
Qed.

Lemma run_coherent (ops : list LRUCache.op) s :
  lru_coherent None s →
  lru_coherent None (foldl (λ s o, LRUCache.step o s) s ops)
  ∧ lru_view (foldl (λ s o, LRUCache.step o s) s ops)
    = foldl (λ m o, dict_step o m) (lru_view s) ops.
Proof.
  revert s. induction ops as [|o ops IH]; intros s Hc; [done|].
  cbn [foldl]. destruct (step_coherent o s Hc) as [Hc' Hv'].
  destruct (IH _ Hc') as [Hc'' Hv'']. split; [done|]. by rewrite Hv'', Hv'.
Qed.

(** X26. A cache tier between two in-memory providers, started with an empty
    cache, is a dictionary to its user: after any sequence of get, put,
    delete and flush operations with any budget, what can be read through
    the tier is what the same puts and deletes leave in a plain
    dictionary that started as the next provider; a get returns the
    current value or raises [KeyError], a delete raises [KeyError] exactly
    for an absent key, and [in] and [len] agree with that dictionary.
    Evictions and write-backs are never observable. *)
Theorem lru_is_a_dictionary (next0 : gmap string bytes) (budget : nat)
    (ops : list LRUCache.op) :
  let s := foldl (λ s o, LRUCache.step o s)
             (LRUCache.init ∅ next0 budget) ops in
  let d := foldl (λ m o, dict_step o m) next0 ops in
  lru_view s = d
  ∧ (∀ k, (LRUCache.get k s).1
          = match d !! k with
            | Some v => inr v
            | None => inl (KeyError k)
            end)
  ∧ (∀ k, (LRUCache.delete k s).1
          = match d !! k with
            | Some _ => inr tt
            | None => inl (KeyError k)
            end)
  ∧ (∀ k, LRUCache.contains k s = bool_decide (is_Some (d !! k)))
  ∧ LRUCache.len s = size d.
Proof.
  intros s d.
  destruct (run_coherent ops (LRUCache.init ∅ next0 budget)) as [Hc Hv].
  { unfold lru_coherent. simpl. split_and!; try done.
    - constructor.
    - intros k Hk. by apply elem_of_nil in Hk.
    - intros k _ [v Hv]. by rewrite lookup_empty in Hv. }
  fold s in Hc, Hv.
  assert (lru_view s = d) as Hd.
  { rewrite Hv. unfold lru_view. simpl. by rewrite (left_id_L ∅ (∪)). }
  split_and!.
  - done.
  - intros k. rewrite <- Hd. by destruct (get_coherent k s Hc) as (_ & _ & ?).
  - intros k. rewrite <- Hd.
    by destruct (delete_coherent k s Hc) as (_ & _ & ?).
  - intros k. rewrite <- Hd. unfold LRUCache.contains, lru_view.
    change (sp_contains k (cache s))
      with (bool_decide (is_Some (cache s !! k))).
    change (sp_contains k (next s))
      with (bool_decide (is_Some (next s !! k))).
    rewrite lookup_union.
    destruct (cache s !! k), (next s !! k); simpl;
      repeat case_bool_decide; try done;
      exfalso; naive_solver.
  - rewrite <- Hd. unfold LRUCache.len, LRUCache.iter_keys, lru_view.
    change (sp_keys (cache s)) with (dom (cache s)).
    change (sp_keys (next s)) with (dom (next s)).
    by rewrite <- dom_union_L, size_dom.
Qed.

(** X27. After [flush()] nothing is left in the cache alone: for a tier
    between two in-memory providers, started with an empty cache and
    driven by any sequence of operations, a flush leaves no dirty key and
    the next provider holds, by itself, everything that can be read
    through the tier. *)
Theorem lru_flush_durable (next0 : gmap string bytes) (budget : nat)
    (ops : list LRUCache.op) :
  let s := LRUCache.flush
             (foldl (λ s o, LRUCache.step o s)
                (LRUCache.init ∅ next0 budget) ops) in
  LRUCache.dirty_keys s = ∅
  ∧ LRUCache.next_storage s = foldl (λ m o, dict_step o m) next0 ops
  ∧ LRUCache.cache_storage s ⊆ LRUCache.next_storage s.
Proof.
  intros s.
  destruct (run_coherent ops (LRUCache.init ∅ next0 budget)) as [Hc Hv].
  { unfold lru_coherent. simpl. split_and!; try done.
    - constructor.
    - intros k Hk. by apply elem_of_nil in Hk.
    - intros k _ [v Hv]. by rewrite lookup_empty in Hv. }
  destruct (flush_coherent _ Hc) as [(I1 & I2 & I3 & I4) Hf].
  fold s in I1, I2, I3, I4, Hf.
  assert (dirty s = ∅) as Hdirty.
  { subst s. unfold LRUCache.flush. by rewrite flush_fold. }
  assert (cache s ⊆ next s) as Hsub.
  { apply map_subseteq_spec. intros k v Hk.
    apply I4; [|done|].
    - apply I3; [done | by eexists].
    - rewrite Hdirty. set_solver. }
  split_and!; [done | | done].
  transitivity (lru_view s).
  - unfold lru_view. symmetry. by apply map_subseteq_union.
  - rewrite Hf, Hv. unfold lru_view at 1.
    cbn [LRUCache.init LRUCache.cache_storage LRUCache.next_storage].
    by rewrite (left_id_L ∅ (∪)).
Qed.

End LRUDictionary.
